(** * Orin core: map-point index and governance manager, shallow embedding.

    Sources: src/util/mappoint.{h,cpp}, src/index/mappointindex.{h,cpp},
    src/governance/governance.cpp.

    Conventions of the model:
    - a [uint256] is represented by its numeric value (the value
      [UintToArith256] yields, the one [SetHex] parses); its storage form, the
      one [operator<] ([memcmp]) and the database serialization use, is the 32
      little-endian bytes of that value ([blob_bytes]);
    - a [double] is represented by the rational number it denotes (Q), and
      each double operation by its exact result rounded to binary64
      ([Binary64.to_double]);
    - the LevelDB store is an association list with unique keys, iterated in
      the byte-wise order of the serialized keys (LevelDB's default
      comparator);
    - the script library (CScript::GetOp, IsUnspendable, ExtractDestination
      followed by EncodeDestination) is an interface, [ScriptLib]. *)

From Stdlib Require Import ZArith List String Ascii Bool QArith Qround Lia.
From Stdlib Require Import Sorting.Sorted Qabs Lqa Qpower.
Import ListNotations.
Open Scope Z_scope.

(* ------------------------------------------------------------------ *)
(** ** Bytes and 256-bit blobs *)

Module Bytes.

(** [n] little-endian bytes of [v] (ser_writedata32 / uint256 storage). *)
Fixpoint le_bytes (n : nat) (v : Z) : list Z :=
  match n with
  | O => []
  | S n' => (v mod 256) :: le_bytes n' (v / 256)
  end.

(** Byte-wise lexicographic order: memcmp on the common prefix, then the
    shorter key first (LevelDB's BytewiseComparator). *)
Fixpoint lex_ltb (a b : list Z) : bool :=
  match a, b with
  | [], [] => false
  | [], _ :: _ => true
  | _ :: _, [] => false
  | x :: a', y :: b' => (x <? y) || ((x =? y) && lex_ltb a' b')
  end.

(** Storage bytes of a uint256 of numeric value [x]. *)
Definition blob_bytes (x : Z) : list Z := le_bytes 32 x.

(** [base_blob::operator<]: memcmp of the stored bytes. *)
Definition blob_ltb (a b : Z) : bool := lex_ltb (blob_bytes a) (blob_bytes b).

(** Bytes of an ASCII string. *)
Fixpoint string_bytes (s : string) : list Z :=
  match s with
  | EmptyString => []
  | String c s' => Z.of_nat (nat_of_ascii c) :: string_bytes s'
  end.

(** CompactSize length prefix. *)
Definition compact_size (n : Z) : list Z :=
  if n <? 253 then [n]
  else if n <=? 65535 then 253 :: le_bytes 2 n
  else if n <=? 4294967295 then 254 :: le_bytes 4 n
  else 255 :: le_bytes 8 n.

Definition ser_string (s : string) : list Z :=
  compact_size (Z.of_nat (String.length s)) ++ string_bytes s.

End Bytes.

(* ------------------------------------------------------------------ *)
(** ** Binary64 rounding *)

(** IEEE-754 binary64 arithmetic (C++ [double]) on finite values: every
    operation returns its exact result rounded to nearest, ties to even,
    at 53 significant bits, with least exponent -1074 (subnormals).
    [to_double x] is that rounding of the rational [x]. Results in this
    file stay far below 2^1024, so overflow to infinity is left out. *)
Module Binary64.

Definition pow2 (e : Z) : Q := Qpower (2 # 1) e.

(** floor(log2 a), for a > 0: estimated from the bit lengths of the
    numerator and denominator, then corrected by one comparison. *)
Definition Qlog2_floor (a : Q) : Z :=
  let k0 := Z.log2 (Qnum a) - Z.log2 (Zpos (Qden a)) in
  if Qle_bool (pow2 k0) a then k0 else k0 - 1.

(** The exponent of the last significant bit of a double of magnitude [a]. *)
Definition fl_exp (a : Q) : Z := Z.max (Qlog2_floor a - 52) (-1074).

(** Nearest integer, ties to the even one. *)
Definition round_even (s : Q) : Z :=
  let f := Qfloor s in
  match Qcompare (s - inject_Z f)%Q (1 # 2) with
  | Lt => f
  | Gt => f + 1
  | Eq => if Z.even f then f else f + 1
  end.

Definition to_double (x : Q) : Q :=
  if Qeq_bool x 0 then 0%Q else
  let a := Qabs x in
  let e := fl_exp a in
  let r := (inject_Z (round_even (a / pow2 e)) * pow2 e)%Q in
  if Qle_bool 0 x then r else (- r)%Q.

End Binary64.

(* ------------------------------------------------------------------ *)
(** ** util/mappoint.cpp *)

Module MapPoint.

Definition COORD_SCALE : Q := 1000000.
Definition MAX_LATITUDE : Q := 90.
Definition MAX_LONGITUDE : Q := 180.

(** [llround]: nearest integer, halfway cases away from zero. *)
Definition llround (q : Q) : Z :=
  if Qle_bool 0 q then Qfloor (q + (1 # 2)) else - Qfloor (- q + (1 # 2)).

(** [EncodeCoordinate]; [None] is the [return false] branch (the error text
    is not modelled; a rational is always finite). [value * COORD_SCALE] is
    a double product. *)
Definition EncodeCoordinate (value max_abs : Q) : option Z :=
  if negb (Qle_bool (- max_abs) value) || negb (Qle_bool value max_abs) then None
  else Some (llround (Binary64.to_double (value * COORD_SCALE))).

Definition EncodeCoordinates (lat lon : Q) : option (Z * Z) :=
  match EncodeCoordinate lat MAX_LATITUDE with
  | None => None
  | Some elat =>
      match EncodeCoordinate lon MAX_LONGITUDE with
      | None => None
      | Some elon => Some (elat, elon)
      end
  end.

(** [DecodeCoordinate] (util/mappoint.h):
    [static_cast<double>(encoded) / COORD_SCALE], both steps rounded. *)
Definition DecodeCoordinate (encoded : Z) : Q :=
  Binary64.to_double (Binary64.to_double (inject_Z encoded) / COORD_SCALE).

End MapPoint.

(** ** Payload parsing (util/mappoint.cpp and the util/strencodings helpers
    it calls) *)
Module Payload.

Definition MAP_POINT_PREFIX : string := "ORINMAP1".
Definition MAP_POINT_TRANSFER_PREFIX : string := "ORINMAPX".
(** [sizeof] of the prefix arrays, terminating NUL included. *)
Definition SIZEOF_PREFIX : nat := 9.

(** [SplitString(str, sep)]: every separator splits; "" gives [""]. *)
Fixpoint SplitString (s : string) (sep : ascii) : list string :=
  match s with
  | EmptyString => [EmptyString]
  | String c s' =>
      let parts := SplitString s' sep in
      if Ascii.eqb c sep then EmptyString :: parts
      else match parts with
           | p :: ps => String c p :: ps
           | [] => [String c EmptyString]
           end
  end.

Definition digit_val (c : ascii) : option Z :=
  let n := nat_of_ascii c in
  if (48 <=? n)%nat && (n <=? 57)%nat then Some (Z.of_nat n - 48) else None.

Fixpoint parse_digits (s : string) (acc : Z) : option Z :=
  match s with
  | EmptyString => Some acc
  | String c s' =>
      match digit_val c with
      | Some d => parse_digits s' (acc * 10 + d)
      | None => None
      end
  end.

(** [ToIntegral<int64_t>] (std::from_chars, whole string consumed). *)
Definition ToIntegral64 (s : string) : option Z :=
  let '(neg, body) :=
    match s with
    | String c r => if Ascii.eqb c "-"%char then (true, r) else (false, s)
    | EmptyString => (false, s)
    end in
  match body with
  | EmptyString => None
  | _ =>
      match parse_digits body 0 with
      | Some v =>
          let z := if neg then - v else v in
          if (- 2 ^ 63 <=? z) && (z <? 2 ^ 63) then Some z else None
      | None => None
      end
  end.

(** [ParseInt64]: an optional leading '+' (but not "+-"). *)
Definition ParseInt64 (s : string) : option Z :=
  match s with
  | String c r =>
      if Ascii.eqb c "+"%char then
        match r with
        | String c' _ => if Ascii.eqb c' "-"%char then None else ToIntegral64 r
        | EmptyString => ToIntegral64 r
        end
      else ToIntegral64 s
  | EmptyString => ToIntegral64 s
  end.

Definition hex_val (c : ascii) : option Z :=
  let n := Z.of_nat (nat_of_ascii c) in
  if (48 <=? n) && (n <=? 57) then Some (n - 48)
  else if (97 <=? n) && (n <=? 102) then Some (n - 87)
  else if (65 <=? n) && (n <=? 70) then Some (n - 55)
  else None.

Fixpoint all_hex (s : string) : bool :=
  match s with
  | EmptyString => true
  | String c s' => match hex_val c with Some _ => all_hex s' | None => false end
  end.

(** [IsHex]: hex digits only, non-empty, even length. *)
Definition IsHex (s : string) : bool :=
  all_hex s && (0 <? String.length s)%nat && Nat.even (String.length s).

(** [uint256::SetHex] on a 64-digit hex string: its numeric value. *)
Fixpoint hex_value (s : string) (acc : Z) : Z :=
  match s with
  | EmptyString => acc
  | String c s' =>
      match hex_val c with Some d => hex_value s' (acc * 16 + d) | None => acc end
  end.

(** [static_cast<int64_t>(MAX_LATITUDE * COORD_SCALE)] and the longitude
    bound (both products are exact in double arithmetic). *)
Definition MAX_ENCODED_LAT : Z := 90000000.
Definition MAX_ENCODED_LON : Z := 180000000.

(** [std::llabs] on an [int64_t]: |INT64_MIN| is not representable and the
    two's-complement negation wraps around to INT64_MIN itself. *)
Definition llabs (v : Z) : Z := if v =? - 2 ^ 63 then - 2 ^ 63 else Z.abs v.

(** [ParsePayload]. *)
Definition ParsePayload (payload : string) : option (Z * Z) :=
  if (String.length payload <? SIZEOF_PREFIX)%nat then None else
  match SplitString payload ":"%char with
  | [p0; p1; p2] =>
      if negb (String.eqb p0 MAP_POINT_PREFIX) then None else
      match ParseInt64 p1, ParseInt64 p2 with
      | Some lat, Some lon =>
          if MAX_ENCODED_LAT <? llabs lat then None
          else if MAX_ENCODED_LON <? llabs lon then None
          else Some (lat, lon)
      | _, _ => None
      end
  | _ => None
  end.

(** [ParseTransferPayload]. *)
Definition ParseTransferPayload (payload : string) : option Z :=
  if (String.length payload <=? SIZEOF_PREFIX)%nat then None else
  match SplitString payload ":"%char with
  | [p0; p1] =>
      if negb (String.eqb p0 MAP_POINT_TRANSFER_PREFIX) then None
      else if negb (Nat.eqb (String.length p1) 64) || negb (IsHex p1) then None
      else Some (hex_value p1 0)
  | _ => None
  end.

(** tinyformat's [%d] of an [int64_t]: a '-' for a negative value, then
    the decimal digits, most significant first. [dec_digits fuel n acc]
    writes the digits of [n >= 0] in front of [acc]; a number has no more
    decimal digits than binary ones, which bounds the fuel. *)
Definition digit_char (d : Z) : ascii := ascii_of_nat (Z.to_nat (48 + d)).

Fixpoint dec_digits (fuel : nat) (n : Z) (acc : string) : string :=
  match fuel with
  | O => acc
  | S f =>
      let acc' := String (digit_char (n mod 10)) acc in
      if n <? 10 then acc' else dec_digits f (n / 10) acc'
  end.

Definition format_d (v : Z) : string :=
  if v <? 0 then String "-" (dec_digits (S (Z.to_nat (Z.log2 (- v)))) (- v) "")
  else dec_digits (S (Z.to_nat (Z.log2 v))) v "".

(** [BuildPayload]: [strprintf("%s:%d:%d", MAP_POINT_PREFIX, encoded_lat, encoded_lon)]. *)
Definition BuildPayload (encoded_lat encoded_lon : Z) : string :=
  MAP_POINT_PREFIX ++ ":" ++ format_d encoded_lat ++ ":" ++ format_d encoded_lon.

(** [HexStr]: two lower-case hex digits per byte. *)
Definition hex_char (d : Z) : ascii :=
  ascii_of_nat (Z.to_nat (if d <? 10 then 48 + d else 87 + d)).

Fixpoint HexStr (bytes : list Z) : string :=
  match bytes with
  | [] => EmptyString
  | b :: bs => String (hex_char (b / 16)) (String (hex_char (b mod 16)) (HexStr bs))
  end.

(** [base_blob::GetHex] (uint256.cpp): [HexStr] of the stored bytes in
    reverse order, i.e. the numeric value, most significant digit first. *)
Definition GetHex (v : Z) : string := HexStr (rev (Bytes.blob_bytes v)).

(** The transfer payload written by the [sendpointtransfer] wallet RPC
    (wallet/rpc/mappoint.cpp):
    [strprintf("%s:%s", MAP_POINT_TRANSFER_PREFIX, point_txid.GetHex())]. *)
Definition TransferPayload (point_txid : Z) : string :=
  MAP_POINT_TRANSFER_PREFIX ++ ":" ++ GetHex point_txid.

End Payload.

(* ------------------------------------------------------------------ *)
(** ** index/mappointindex.cpp *)

Module MapPointIndex.
Import Bytes Payload.

(** One result of [CScript::GetOp]: an opcode with its pushed data, or a
    parse failure (GetOp returns false). *)
Inductive sop := Op (opcode : Z) (data : string) | OpBad.

(** The script library the index calls. [script_ops] is the sequence of
    GetOp results from the start of the script; [ExtractDestination] is
    ExtractDestination followed by EncodeDestination. *)
Class ScriptLib := {
  script : Type;
  script_ops : script -> list sop;
  IsUnspendable : script -> bool;
  ExtractDestination : script -> option string
}.

Definition OP_RETURN : Z := 106.
Definition OP_PUSHDATA4 : Z := 78.

Definition u32 (x : Z) : Z := x mod 2 ^ 32.
(** [static_cast<int>] of a uint32. *)
Definition to_int (x : Z) : Z := if x <? 2 ^ 31 then x else x - 2 ^ 32.

(** Database keys: the five keyspaces and BaseIndex's best-block key. *)
Inductive dbkey :=
| KPoint (txid : Z)                        (* 'p' *)
| KHeight (height txid : Z)                (* 'h' HeightKey *)
| KOwner (owner : string) (txid : Z)       (* 'o' OwnerKey *)
| KTransfer (origin transfer : Z)          (* 't' TransferKey *)
| KTransferHeight (height origin transfer : Z) (* 'y' TransferHeightKey *)
| KBestBlock.                              (* 'B' BaseIndex locator *)

Definition DB_POINT : Z := 112.
Definition DB_HEIGHT : Z := 104.
Definition DB_OWNER : Z := 111.
Definition DB_TRANSFER : Z := 116.
Definition DB_TRANSFER_HEIGHT : Z := 121.
Definition DB_BEST_BLOCK : Z := 66.

(** Serialized key: prefix byte, then the fields; a uint32 is written
    little-endian (ser_writedata32), a uint256 as its 32 stored bytes, a
    string with its CompactSize length. *)
Definition ser_key (k : dbkey) : list Z :=
  match k with
  | KPoint t => DB_POINT :: blob_bytes t
  | KHeight h t => DB_HEIGHT :: le_bytes 4 h ++ blob_bytes t
  | KOwner o t => DB_OWNER :: ser_string o ++ blob_bytes t
  | KTransfer o t => DB_TRANSFER :: blob_bytes o ++ blob_bytes t
  | KTransferHeight h o t => DB_TRANSFER_HEIGHT :: le_bytes 4 h ++ blob_bytes o ++ blob_bytes t
  | KBestBlock => [DB_BEST_BLOCK]
  end.

Definition dbkey_eqb (a b : dbkey) : bool :=
  match a, b with
  | KPoint t, KPoint t' => t =? t'
  | KHeight h t, KHeight h' t' => (h =? h') && (t =? t')
  | KOwner o t, KOwner o' t' => String.eqb o o' && (t =? t')
  | KTransfer o t, KTransfer o' t' => (o =? o') && (t =? t')
  | KTransferHeight h o t, KTransferHeight h' o' t' => (h =? h') && (o =? o') && (t =? t')
  | KBestBlock, KBestBlock => true
  | _, _ => false
  end.

(** [MapPointIndex::Record]. *)
Record PointRecord := {
  height : Z;
  origin_owner : string;
  current_owner : string;
  encoded_lat : Z;
  encoded_lon : Z
}.

Definition set_current_owner (r : PointRecord) (o : string) : PointRecord :=
  {| height := height r; origin_owner := origin_owner r; current_owner := o;
     encoded_lat := encoded_lat r; encoded_lon := encoded_lon r |}.

Definition set_height (r : PointRecord) (h : Z) : PointRecord :=
  {| height := h; origin_owner := origin_owner r; current_owner := current_owner r;
     encoded_lat := encoded_lat r; encoded_lon := encoded_lon r |}.

(** [MapPointIndex::TransferRecord]. *)
Record TransferRecord := {
  tr_height : Z;
  new_owner : string;
  previous_owner : string
}.

(** [MapPointTransferInfo]. *)
Record MapPointTransferInfo := {
  transfer_txid : Z;
  info_height : Z;
  info_new_owner : string
}.

Inductive dbval := VPoint (r : PointRecord) | VTransfer (r : TransferRecord) | VFlag | VLocator (h : Z).

(** The key/value store: unique keys. *)
Definition store := list (dbkey * dbval).

Fixpoint db_read (k : dbkey) (s : store) : option dbval :=
  match s with
  | [] => None
  | (k', v) :: s' => if dbkey_eqb k k' then Some v else db_read k s'
  end.

Definition db_erase (k : dbkey) (s : store) : store :=
  filter (fun kv => negb (dbkey_eqb (fst kv) k)) s.

Definition db_write (k : dbkey) (v : dbval) (s : store) : store := (k, v) :: db_erase k s.

Definition has_key (k : dbkey) (s : store) : Prop := db_read k s <> None.

Inductive batch_op := BWrite (k : dbkey) (v : dbval) | BErase (k : dbkey).

Definition apply_op (s : store) (op : batch_op) : store :=
  match op with
  | BWrite k v => db_write k v s
  | BErase k => db_erase k s
  end.

Definition apply_batch (s : store) (b : list batch_op) : store := fold_left apply_op b s.

(** The database handle: the store and the outcomes of its next batch
    commits ([false] = an I/O error; once the list is exhausted every commit
    succeeds). A failed commit leaves the store unchanged (LevelDB batches
    are atomic). *)
Record DB := { db_store : store; db_io : list bool }.

Definition WriteBatch (d : DB) (b : list batch_op) : bool * DB :=
  match db_io d with
  | false :: io' => (false, {| db_store := db_store d; db_io := io' |})
  | true :: io' => (true, {| db_store := apply_batch (db_store d) b; db_io := io' |})
  | [] => (true, {| db_store := apply_batch (db_store d) b; db_io := [] |})
  end.

(** Iteration: entries in byte-wise order of their serialized keys. *)
Definition key_ltb (a b : dbkey) : bool := lex_ltb (ser_key a) (ser_key b).

Fixpoint insert_entry (e : dbkey * dbval) (l : store) : store :=
  match l with
  | [] => [e]
  | e' :: l' => if key_ltb (fst e) (fst e') then e :: l else e' :: insert_entry e l'
  end.

Definition sorted_entries (s : store) : store := fold_right insert_entry [] s.

(** [cursor->Seek(k)] followed by [Next] until the end: the entries whose key
    is not below [k], in order. *)
Definition seek (s : store) (k : dbkey) : store :=
  filter (fun e => negb (key_ltb (fst e) k)) (sorted_entries s).

(** [DB::ReadPoint]. *)
Definition ReadPoint (s : store) (txid : Z) : option PointRecord :=
  match db_read (KPoint txid) s with Some (VPoint r) => Some r | _ => None end.

Definition read_transfer (s : store) (o t : Z) : option TransferRecord :=
  match db_read (KTransfer o t) s with Some (VTransfer r) => Some r | _ => None end.

(** [DB::WritePoints]. *)
Definition point_ops (entry : Z * PointRecord) : list batch_op :=
  let '(txid, record) := entry in
  [BWrite (KPoint txid) (VPoint record); BWrite (KHeight (height record) txid) VFlag] ++
  (if String.eqb (current_owner record) "" then []
   else [BWrite (KOwner (current_owner record) txid) VFlag]).

Definition WritePoints (d : DB) (records : list (Z * PointRecord)) : bool * DB :=
  match records with
  | [] => (true, d)
  | _ => WriteBatch d (flat_map point_ops records)
  end.

(** [DB::WriteRecord] (CDBWrapper::Write commits a one-entry batch). *)
Definition WriteRecord (d : DB) (txid : Z) (record : PointRecord) : bool * DB :=
  WriteBatch d [BWrite (KPoint txid) (VPoint record)].

(** [DB::UpdateOwnerIndex]. *)
Definition owner_index_ops (old_owner new_owner : string) (origin : Z) : list batch_op :=
  (if String.eqb old_owner "" then [] else [BErase (KOwner old_owner origin)]) ++
  (if String.eqb new_owner "" then [] else [BWrite (KOwner new_owner origin) VFlag]).

Definition UpdateOwnerIndex (d : DB) (old_owner new_owner : string) (origin : Z) : bool * DB :=
  WriteBatch d (owner_index_ops old_owner new_owner origin).

(** [DB::WriteTransfer]. *)
Definition WriteTransfer (d : DB) (origin transfer : Z) (record : TransferRecord) : bool * DB :=
  WriteBatch d [BWrite (KTransfer origin transfer) (VTransfer record);
                BWrite (KTransferHeight (tr_height record) origin transfer) VFlag].

(** The cursor loop of [DB::ErasePointsAboveHeight]: batch and removed
    points. It stops at the first key outside the 'h' keyspace; it does not
    look at the height of the keys it visits. *)
Fixpoint erase_points_walk (s : store) (cur : store) : list batch_op * list Z :=
  match cur with
  | (KHeight h t, _) :: rest =>
      let '(ops, removed) := erase_points_walk s rest in
      match ReadPoint s t with
      | Some record =>
          (BErase (KPoint t) ::
           (if String.eqb (current_owner record) "" then []
            else [BErase (KOwner (current_owner record) t)]) ++
           BErase (KHeight h t) :: ops, t :: removed)
      | None => (BErase (KHeight h t) :: ops, removed)
      end
  | _ => ([], [])
  end.

Definition ErasePointsAboveHeight (d : DB) (h : Z) : bool * DB * list Z :=
  let s := db_store d in
  let '(ops, removed) := erase_points_walk s (seek s (KHeight (u32 (h + 1)) 0)) in
  let '(ok, d') := WriteBatch d ops in
  (ok, d', removed).

(** The cursor loop of [DB::RemoveTransfersAboveHeight]: batch and owner
    updates in cursor order; it stops at the first key outside the 'y'
    keyspace or at a height [<= h]. *)
Fixpoint remove_transfers_walk (s : store) (h : Z) (cur : store)
  : list batch_op * list (Z * string) :=
  match cur with
  | (KTransferHeight th o t, _) :: rest =>
      if th <=? h then ([], []) else
      let '(ops, updates) := remove_transfers_walk s h rest in
      match read_transfer s o t with
      | Some record =>
          (BErase (KTransfer o t) :: BErase (KTransferHeight th o t) :: ops,
           (o, previous_owner record) :: updates)
      | None => (BErase (KTransferHeight th o t) :: ops, updates)
      end
  | _ => ([], [])
  end.

(** [DB::RemoveTransfersAboveHeight] (the updates come back reversed). *)
Definition RemoveTransfersAboveHeight (d : DB) (h : Z) : bool * DB * list (Z * string) :=
  let s := db_store d in
  let '(ops, updates) := remove_transfers_walk s h (seek s (KTransferHeight (u32 (h + 1)) 0 0)) in
  let '(ok, d') := WriteBatch d ops in
  (ok, d', rev updates).

(** The cursor loop of [DB::RemoveAllTransfersForOrigin]. *)
Fixpoint remove_origin_walk (origin : Z) (cur : store) : list batch_op :=
  match cur with
  | (KTransfer o t, v) :: rest =>
      if negb (o =? origin) then [] else
      (match v with
       | VTransfer record => [BErase (KTransferHeight (tr_height record) o t)]
       | _ => []
       end) ++ BErase (KTransfer o t) :: remove_origin_walk origin rest
  | _ => []
  end.

Definition RemoveAllTransfersForOrigin (d : DB) (origin : Z) : bool * DB :=
  let s := db_store d in
  WriteBatch d (remove_origin_walk origin (seek s (KTransfer origin 0))).

(** [std::sort] of [ReadTransfers], with its comparator; modelled by an
    insertion sort (the keys (height, txid) of one origin are distinct, so
    every correct sort gives this list). *)
Definition transfer_cmp (a b : MapPointTransferInfo) : bool :=
  if info_height a =? info_height b then blob_ltb (transfer_txid a) (transfer_txid b)
  else info_height a <? info_height b.

Fixpoint sort_insert (x : MapPointTransferInfo) (l : list MapPointTransferInfo) :=
  match l with
  | [] => [x]
  | y :: l' => if transfer_cmp y x then y :: sort_insert x l' else x :: l
  end.

Definition std_sort (l : list MapPointTransferInfo) : list MapPointTransferInfo :=
  fold_right sort_insert [] l.

(** [a] may precede [b] in a sorted vector: the comparator does not put [b]
    before [a]. *)
Definition not_after (a b : MapPointTransferInfo) : Prop := transfer_cmp b a = false.

Fixpoint read_transfers_walk (origin : Z) (cur : store) : list MapPointTransferInfo :=
  match cur with
  | (KTransfer o t, v) :: rest =>
      if negb (o =? origin) then [] else
      (match v with
       | VTransfer record =>
           [{| transfer_txid := t; info_height := to_int (tr_height record);
               info_new_owner := new_owner record |}]
       | _ => []
       end) ++ read_transfers_walk origin rest
  | _ => []
  end.

(** [DB::ReadTransfers] and [MapPointIndex::GetTransfers]. *)
Definition ReadTransfers (s : store) (origin : Z) : list MapPointTransferInfo :=
  std_sort (read_transfers_walk origin (seek s (KTransfer origin 0))).

Definition GetTransfers (d : DB) (txid : Z) : list MapPointTransferInfo :=
  ReadTransfers (db_store d) txid.

(** [MapPointInfo]. *)
Record MapPointInfo := {
  origin_txid : Z;
  origin_height : Z;
  info_origin_owner : string;
  info_current_owner : string;
  info_encoded_lat : Z;
  info_encoded_lon : Z;
  transfers : list MapPointTransferInfo
}.

(** [DB::MakeInfo]. *)
Definition MakeInfo (txid : Z) (record : PointRecord) : MapPointInfo :=
  {| origin_txid := txid; origin_height := to_int (height record);
     info_origin_owner := origin_owner record; info_current_owner := current_owner record;
     info_encoded_lat := encoded_lat record; info_encoded_lon := encoded_lon record;
     transfers := [] |}.

(** The cursor loop of [DB::ReadByHeight]: it stops at the first key outside
    the 'h' keyspace or at a height above [stop]. *)
Fixpoint read_by_height_walk (s : store) (stop : Z) (cur : store) : list MapPointInfo :=
  match cur with
  | (KHeight h t, _) :: rest =>
      if stop <? h then [] else
      match ReadPoint s t with
      | Some record => MakeInfo t record :: read_by_height_walk s stop rest
      | None => read_by_height_walk s stop rest
      end
  | _ => []
  end.

Definition ReadByHeight (s : store) (start stop : Z) : list MapPointInfo :=
  read_by_height_walk s stop (seek s (KHeight start 0)).

(** The cursor loop of [DB::ReadOwners] for one owner: it stops at the first
    key outside the 'o' keyspace or of another owner. *)
Fixpoint read_owner_walk (s : store) (owner : string) (start stop : Z) (cur : store)
  : list MapPointInfo :=
  match cur with
  | (KOwner o t, _) :: rest =>
      if negb (String.eqb o owner) then [] else
      match ReadPoint s t with
      | Some record =>
          if (start <=? height record) && (height record <=? stop)
          then MakeInfo t record :: read_owner_walk s owner start stop rest
          else read_owner_walk s owner start stop rest
      | None => read_owner_walk s owner start stop rest
      end
  | _ => []
  end.

Definition ReadOwners (s : store) (owners : list string) (start stop : Z) : list MapPointInfo :=
  flat_map (fun owner => read_owner_walk s owner start stop (seek s (KOwner owner 0))) owners.

(** The height bounds of the public queries: [std::max(0, from_height)], and
    a negative [to_height] is [std::numeric_limits<uint32_t>::max()]. *)
Definition from_bound (from_height : Z) : Z := Z.max 0 from_height.
Definition to_bound (to_height : Z) : Z := if to_height <? 0 then 2 ^ 32 - 1 else to_height.

(** [MapPointIndex::GetPointsForOwner]. *)
Definition GetPointsForOwner (d : DB) (owners : list string) (from_height to_height : Z)
  : list MapPointInfo :=
  match owners with
  | [] => []
  | _ => ReadOwners (db_store d) owners (from_bound from_height) (to_bound to_height)
  end.

(** [MapPointIndex::GetPointsInHeightRange]. *)
Definition GetPointsInHeightRange (d : DB) (from_height to_height : Z) : list MapPointInfo :=
  ReadByHeight (db_store d) (from_bound from_height) (to_bound to_height).

(** [MapPointIndex::GetPoint]. *)
Definition GetPoint (d : DB) (txid : Z) : option MapPointInfo :=
  match ReadPoint (db_store d) txid with
  | None => None
  | Some record =>
      let info := MakeInfo txid record in
      Some {| origin_txid := origin_txid info; origin_height := origin_height info;
              info_origin_owner := info_origin_owner info;
              info_current_owner := info_current_owner info;
              info_encoded_lat := info_encoded_lat info; info_encoded_lon := info_encoded_lon info;
              transfers := GetTransfers d txid |}
  end.


Section Blocks.
Context {SL : ScriptLib}.

Record CTransaction := {
  tx_hash : Z;
  tx_is_coinbase : bool;
  tx_vin_count : nat;
  tx_vout : list script
}.

(** The block index entry: height, and the block's undo data
    ([block_undo.vtxundo], each entry the previous outputs' scripts), [None]
    when the undo position is null or [UndoReadFromDisk] fails. *)
Record CBlockIndex := {
  nHeight : Z;
  undo_data : option (list (list script))
}.

(** [ExtractOpReturnData]. *)
Definition ExtractOpReturnData (spk : script) : option string :=
  match script_ops spk with
  | Op c1 _ :: Op c2 data :: _ =>
      if (c1 =? OP_RETURN) && (c2 <=? OP_PUSHDATA4) && negb (String.eqb data "")
      then Some data else None
  | _ => None
  end.

(** The output loop shared by [ExtractRecord] and [WriteBlock]: the payload
    of the first unspendable output from which [ExtractOpReturnData]
    succeeds ([None]: [payload] stays empty). *)
Fixpoint first_payload (vout : list script) : option string :=
  match vout with
  | [] => None
  | o :: rest =>
      if IsUnspendable o then
        match ExtractOpReturnData o with
        | Some p => Some p
        | None => first_payload rest
        end
      else first_payload rest
  end.

(** [ExtractOwnerAddress]. *)
Fixpoint owner_of_outputs (vout : list script) : option string :=
  match vout with
  | [] => None
  | o :: rest =>
      if IsUnspendable o then owner_of_outputs rest
      else match ExtractDestination o with
           | Some a => Some a
           | None => owner_of_outputs rest
           end
  end.

Definition ExtractOwnerAddress (tx : CTransaction) : option string :=
  owner_of_outputs (tx_vout tx).

(** [MapPointIndex::ExtractRecord]. *)
Definition ExtractRecord (tx : CTransaction) : option PointRecord :=
  if tx_is_coinbase tx then None else
  match first_payload (tx_vout tx) with
  | None => None
  | Some payload =>
      match ParsePayload payload with
      | None => None
      | Some (enc_lat, enc_lon) =>
          match ExtractOwnerAddress tx with
          | None => None
          | Some owner =>
              Some {| height := 0; origin_owner := owner; current_owner := owner;
                      encoded_lat := enc_lat; encoded_lon := enc_lon |}
          end
      end
  end.

Record PendingTransfer := {
  pt_origin : Z;
  pt_transfer_txid : Z;
  pt_height : Z;
  pt_new_owner : string;
  pt_prev_owner : string
}.

(** [pending_points], a std::map: association list, [emplace] does not
    overwrite. *)
Fixpoint pp_find (k : Z) (pp : list (Z * PointRecord)) : option PointRecord :=
  match pp with
  | [] => None
  | (k', r) :: pp' => if k =? k' then Some r else pp_find k pp'
  end.

Definition pp_emplace (k : Z) (r : PointRecord) (pp : list (Z * PointRecord)) :=
  match pp_find k pp with Some _ => pp | None => pp ++ [(k, r)] end.

Definition pp_set_owner (k : Z) (o : string) (pp : list (Z * PointRecord)) :=
  map (fun e => if fst e =? k then (fst e, set_current_owner (snd e) o) else e) pp.

(** Iteration order of the std::map: ascending [uint256::operator<]. *)
Fixpoint pp_insert (e : Z * PointRecord) (l : list (Z * PointRecord)) :=
  match l with
  | [] => [e]
  | e' :: l' => if blob_ltb (fst e) (fst e') then e :: l else e' :: pp_insert e l'
  end.

Definition pp_in_order (pp : list (Z * PointRecord)) := fold_right pp_insert [] pp.

(** The inputs loop: does some spent output pay to [prev_owner]? *)
Definition owns_input (prev_owner : string) (vin_count : nat) (vprevout : list script) : bool :=
  existsb (fun spk => negb (IsUnspendable spk) &&
                      match ExtractDestination spk with
                      | Some a => String.eqb a prev_owner
                      | None => false
                      end)
          (firstn vin_count vprevout).

(** One iteration of the transaction loop of [WriteBlock]; [None] is the
    [return false] on missing undo data, [Some acc] a [continue] or the end
    of the iteration. *)
Definition wb_step (s : store) (H : Z) (undo : option (list (list script)))
    (tx_index : nat) (tx : CTransaction)
    (acc : list (Z * PointRecord) * list PendingTransfer)
    : option (list (Z * PointRecord) * list PendingTransfer) :=
  let '(pp, pts) := acc in
  match ExtractRecord tx with
  | Some record => Some (pp_emplace (tx_hash tx) (set_height record (u32 H)) pp, pts)
  | None =>
    let payload := if tx_is_coinbase tx then None else first_payload (tx_vout tx) in
    match payload with
    | None => Some acc
    | Some p =>
      match ParseTransferPayload p with
      | None => Some acc
      | Some origin_txid =>
        match undo with
        | None => None
        | Some vtxundo =>
          match tx_index with
          | O => Some acc
          | S i =>
            match nth_error vtxundo i with
            | None => Some acc
            | Some vprevout =>
              let prev :=
                match pp_find origin_txid pp with
                | Some r => Some (current_owner r)
                | None => option_map current_owner (ReadPoint s origin_txid)
                end in
              match prev with
              | None => Some acc
              | Some prev_owner =>
                if String.eqb prev_owner "" then Some acc
                else if negb (owns_input prev_owner (tx_vin_count tx) vprevout) then Some acc
                else match ExtractOwnerAddress tx with
                     | None => Some acc
                     | Some new_owner =>
                       if String.eqb new_owner "" || String.eqb new_owner prev_owner then Some acc
                       else Some (pp_set_owner origin_txid new_owner pp,
                                  pts ++ [{| pt_origin := origin_txid; pt_transfer_txid := tx_hash tx;
                                             pt_height := u32 H; pt_new_owner := new_owner;
                                             pt_prev_owner := prev_owner |}])
                     end
              end
            end
          end
        end
      end
    end
  end.

Fixpoint wb_scan (s : store) (H : Z) (undo : option (list (list script)))
    (txs : list CTransaction) (tx_index : nat)
    (acc : list (Z * PointRecord) * list PendingTransfer)
    : option (list (Z * PointRecord) * list PendingTransfer) :=
  match txs with
  | [] => Some acc
  | tx :: rest =>
      match wb_step s H undo tx_index tx acc with
      | None => None
      | Some acc' => wb_scan s H undo rest (S tx_index) acc'
      end
  end.

End Blocks.

(** The second loop of [WriteBlock]: one record update, owner-index update
    and transfer write per pending transfer, each its own commit. *)
Fixpoint wb_transfers (d : DB) (pts : list PendingTransfer) : bool * DB :=
  match pts with
  | [] => (true, d)
  | t :: rest =>
      match ReadPoint (db_store d) (pt_origin t) with
      | None => wb_transfers d rest
      | Some record =>
          let cur := current_owner record in
          let '(ok1, d1) := WriteRecord d (pt_origin t) (set_current_owner record (pt_new_owner t)) in
          if negb ok1 then (false, d1) else
          let '(ok2, d2) := UpdateOwnerIndex d1 cur (pt_new_owner t) (pt_origin t) in
          if negb ok2 then (false, d2) else
          let '(ok3, d3) := WriteTransfer d2 (pt_origin t) (pt_transfer_txid t)
                              {| tr_height := pt_height t; new_owner := pt_new_owner t;
                                 previous_owner := pt_prev_owner t |} in
          if negb ok3 then (false, d3) else wb_transfers d3 rest
      end
  end.

Section WriteBlockSec.
Context {SL : ScriptLib}.

(** [MapPointIndex::WriteBlock]. *)
Definition WriteBlock (d : DB) (block : list CTransaction) (pindex : CBlockIndex) : bool * DB :=
  match wb_scan (db_store d) (nHeight pindex) (undo_data pindex) block 0 ([], []) with
  | None => (false, d)
  | Some (pending_points, pending_transfers) =>
      let '(ok, d1) :=
        match pending_points with
        | [] => (true, d)
        | _ => WritePoints d (pp_in_order pending_points)
        end in
      if negb ok then (false, d1) else wb_transfers d1 pending_transfers
  end.

End WriteBlockSec.

(** The owner-restoring loop of [Rewind]. *)
Fixpoint apply_owner_updates (d : DB) (updates : list (Z * string)) : bool * DB :=
  match updates with
  | [] => (true, d)
  | (origin, prev) :: rest =>
      match ReadPoint (db_store d) origin with
      | None => apply_owner_updates d rest
      | Some record =>
          let cur := current_owner record in
          let '(ok1, d1) := WriteRecord d origin (set_current_owner record prev) in
          if negb ok1 then (false, d1) else
          let '(ok2, d2) := UpdateOwnerIndex d1 cur prev origin in
          if negb ok2 then (false, d2) else apply_owner_updates d2 rest
      end
  end.

Fixpoint remove_all_transfers (d : DB) (origins : list Z) : bool * DB :=
  match origins with
  | [] => (true, d)
  | o :: rest =>
      let '(ok, d1) := RemoveAllTransfersForOrigin d o in
      if negb ok then (false, d1) else remove_all_transfers d1 rest
  end.

(** [BaseIndex::Rewind] (index/base.cpp): commits the best-block locator of
    the new tip. *)
Definition BaseIndex_Rewind (d : DB) (new_tip : Z) : bool * DB :=
  WriteBatch d [BWrite KBestBlock (VLocator new_tip)].

(** [MapPointIndex::Rewind]; tips are given by their heights. *)
Definition Rewind (d : DB) (current_tip new_tip : Z) : bool * DB :=
  let '(ok1, d1, owner_updates) := RemoveTransfersAboveHeight d new_tip in
  if negb ok1 then (false, d1) else
  let '(ok2, d2) := apply_owner_updates d1 owner_updates in
  if negb ok2 then (false, d2) else
  let '(ok3, d3, removed_points) := ErasePointsAboveHeight d2 new_tip in
  if negb ok3 then (false, d3) else
  let '(ok4, d4) := remove_all_transfers d3 removed_points in
  if negb ok4 then (false, d4) else
  BaseIndex_Rewind d4 new_tip.

(** The key an operation of a batch writes or erases. *)
Definition op_key (op : batch_op) : dbkey := match op with BWrite k _ => k | BErase k => k end.

(** Keys of the transfer records and of the locator. *)
Definition aux_key (k : dbkey) : Prop :=
  match k with KTransfer _ _ | KTransferHeight _ _ _ | KBestBlock => True | _ => False end.

(** A batch that only erases. *)
Definition erase_only (b : list batch_op) : Prop := forall op, In op b -> exists k, op = BErase k.

(** The secondary indexes of the point records: each record has its
    height-index entry and, when its owner is non-empty, its owner-index
    entry; no owner-index entry has the empty owner. *)
Definition indexes_consistent (s : store) : Prop :=
  (forall t r, ReadPoint s t = Some r ->
     has_key (KHeight (height r) t) s /\
     (current_owner r <> ""%string -> has_key (KOwner (current_owner r) t) s)) /\
  (forall t, ~ has_key (KOwner "" t) s).

End MapPointIndex.

(* ------------------------------------------------------------------ *)
(** ** Concrete scripts and blocks used by the concrete checks *)

Module Fixtures.
Import MapPointIndex.

(** Pay-to-address outputs, OP_RETURN data outputs and a spendable output
    with no standard destination. *)
Inductive tscript := PayTo (addr : string) | NullData (payload : string) | NonStandard.

Definition tscript_ops (s : tscript) : list sop :=
  match s with
  | PayTo a => [Op 118 ""; Op 169 ""; Op 20 a; Op 136 ""; Op 172 ""]
  | NullData p => [Op OP_RETURN ""; Op (Z.of_nat (String.length p)) p]
  | NonStandard => [Op 81 ""; Op 117 ""]
  end.

Definition tIsUnspendable (s : tscript) : bool :=
  match s with NullData _ => true | _ => false end.

Definition tExtractDestination (s : tscript) : option string :=
  match s with PayTo a => Some a | _ => None end.

#[export] Instance TestScripts : ScriptLib :=
  {| script := tscript; script_ops := tscript_ops; IsUnspendable := tIsUnspendable;
     ExtractDestination := tExtractDestination |}.

Definition hex_digit (d : Z) : ascii :=
  ascii_of_nat (Z.to_nat (if d <? 10 then 48 + d else 87 + d)).

Fixpoint hex_digits (n : nat) (v : Z) (acc : string) : string :=
  match n with
  | O => acc
  | S n' => hex_digits n' (v / 16) (String (hex_digit (v mod 16)) acc)
  end.

(** [uint256::GetHex] of a value: 64 hex digits, most significant first. *)
Definition hex64 (v : Z) : string := hex_digits 64 v "".

Definition transfer_payload (origin : Z) : string := ("ORINMAPX:" ++ hex64 origin)%string.

Definition coinbase (h : Z) : CTransaction :=
  {| tx_hash := 1000 + h; tx_is_coinbase := true; tx_vin_count := 1;
     tx_vout := [PayTo "miner"] |}.

(** A point created by [txid] at ("ORINMAP1:1:2"), owned by [owner]. *)
Definition creation_tx (txid : Z) (owner : string) : CTransaction :=
  {| tx_hash := txid; tx_is_coinbase := false; tx_vin_count := 1;
     tx_vout := [NullData "ORINMAP1:1:2"; PayTo owner] |}.

(** A transfer of [origin] to [new_owner]. *)
Definition transfer_tx (txid origin : Z) (new_owner : string) : CTransaction :=
  {| tx_hash := txid; tx_is_coinbase := false; tx_vin_count := 1;
     tx_vout := [NullData (transfer_payload origin); PayTo new_owner] |}.

Definition empty_db : DB := {| db_store := []; db_io := [] |}.

(** Point 10 created by alice at height 5, transferred to bob at height 256. *)
Definition block5 : list CTransaction := [coinbase 5; creation_tx 10 "alice"].
Definition index5 : CBlockIndex := {| nHeight := 5; undo_data := Some [[PayTo "funder"]] |}.
Definition db_h5 : DB := snd (WriteBlock empty_db block5 index5).

Definition block256 : list CTransaction := [coinbase 256; transfer_tx 20 10 "bob"].
Definition index256 : CBlockIndex := {| nHeight := 256; undo_data := Some [[PayTo "alice"]] |}.
Definition db_h256 : DB := snd (WriteBlock db_h5 block256 index256).

Definition db_rewound : DB := snd (Rewind db_h256 256 10).

(** Point 10 transferred again, from bob to carol, at height 300. *)
Definition db_h300 : DB :=
  snd (WriteBlock db_h256 [coinbase 300; transfer_tx 30 10 "carol"]
         {| nHeight := 300; undo_data := Some [[PayTo "bob"]] |}).

End Fixtures.

(* ------------------------------------------------------------------ *)
(** ** governance/governance.cpp *)

Module Governance.
Import Bytes.

(** A std::map keyed by uint256, iterated in ascending [operator<]. *)
Fixpoint map_insert {V} (e : Z * V) (l : list (Z * V)) : list (Z * V) :=
  match l with
  | [] => [e]
  | e' :: l' => if blob_ltb (fst e) (fst e') then e :: l else e' :: map_insert e l'
  end.

Definition map_order {V} (l : list (Z * V)) : list (Z * V) := fold_right map_insert [] l.

Fixpoint lookup {V} (k : Z) (l : list (Z * V)) : option V :=
  match l with
  | [] => None
  | (k', v) :: l' => if k =? k' then Some v else lookup k l'
  end.

Definition mem {V} (k : Z) (l : list (Z * V)) : bool :=
  match lookup k l with Some _ => true | None => false end.

(** [std::map::insert] / [emplace]: no effect when the key is present. *)
Definition map_emplace {V} (k : Z) (v : V) (l : list (Z * V)) : list (Z * V) :=
  if mem k l then l else l ++ [(k, v)].

Definition map_erase {V} (k : Z) (l : list (Z * V)) : list (Z * V) :=
  filter (fun e => negb (fst e =? k)) l.

Inductive GovernanceObjectType := PROPOSAL | TRIGGER | OTHER.

(** The parts of [CGovernanceObject] the manager reads here; the verdict of
    [CProposalValidator] on its data is a field of the object. *)
Record CGovernanceObject := {
  go_hash : Z;
  go_type : GovernanceObjectType;
  go_creation_time : Z;
  go_deletion_time : Z;
  go_cached_delete : bool;
  go_expired : bool;
  go_masternode_outpoint : Z;
  go_plaintext_valid : bool
}.

Definition is_proposal (o : CGovernanceObject) : bool :=
  match go_type o with PROPOSAL => true | _ => false end.

Definition is_trigger (o : CGovernanceObject) : bool :=
  match go_type o with TRIGGER => true | _ => false end.

(** *** Superblock selection *)

(** [CSuperblock]: the hash of its governance object and its block height. *)
Record CSuperblock := { sb_gov_obj_hash : Z; sb_block_height : Z }.

Section Superblocks.
(** [GetAbsoluteYesCount(tip_mn_list, VOTE_SIGNAL_FUNDING)] of an object and
    [CSuperblock::IsValidBlockHeight]. *)
Variable yes_count : CGovernanceObject -> Z.
Variable IsValidBlockHeight : Z -> bool.

(** [GetActiveTriggersInternal]: the superblocks (possibly null) of the
    trigger map, in map order, whose object is present. *)
Definition GetActiveTriggers (mapObjects : list (Z * CGovernanceObject))
    (mapTrigger : list (Z * option CSuperblock)) : list (option CSuperblock) :=
  map snd (filter (fun e => mem (fst e) mapObjects) (map_order mapTrigger)).

Definition best_step (mapObjects : list (Z * CGovernanceObject)) (h : Z)
    (acc : Z * option CSuperblock) (psb : option CSuperblock) : Z * option CSuperblock :=
  let '(nYesCount, ret) := acc in
  match psb with
  | None => acc
  | Some sb =>
      if negb (h =? sb_block_height sb) then acc else
      match lookup (sb_gov_obj_hash sb) mapObjects with
      | None => acc
      | Some obj =>
          let t := yes_count obj in
          if nYesCount <? t then (t, Some sb) else acc
      end
  end.

(** [GetBestSuperblockInternal]: success flag and [pSuperblockRet] (the
    caller passes a null pointer). *)
Definition GetBestSuperblock (mapObjects : list (Z * CGovernanceObject))
    (mapTrigger : list (Z * option CSuperblock)) (h : Z) : bool * option CSuperblock :=
  if negb (IsValidBlockHeight h) then (false, None) else
  let '(nYesCount, ret) :=
    fold_left (best_step mapObjects h) (GetActiveTriggers mapObjects mapTrigger) (0, None) in
  (0 <? nYesCount, ret).

(** The triggers the loop can select at height [h], in iteration order
    (non-null, at height [h], object present), and their YES count. *)
Fixpoint candidates_of (mapObjects : list (Z * CGovernanceObject)) (h : Z)
    (l : list (option CSuperblock)) : list CSuperblock :=
  match l with
  | [] => []
  | None :: l' => candidates_of mapObjects h l'
  | Some sb :: l' =>
      if (h =? sb_block_height sb) && mem (sb_gov_obj_hash sb) mapObjects
      then sb :: candidates_of mapObjects h l' else candidates_of mapObjects h l'
  end.

Definition trigger_candidates (mapObjects : list (Z * CGovernanceObject))
    (mapTrigger : list (Z * option CSuperblock)) (h : Z) : list CSuperblock :=
  candidates_of mapObjects h (GetActiveTriggers mapObjects mapTrigger).

Definition candidate_yes_count (mapObjects : list (Z * CGovernanceObject)) (sb : CSuperblock) : Z :=
  match lookup (sb_gov_obj_hash sb) mapObjects with Some o => yes_count o | None => 0 end.

End Superblocks.

(** *** Rate check *)

(** [CRateCheckBuffer] (declared in governance/object.h, not among the
    sources): its interface. *)
Class RateCheckBuffer := {
  rate_buffer : Type;
  AddTimestamp : Z -> rate_buffer -> rate_buffer;
  GetRate : rate_buffer -> Q
}.

Section RateCheck.
Context {RB : RateCheckBuffer}.

Record last_object_rec := { triggerBuffer : rate_buffer; fStatusOK : bool }.

Record RateEnv := {
  env_synced : bool;               (* m_mn_sync.IsSynced() *)
  env_rate_checks_enabled : bool;  (* fRateChecksEnabled *)
  env_now : Z;                     (* GetAdjustedTime() *)
  env_superblock_cycle_seconds : Z (* nSuperblockCycle * nPowTargetSpacing *)
}.

Definition MAX_TIME_FUTURE_DEVIATION : Z := 3600.

Definition set_status (k : Z) (b : bool) (l : list (Z * last_object_rec)) :=
  map (fun e => if fst e =? k then (fst e, {| triggerBuffer := triggerBuffer (snd e); fStatusOK := b |}) else e) l.

(** [dMaxRate = 2 * 1.1 / double(nSuperblockCycleSeconds)], each operation
    in double arithmetic; [None] is the +infinity of a zero cycle. *)
Definition dMaxRate (cycle : Z) : option Q :=
  if cycle =? 0 then None
  else Some (Binary64.to_double
               (Binary64.to_double (2 * Binary64.to_double (11 # 10)) /
                Binary64.to_double (inject_Z cycle))).

(** [dRate < dMaxRate]. *)
Definition rate_below (dRate : Q) (max_rate : option Q) : bool :=
  match max_rate with
  | None => true
  | Some m => negb (Qle_bool m dRate)
  end.

(** [MasternodeRateCheck(govobj, fUpdateFailStatus, fForce, fRateCheckBypassed)]:
    result, [fRateCheckBypassed], and the new [mapLastMasternodeObject]. *)
Definition MasternodeRateCheck (env : RateEnv) (mapLastMasternodeObject : list (Z * last_object_rec))
    (govobj : CGovernanceObject) (fUpdateFailStatus fForce : bool)
    : bool * bool * list (Z * last_object_rec) :=
  if negb (env_synced env) || negb (env_rate_checks_enabled env) then (true, false, mapLastMasternodeObject) else
  if negb (is_trigger govobj) then (true, false, mapLastMasternodeObject) else
  let o := go_masternode_outpoint govobj in
  let nTimestamp := go_creation_time govobj in
  let nNow := env_now env in
  let cyc := env_superblock_cycle_seconds env in
  if nTimestamp <? nNow - 2 * cyc then (false, false, mapLastMasternodeObject) else
  if nNow + MAX_TIME_FUTURE_DEVIATION <? nTimestamp then (false, false, mapLastMasternodeObject) else
  match lookup o mapLastMasternodeObject with
  | None => (true, false, mapLastMasternodeObject)
  | Some r =>
      if fStatusOK r && negb fForce then (true, true, mapLastMasternodeObject) else
      let buffer := AddTimestamp nTimestamp (triggerBuffer r) in
      let dRate := GetRate buffer in
      if rate_below dRate (dMaxRate cyc) then (true, false, mapLastMasternodeObject) else
      (false, false, if fUpdateFailStatus then set_status o false mapLastMasternodeObject
                     else mapLastMasternodeObject)
  end.

(** [MasternodeRateUpdate] (for a trigger): the real buffer gets the
    timestamp and the status becomes OK. *)
Definition MasternodeRateUpdate (mapLastMasternodeObject : list (Z * last_object_rec))
    (empty_buffer : rate_buffer) (govobj : CGovernanceObject) : list (Z * last_object_rec) :=
  if negb (is_trigger govobj) then mapLastMasternodeObject else
  let o := go_masternode_outpoint govobj in
  let m := map_emplace o {| triggerBuffer := empty_buffer; fStatusOK := true |} mapLastMasternodeObject in
  map (fun e => if fst e =? o
                then (fst e, {| triggerBuffer := AddTimestamp (go_creation_time govobj) (triggerBuffer (snd e));
                                fStatusOK := true |})
                else e) m.

End RateCheck.

(** *** The object store *)

(** The maps of [GovernanceStore] and [CGovernanceManager] that the
    inventory and lifecycle paths below touch. [cmapVoteToObject] maps a
    vote hash to (the hash of) its object. *)
Record GovStore := {
  mapObjects : list (Z * CGovernanceObject);
  mapPostponedObjects : list (Z * CGovernanceObject);
  mapErasedGovernanceObjects : list (Z * Z);
  cmapVoteToObject : list (Z * Z);
  m_requested_hash_time : list (Z * Z)
}.

Definition mkStore objs post erased votes req : GovStore :=
  {| mapObjects := objs; mapPostponedObjects := post; mapErasedGovernanceObjects := erased;
     cmapVoteToObject := votes; m_requested_hash_time := req |}.

Definition empty_store : GovStore := mkStore [] [] [] [] [].

Inductive InvType := MSG_GOVERNANCE_OBJECT | MSG_GOVERNANCE_OBJECT_VOTE | MSG_OTHER (code : Z).
Record CInv := { inv_type : InvType; inv_hash : Z }.

Definition RELIABLE_PROPAGATION_TIME : Z := 60.

(** [ConfirmInventoryRequest]: [synced] is
    [m_mn_sync.IsBlockchainSynced()], [now] is [GetTime()]. *)
Definition ConfirmInventoryRequest (synced : bool) (now : Z) (inv : CInv) (s : GovStore)
    : bool * GovStore :=
  if negb synced then (false, s) else
  let h := inv_hash inv in
  let known :=
    match inv_type inv with
    | MSG_GOVERNANCE_OBJECT => Some (mem h (mapObjects s) || mem h (mapPostponedObjects s))
    | MSG_GOVERNANCE_OBJECT_VOTE => Some (mem h (cmapVoteToObject s))
    | MSG_OTHER _ => None
    end in
  match known with
  | None => (false, s)
  | Some true => (false, s)
  | Some false =>
      let valid_until := now + RELIABLE_PROPAGATION_TIME in
      (true, mkStore (mapObjects s) (mapPostponedObjects s) (mapErasedGovernanceObjects s)
                     (cmapVoteToObject s) (map_emplace h valid_until (m_requested_hash_time s)))
  end.

(** [AcceptMessage]: consumes the request slot. *)
Definition AcceptMessage (h : Z) (s : GovStore) : bool * GovStore :=
  if negb (mem h (m_requested_hash_time s)) then (false, s) else
  (true, mkStore (mapObjects s) (mapPostponedObjects s) (mapErasedGovernanceObjects s)
                 (cmapVoteToObject s) (map_erase h (m_requested_hash_time s))).

Definition GOVERNANCE_DELETION_DELAY : Z := 600.
Definition INT64_MAX : Z := 2 ^ 63 - 1.

(** [CGovernanceObject::PrepareDeletion]. *)
Definition PrepareDeletion (o : CGovernanceObject) (t : Z) : CGovernanceObject :=
  {| go_hash := go_hash o; go_type := go_type o; go_creation_time := go_creation_time o;
     go_deletion_time := if go_deletion_time o =? 0 then t else go_deletion_time o;
     go_cached_delete := true; go_expired := go_expired o;
     go_masternode_outpoint := go_masternode_outpoint o;
     go_plaintext_valid := go_plaintext_valid o |}.

(** The object loop of [CheckAndRemove]: kept objects, erased map, vote
    index. *)
Fixpoint car_objects (now cycle : Z) (objs : list (Z * CGovernanceObject))
    (erased votes : list (Z * Z))
    : list (Z * CGovernanceObject) * list (Z * Z) * list (Z * Z) :=
  match objs with
  | [] => ([], erased, votes)
  | (h, o) :: rest =>
      if (go_cached_delete o || go_expired o) && (GOVERNANCE_DELETION_DELAY <=? now - go_deletion_time o)
      then
        let votes' := filter (fun e => negb (snd e =? h)) votes in
        let nTimeExpired :=
          if is_proposal o then INT64_MAX
          else go_creation_time o + 2 * cycle + GOVERNANCE_DELETION_DELAY in
        car_objects now cycle rest (map_emplace h nTimeExpired erased) votes'
      else
        let o' := if is_proposal o && negb (go_plaintext_valid o) then PrepareDeletion o now else o in
        let '(objs', erased', votes'') := car_objects now cycle rest erased votes in
        ((h, o') :: objs', erased', votes'')
  end.

(** [CheckAndRemove]: nothing before the blockchain is synced; then,
    after the cache refresh (the refresh of the cached flags,
    [UpdateLocalValidity], [UpdateSentinelVariables] and
    [CleanAndRemoveTriggers], changes flags only; it is the [step_refresh]
    step below), the object loop and the sweeps. *)
Definition CheckAndRemove (blockchain_synced : bool) (now cycle : Z) (s : GovStore) : GovStore :=
  if negb blockchain_synced then s else
  let '(objs, erased, votes) :=
    car_objects now cycle (mapObjects s) (mapErasedGovernanceObjects s) (cmapVoteToObject s) in
  mkStore objs (mapPostponedObjects s)
          (filter (fun e => negb (snd e <? now)) erased)
          votes
          (filter (fun e => negb (snd e <? now)) (m_requested_hash_time s)).

(** [AddGovernanceObject]; [valid] is its [IsValidLocally] verdict and
    [trigger_ok] the result of [AddNewTrigger] for a trigger. *)
Definition AddGovernanceObject (govobj : CGovernanceObject) (valid trigger_ok : bool) (now : Z)
    (s : GovStore) : GovStore :=
  let h := go_hash govobj in
  if negb valid then s else
  if mem h (mapObjects s) then s else
  let o := if is_trigger govobj && negb trigger_ok then PrepareDeletion govobj now else govobj in
  mkStore (mapObjects s ++ [(h, o)]) (mapPostponedObjects s) (mapErasedGovernanceObjects s)
          (cmapVoteToObject s) (m_requested_hash_time s).

(** The verdicts of the collaborators on a received object. *)
Record GovObjVerdicts := {
  v_blockchain_synced : bool;  (* m_mn_sync.IsBlockchainSynced() *)
  v_rate_ok : bool;            (* first MasternodeRateCheck *)
  v_rate_bypassed : bool;      (* its fRateCheckBypassed *)
  v_valid : bool;              (* IsValidLocally *)
  v_missing_confirmations : bool;
  v_rate_ok_forced : bool;     (* the forced MasternodeRateCheck *)
  v_valid_on_add : bool;       (* IsValidLocally inside AddGovernanceObject *)
  v_trigger_ok : bool;         (* AddNewTrigger *)
  v_now : Z
}.

(** [ProcessMessage] on MNGOVERNANCEOBJECT, its effect on the store. *)
Definition ProcessGovObj (govobj : CGovernanceObject) (v : GovObjVerdicts) (s0 : GovStore) : GovStore :=
  let h := go_hash govobj in
  if negb (v_blockchain_synced v) then s0 else
  let '(accepted, s) := AcceptMessage h s0 in
  if negb accepted then s else
  if mem h (mapObjects s) || mem h (mapPostponedObjects s) || mem h (mapErasedGovernanceObjects s) then s else
  if negb (v_rate_ok v) then s else
  if v_rate_bypassed v && v_valid v && negb (v_rate_ok_forced v) then s else
  if negb (v_valid v) then
    if v_missing_confirmations v then
      mkStore (mapObjects s) (map_emplace h govobj (mapPostponedObjects s))
              (mapErasedGovernanceObjects s) (cmapVoteToObject s) (m_requested_hash_time s)
    else s
  else AddGovernanceObject govobj (v_valid_on_add v) (v_trigger_ok v) (v_now v) s.

(** The verdicts on a postponed object: [IsCollateralValid],
    its [fMissingConfirmations], [IsValidLocally], and the verdicts inside
    [AddGovernanceObject]. *)
Record PostponedVerdicts := {
  pv_collateral_valid : bool;
  pv_missing_confirmations : bool;
  pv_valid : bool;
  pv_valid_on_add : bool;
  pv_trigger_ok : bool
}.

(** The loop of [CheckPostponedObjects]: the store with the objects added,
    and the postponed entries kept. *)
Fixpoint cpo_loop (verdict : CGovernanceObject -> PostponedVerdicts) (now : Z)
    (ps : list (Z * CGovernanceObject)) (s : GovStore)
    : GovStore * list (Z * CGovernanceObject) :=
  match ps with
  | [] => (s, [])
  | (h, o) :: rest =>
      let pv := verdict o in
      if pv_collateral_valid pv then
        let s' := if pv_valid pv then AddGovernanceObject o (pv_valid_on_add pv) (pv_trigger_ok pv) now s else s in
        cpo_loop verdict now rest s'
      else if pv_missing_confirmations pv then
        let '(s', kept) := cpo_loop verdict now rest s in (s', (h, o) :: kept)
      else cpo_loop verdict now rest s
  end.

Definition CheckPostponedObjects (synced : bool) (verdict : CGovernanceObject -> PostponedVerdicts)
    (now : Z) (s : GovStore) : GovStore :=
  if negb synced then s else
  let '(s', kept) := cpo_loop verdict now (mapPostponedObjects s) s in
  mkStore (mapObjects s') kept (mapErasedGovernanceObjects s') (cmapVoteToObject s')
          (m_requested_hash_time s').

(** Flag refresh of the stored objects by a map that keeps hash and type. *)
Definition refresh (f : CGovernanceObject -> CGovernanceObject) (s : GovStore) : GovStore :=
  mkStore (map (fun e => (fst e, f (snd e))) (mapObjects s)) (mapPostponedObjects s)
          (mapErasedGovernanceObjects s) (cmapVoteToObject s) (m_requested_hash_time s).

(** The manager's transitions: scheduled maintenance, flag refresh, a
    received object, a tip update retrying the postponed objects, and an
    inventory request. Times are int64 values. *)
Inductive gov_step : GovStore -> GovStore -> Prop :=
| step_maintenance synced now cycle s :
    - 2 ^ 63 <= now <= INT64_MAX -> gov_step s (CheckAndRemove synced now cycle s)
| step_refresh f s :
    (forall o, go_hash (f o) = go_hash o /\ go_type (f o) = go_type o) ->
    gov_step s (refresh f s)
| step_govobj govobj v s : gov_step s (ProcessGovObj govobj v s)
| step_postponed synced verdict now s : gov_step s (CheckPostponedObjects synced verdict now s)
| step_inventory synced now inv s : gov_step s (snd (ConfirmInventoryRequest synced now inv s)).

Inductive gov_steps : GovStore -> GovStore -> Prop :=
| steps_refl s : gov_steps s s
| steps_cons s1 s2 s3 : gov_step s1 s2 -> gov_steps s2 s3 -> gov_steps s1 s3.

(** How the three object maps relate: no hash is both live and postponed,
    a postponed or live hash is not erased, each map has a key once, and a
    postponed object is keyed by its hash. *)
Definition gov_inv (s : GovStore) : Prop :=
  (forall h, mem h (mapObjects s) = true -> mem h (mapPostponedObjects s) = false) /\
  (forall h, mem h (mapPostponedObjects s) = true -> mem h (mapErasedGovernanceObjects s) = false) /\
  (forall h, mem h (mapObjects s) = true -> mem h (mapErasedGovernanceObjects s) = false) /\
  (forall h o, In (h, o) (mapPostponedObjects s) -> go_hash o = h) /\
  NoDup (map fst (mapObjects s)) /\ NoDup (map fst (mapPostponedObjects s)).

End Governance.

(* ------------------------------------------------------------------ *)
(** ** Governance fixtures *)

Module GovFixtures.
Import Governance.

Definition trigger_obj (k : Z) : CGovernanceObject :=
  {| go_hash := k; go_type := TRIGGER; go_creation_time := 0; go_deletion_time := 0;
     go_cached_delete := false; go_expired := false; go_masternode_outpoint := 0;
     go_plaintext_valid := true |}.

Definition tie_superblock (k : Z) : CSuperblock :=
  {| sb_gov_obj_hash := k; sb_block_height := 100 |}.

(** Two triggers for the superblock at height 100, hashes 0x00..01 and
    0x00..02. *)
Definition tie_objects : list (Z * CGovernanceObject) := [(1, trigger_obj 1); (2, trigger_obj 2)].
Definition tie_triggers : list (Z * option CSuperblock) :=
  [(2, Some (tie_superblock 2)); (1, Some (tie_superblock 1))].

(** A proposal (hash 5) marked for deletion at time 1. *)
Definition doomed_proposal : CGovernanceObject :=
  {| go_hash := 5; go_type := PROPOSAL; go_creation_time := 0; go_deletion_time := 1;
     go_cached_delete := true; go_expired := false; go_masternode_outpoint := 0;
     go_plaintext_valid := true |}.

Definition inv5 : CInv := {| inv_type := MSG_GOVERNANCE_OBJECT; inv_hash := 5 |}.

(** Every collaborator accepts the object. *)
Definition all_ok (now : Z) : GovObjVerdicts :=
  {| v_blockchain_synced := true; v_rate_ok := true; v_rate_bypassed := false; v_valid := true;
     v_missing_confirmations := false; v_rate_ok_forced := true; v_valid_on_add := true;
     v_trigger_ok := true; v_now := now |}.

(** Requested and received at time 0, swept at time 1000, requested and
    received again. *)
Definition gov_requested : GovStore := snd (ConfirmInventoryRequest true 0 inv5 empty_store).
Definition gov_live : GovStore := ProcessGovObj doomed_proposal (all_ok 0) gov_requested.
Definition gov_swept : GovStore := CheckAndRemove true 1000 0 gov_live.
Definition gov_rerequested : GovStore := snd (ConfirmInventoryRequest true 1000 inv5 gov_swept).

End GovFixtures.

(* ------------------------------------------------------------------ *)
(** ** A rate buffer for the concrete rate-limit checks *)

Module SpecRateBuffer.
Import Governance.

(** Modelled from the spec: [CRateCheckBuffer] (governance/object.h) is not
    among the sources; spec 3.6 and 4.A describe it as a ring of at most
    about 10 timestamps, the oldest evicted when full, whose rate is 0 with
    fewer than 2 samples and (count - 1) / (max - min) otherwise. *)
Definition RATE_BUFFER_SIZE : nat := 10.

Definition add_timestamp (t : Z) (b : list Z) : list Z :=
  let b' := b ++ [t] in
  if (RATE_BUFFER_SIZE <? List.length b')%nat then tl b' else b'.

Definition get_rate (b : list Z) : Q :=
  match b with
  | [] | [_] => 0
  | t :: rest =>
      inject_Z (Z.of_nat (List.length b) - 1) /
      inject_Z (fold_left Z.max rest t - fold_left Z.min rest t)
  end.

#[export] Instance SpecBuffer : RateCheckBuffer :=
  {| rate_buffer := list Z; AddTimestamp := add_timestamp; GetRate := get_rate |}.

(** The rate-limit path of a received trigger that is otherwise valid
    ([ProcessMessage] on MNGOVERNANCEOBJECT: the first check with
    [fUpdateFailStatus], the forced one after a bypass, then
    [MasternodeRateUpdate] in [AddGovernanceObject]). *)
Definition rate_gate (env : RateEnv) (m : list (Z * last_object_rec)) (obj : CGovernanceObject)
    : bool * list (Z * last_object_rec) :=
  let '(ok1, bypassed, m1) := MasternodeRateCheck env m obj true false in
  if negb ok1 then (false, m1) else
  let '(ok2, _, m2) := if bypassed then MasternodeRateCheck env m1 obj true true else (true, false, m1) in
  if negb ok2 then (false, m2) else (true, MasternodeRateUpdate m2 [] obj).

(** The number of triggers of a sequence that pass the rate limit. *)
Fixpoint admitted (env : RateEnv) (m : list (Z * last_object_rec)) (objs : list CGovernanceObject) : nat :=
  match objs with
  | [] => O
  | o :: rest =>
      let '(ok, m') := rate_gate env m o in
      (if ok then 1 else 0) + admitted env m' rest
  end%nat.

(** A trigger of masternode 1 created at [t]. *)
Definition trigger_at (t : Z) : CGovernanceObject :=
  {| go_hash := t; go_type := TRIGGER; go_creation_time := t; go_deletion_time := 0;
     go_cached_delete := false; go_expired := false; go_masternode_outpoint := 1;
     go_plaintext_valid := true |}.

(** Superblock cycle of 1000 s, now = 100010; masternode 1 last sent a
    trigger at time 0. *)
Definition burst_env : RateEnv :=
  {| env_synced := true; env_rate_checks_enabled := true; env_now := 100010;
     env_superblock_cycle_seconds := 1000 |}.
Definition burst_map : list (Z * last_object_rec) :=
  [(1, {| triggerBuffer := [0]; fStatusOK := true |})].
Definition burst : list CGovernanceObject := map (fun k => trigger_at (100000 + Z.of_nat k)) (seq 0 10).

End SpecRateBuffer.

(* ================================================================== *)
(** * Properties *)

(* ------------------------------------------------------------------ *)
(** ** Rounding to binary64 *)

Module Binary64Facts.
Import Binary64.
Local Open Scope Q_scope.

Lemma pow2_pos (e : Z) : 0 < pow2 e.
Proof. apply Qpower_0_lt. reflexivity. Qed.

Lemma pow2_le (e1 e2 : Z) : (e1 <= e2)%Z -> pow2 e1 <= pow2 e2.
Proof. intros H. apply Qpower_le_compat_l; [exact H|discriminate]. Qed.

Lemma pow2_le_inv (e1 e2 : Z) : pow2 e1 <= pow2 e2 -> (e1 <= e2)%Z.
Proof. intros H. apply Qpower_le_compat_l_inv in H; [exact H|reflexivity]. Qed.

Lemma pow2_lt_inv (e1 e2 : Z) : pow2 e1 < pow2 e2 -> (e1 < e2)%Z.
Proof. intros H. apply Qpower_lt_compat_l_inv in H; [exact H|reflexivity]. Qed.

Lemma pow2_add (a b : Z) : pow2 (a + b) == pow2 a * pow2 b.
Proof. apply Qpower_plus. discriminate. Qed.

Lemma pow2_Z (e : Z) : (0 <= e)%Z -> pow2 e == inject_Z (2 ^ e).
Proof. intros H. unfold pow2. rewrite Zpower_Qpower by exact H. reflexivity. Qed.

Lemma pow2_opp (e : Z) : pow2 (- e) * pow2 e == 1.
Proof. rewrite <- pow2_add. replace (- e + e)%Z with 0%Z by lia. reflexivity. Qed.

Lemma Qmake_mult_den (n : Z) (d : positive) : (n # d) * inject_Z (Zpos d) == inject_Z n.
Proof. unfold Qeq. simpl. lia. Qed.

Lemma log2_bounds (n : Z) : (0 < n)%Z ->
  pow2 (Z.log2 n) <= inject_Z n /\ inject_Z n < pow2 (Z.log2 n + 1).
Proof.
  intros H. pose proof (Z.log2_spec n H) as [H1 H2]. pose proof (Z.log2_nonneg n).
  rewrite !pow2_Z by lia. rewrite <- Zle_Qle, <- Zlt_Qlt.
  rewrite <- Z.add_1_r in H2. split; [exact H1|exact H2].
Qed.

Lemma Qlog2_floor_spec (a : Q) : 0 < a ->
  pow2 (Qlog2_floor a) <= a /\ a < pow2 (Qlog2_floor a + 1).
Proof.
  destruct a as [n d]. intros Ha.
  assert (Hn : (0 < n)%Z) by (unfold Qlt in Ha; simpl in Ha; lia).
  destruct (log2_bounds n Hn) as [N1 N2].
  destruct (log2_bounds (Zpos d) eq_refl) as [D1 D2].
  pose proof (Qmake_mult_den n d) as Hm.
  assert (Dp : 0 < inject_Z (Zpos d)) by reflexivity.
  unfold Qlog2_floor. cbn [Qnum Qden].
  set (ln := Z.log2 n). set (ld := Z.log2 (Zpos d)). fold ln in N1, N2. fold ld in D1, D2.
  (* (n # d) > 2^(ln - ld - 1) and (n # d) < 2^(ln - ld + 1) *)
  assert (Lo : pow2 (ln - ld - 1) <= n # d).
  { apply (Qmult_le_r _ _ (pow2 (ld + 1))); [apply pow2_pos|].
    rewrite <- pow2_add. replace (ln - ld - 1 + (ld + 1))%Z with ln by lia.
    apply Qle_trans with (inject_Z n); [exact N1|].
    rewrite <- Hm. apply Qmult_le_l; [exact Ha|]. apply Qlt_le_weak, D2. }
  assert (Hi : n # d < pow2 (ln - ld + 1)).
  { apply (Qmult_lt_r _ _ (pow2 ld)); [apply pow2_pos|].
    rewrite <- pow2_add. replace (ln - ld + 1 + ld)%Z with (ln + 1)%Z by lia.
    apply Qle_lt_trans with (inject_Z n); [|exact N2].
    rewrite <- Hm. apply Qmult_le_l; [exact Ha|exact D1]. }
  destruct (Qle_bool (pow2 (ln - ld)) (n # d)) eqn:E.
  - apply Qle_bool_iff in E. split; [exact E|exact Hi].
  - split; [exact Lo|]. replace (ln - ld - 1 + 1)%Z with (ln - ld)%Z by lia.
    apply Qnot_le_lt. intros H. apply Qle_bool_iff in H. congruence.
Qed.

Lemma Qlog2_floor_unique (a : Q) (j : Z) : 0 < a ->
  pow2 j <= a -> a < pow2 (j + 1) -> Qlog2_floor a = j.
Proof.
  intros Ha H1 H2. destruct (Qlog2_floor_spec a Ha) as [K1 K2].
  assert (j < Qlog2_floor a + 1)%Z by (apply pow2_lt_inv; eapply Qle_lt_trans; eauto).
  assert (Qlog2_floor a < j + 1)%Z by (apply pow2_lt_inv; eapply Qle_lt_trans; eauto).
  lia.
Qed.

Lemma Qlog2_floor_comp (a b : Q) : 0 < a -> a == b -> Qlog2_floor a = Qlog2_floor b.
Proof.
  intros Ha E. assert (Hb : 0 < b) by (rewrite <- E; exact Ha).
  destruct (Qlog2_floor_spec a Ha) as [K1 K2].
  symmetry. apply Qlog2_floor_unique; [exact Hb| rewrite <- E; exact K1 | rewrite <- E; exact K2].
Qed.

Lemma Qlog2_floor_le (a : Q) (B : Z) : 0 < a -> a <= pow2 B -> (Qlog2_floor a <= B)%Z.
Proof.
  intros Ha H. apply pow2_le_inv. eapply Qle_trans; [apply (Qlog2_floor_spec a Ha)|exact H].
Qed.

Lemma round_even_near (s : Q) : Qabs (inject_Z (round_even s) - s) <= 1 # 2.
Proof.
  pose proof (Qfloor_le s) as H1. pose proof (Qlt_floor s) as H2.
  rewrite inject_Z_plus in H2. change (inject_Z 1) with 1 in H2.
  unfold round_even.
  destruct (Qcompare_spec (s - inject_Z (Qfloor s)) (1 # 2)) as [E|E|E].
  - destruct (Z.even (Qfloor s)); apply Qabs_Qle_condition;
      try rewrite inject_Z_plus; change (inject_Z 1) with 1; split; lra.
  - apply Qabs_Qle_condition. split; lra.
  - apply Qabs_Qle_condition. rewrite inject_Z_plus. change (inject_Z 1) with 1. split; lra.
Qed.

Lemma round_even_cases (s : Q) :
  round_even s = Qfloor s \/ ((round_even s = Qfloor s + 1)%Z /\ inject_Z (Qfloor s) < s).
Proof.
  unfold round_even.
  destruct (Qcompare_spec (s - inject_Z (Qfloor s)) (1 # 2)) as [E|E|E].
  - destruct (Z.even (Qfloor s)); [now left|right]. split; [reflexivity|lra].
  - now left.
  - right. split; [reflexivity|lra].
Qed.

Lemma round_even_le (s : Q) (N : Z) : s <= inject_Z N -> (round_even s <= N)%Z.
Proof.
  intros H. assert (Hf : (Qfloor s <= N)%Z).
  { rewrite <- (Qfloor_Z N). now apply Qfloor_resp_le. }
  destruct (round_even_cases s) as [->|[-> Hlt]]; [exact Hf|].
  assert (inject_Z (Qfloor s) < inject_Z N) by (eapply Qlt_le_trans; eauto).
  rewrite <- Zlt_Qlt in H0. lia.
Qed.

Lemma round_even_nonneg (s : Q) : 0 <= s -> (0 <= round_even s)%Z.
Proof.
  intros H. assert (Hf : (0 <= Qfloor s)%Z).
  { change 0%Z with (Qfloor 0). now apply Qfloor_resp_le. }
  destruct (round_even_cases s) as [->|[-> _]]; lia.
Qed.

Lemma round_even_int (s : Q) (z : Z) : s == inject_Z z -> round_even s = z.
Proof.
  intros E. unfold round_even.
  rewrite (Qfloor_comp s (inject_Z z) E), Qfloor_Z.
  destruct (Qcompare_spec (s - inject_Z z) (1 # 2)) as [E'|E'|E']; [| reflexivity |]; exfalso;
    rewrite E in E'; ring_simplify in E'; [discriminate E' | ].
  unfold Qlt in E'. simpl in E'. lia.
Qed.

Lemma round_even_comp (s t : Q) : s == t -> round_even s = round_even t.
Proof.
  intros E. unfold round_even. rewrite (Qfloor_comp s t E). rewrite E. reflexivity.
Qed.

Lemma to_double_zero (x : Q) : x == 0 -> to_double x = 0.
Proof. intros E. unfold to_double. apply Qeq_bool_iff in E. rewrite E. reflexivity. Qed.

Lemma Qabs_pos_nonzero (x : Q) : ~ x == 0 -> 0 < Qabs x.
Proof.
  intros H. destruct (Qlt_le_dec 0 (Qabs x)) as [h|h]; [exact h|].
  exfalso. apply H. apply Qabs_Qle_condition in h. lra.
Qed.

Lemma to_double_comp (x y : Q) : x == y -> to_double x == to_double y.
Proof.
  intros E. destruct (Qeq_dec x 0) as [Z0|Z0].
  { rewrite (to_double_zero x Z0), (to_double_zero y) by (rewrite <- E; exact Z0). reflexivity. }
  assert (Z1 : ~ y == 0) by (rewrite <- E; exact Z0).
  unfold to_double.
  destruct (Qeq_bool x 0) eqn:Ex; [apply Qeq_bool_iff in Ex; contradiction|].
  destruct (Qeq_bool y 0) eqn:Ey; [apply Qeq_bool_iff in Ey; contradiction|].
  assert (Ea : Qabs x == Qabs y) by (rewrite E; reflexivity).
  assert (Ee : fl_exp (Qabs x) = fl_exp (Qabs y)).
  { unfold fl_exp. now rewrite (Qlog2_floor_comp _ _ (Qabs_pos_nonzero x Z0) Ea). }
  rewrite <- Ee. rewrite (round_even_comp (Qabs x / pow2 (fl_exp (Qabs x))) (Qabs y / pow2 (fl_exp (Qabs x))))
    by (unfold Qdiv; apply Qmult_comp; [exact Ea|reflexivity]).
  destruct (Qle_bool 0 x) eqn:Sx, (Qle_bool 0 y) eqn:Sy; try reflexivity; exfalso.
  - apply Qle_bool_iff in Sx. rewrite E in Sx. apply Qle_bool_iff in Sx. congruence.
  - apply Qle_bool_iff in Sy. rewrite <- E in Sy. apply Qle_bool_iff in Sy. congruence.
Qed.

(** The rounding error: half a unit in the last place. *)
Lemma to_double_err (x : Q) : Qabs (to_double x - x) <= pow2 (fl_exp (Qabs x)) * (1 # 2).
Proof.
  pose proof (pow2_pos (fl_exp (Qabs x))) as P.
  destruct (Qeq_dec x 0) as [Z0|Z0].
  { rewrite (to_double_zero x Z0). setoid_replace (0 - x) with 0 by (rewrite Z0; ring).
    simpl. apply Qmult_le_0_compat; [apply Qlt_le_weak, P|discriminate]. }
  unfold to_double.
  destruct (Qeq_bool x 0) eqn:Ex; [apply Qeq_bool_iff in Ex; contradiction|].
  set (e := fl_exp (Qabs x)) in *. set (a := Qabs x).
  pose proof (round_even_near (a / pow2 e)) as Hn.
  set (m := round_even (a / pow2 e)) in *.
  assert (Key : Qabs (inject_Z m * pow2 e - a) <= pow2 e * (1 # 2)).
  { setoid_replace (inject_Z m * pow2 e - a) with ((inject_Z m - a / pow2 e) * pow2 e)
      by (field; apply Qnot_eq_sym, Qlt_not_eq, P).
    rewrite Qabs_Qmult, (Qabs_pos (pow2 e)) by (apply Qlt_le_weak, P).
    rewrite Qmult_comm. apply Qmult_le_l; [exact P|exact Hn]. }
  destruct (Qle_bool 0 x) eqn:Sx.
  - apply Qle_bool_iff in Sx. assert (Ea : a == x) by (apply Qabs_pos, Sx).
    rewrite <- Ea. exact Key.
  - assert (Sx' : x < 0) by (apply Qnot_le_lt; intros h; apply Qle_bool_iff in h; congruence).
    assert (Ea : a == - x) by (apply Qabs_neg, Qlt_le_weak, Sx').
    setoid_replace (- (inject_Z m * pow2 e) - x) with (- (inject_Z m * pow2 e - a)) by (rewrite Ea; ring).
    rewrite Qabs_opp. exact Key.
Qed.

(** The error bound for a magnitude at most 2^B. *)
Lemma to_double_err_bound (x : Q) (B : Z) :
  Qabs x <= pow2 B -> Qabs (to_double x - x) <= pow2 (Z.max (B - 52) (-1074)) * (1 # 2).
Proof.
  intros H. destruct (Qeq_dec x 0) as [Z0|Z0].
  { rewrite (to_double_zero x Z0). setoid_replace (0 - x) with 0 by (rewrite Z0; ring).
    simpl. apply Qmult_le_0_compat; [apply Qlt_le_weak, pow2_pos|discriminate]. }
  eapply Qle_trans; [apply to_double_err|].
  apply Qmult_le_r; [reflexivity|]. apply pow2_le. unfold fl_exp.
  pose proof (Qlog2_floor_le (Qabs x) B (Qabs_pos_nonzero x Z0) H). lia.
Qed.

(** An integer of magnitude below 2^53 is a double. *)
Lemma to_double_int (z : Z) : (Z.abs z < 2 ^ 53)%Z -> to_double (inject_Z z) == inject_Z z.
Proof.
  intros Hz. destruct z as [|p|p]; [reflexivity| |];
  (unfold to_double;
   replace (Qeq_bool (inject_Z _) 0) with false by reflexivity;
   change (Qabs (inject_Z _)) with (inject_Z (Zpos p));
   set (e := fl_exp (inject_Z (Zpos p)));
   assert (He : (e <= 0)%Z);
   [ unfold e, fl_exp;
     assert (Hk : (Qlog2_floor (inject_Z (Zpos p)) < 53)%Z);
     [ apply pow2_lt_inv; eapply Qle_lt_trans; [apply Qlog2_floor_spec; reflexivity|];
       rewrite pow2_Z by lia; rewrite <- Zlt_Qlt; simpl in Hz; lia
     | lia ]
   | ];
   assert (Hs : inject_Z (Zpos p) / pow2 e == inject_Z (Zpos p * 2 ^ (- e)));
   [ rewrite inject_Z_mult, <- pow2_Z by lia;
     unfold Qdiv; apply Qmult_comp; [reflexivity|];
     unfold pow2; rewrite Qpower_opp; reflexivity
   | ];
   rewrite (round_even_int _ _ Hs);
   pose proof (pow2_opp e) as O).
  - change (Qle_bool 0 (inject_Z (Zpos p))) with true. cbv iota.
    rewrite inject_Z_mult, <- pow2_Z by lia.
    rewrite <- Qmult_assoc, O. ring.
  - change (Qle_bool 0 (inject_Z (Zneg p))) with false. cbv iota.
    rewrite inject_Z_mult, <- pow2_Z by lia.
    rewrite <- Qmult_assoc, O. change (inject_Z (Zneg p)) with (- inject_Z (Zpos p)). ring.
Qed.

(** A double rounding of a value at most N * 2^F, where 2^F is at least the
    unit in the last place, is at most N * 2^F. *)
Lemma to_double_abs_le (x : Q) (N F : Z) :
  Qabs x <= inject_Z N * pow2 F -> (fl_exp (Qabs x) <= F)%Z ->
  Qabs (to_double x) <= inject_Z N * pow2 F.
Proof.
  intros H HF. destruct (Qeq_dec x 0) as [Z0|Z0].
  { rewrite (to_double_zero x Z0). simpl. eapply Qle_trans; [apply Qabs_nonneg|exact H]. }
  unfold to_double.
  destruct (Qeq_bool x 0) eqn:Ex; [apply Qeq_bool_iff in Ex; contradiction|].
  set (e := fl_exp (Qabs x)) in *. set (a := Qabs x) in *.
  pose proof (pow2_pos e) as P.
  assert (Hs : a / pow2 e <= inject_Z (N * 2 ^ (F - e))).
  { rewrite inject_Z_mult, <- pow2_Z by lia.
    apply (Qmult_le_r _ _ (pow2 e)); [exact P|].
    setoid_replace (a / pow2 e * pow2 e) with a by (field; apply Qnot_eq_sym, Qlt_not_eq, P).
    rewrite <- Qmult_assoc, <- pow2_add. replace (F - e + e)%Z with F by lia. exact H. }
  pose proof (round_even_le _ _ Hs) as Hm.
  assert (Hm0 : (0 <= round_even (a / pow2 e))%Z).
  { apply round_even_nonneg. apply Qle_shift_div_l; [exact P|]. rewrite Qmult_0_l. apply Qabs_nonneg. }
  set (m := round_even (a / pow2 e)) in *.
  assert (R : Qabs (inject_Z m * pow2 e) <= inject_Z N * pow2 F).
  { rewrite (Qabs_pos (inject_Z m * pow2 e)) by (apply Qmult_le_0_compat; [change 0 with (inject_Z 0); rewrite <- Zle_Qle; exact Hm0|apply Qlt_le_weak, P]).
    apply Qle_trans with (inject_Z (N * 2 ^ (F - e)) * pow2 e).
    - apply Qmult_le_r; [exact P|]. rewrite <- Zle_Qle. exact Hm.
    - rewrite inject_Z_mult, <- pow2_Z by lia. rewrite <- Qmult_assoc, <- pow2_add.
      replace (F - e + e)%Z with F by lia. apply Qle_refl. }
  destruct (Qle_bool 0 x); [exact R|]. rewrite Qabs_opp. exact R.
Qed.

End Binary64Facts.

(* ------------------------------------------------------------------ *)
(** ** Coordinate encoding *)

Module MapPointFacts.
Import MapPoint.
Local Open Scope Q_scope.

Lemma llround_near (q : Q) : Qabs (inject_Z (llround q) - q) <= 1 # 2.
Proof.
  unfold llround. destruct (Qle_bool 0 q) eqn:E; apply Qabs_Qle_condition.
  - pose proof (Qfloor_le (q + (1 # 2))) as H1.
    pose proof (Qlt_floor (q + (1 # 2))) as H2.
    rewrite inject_Z_plus in H2. change (inject_Z 1) with 1 in H2. split; lra.
  - rewrite inject_Z_opp.
    pose proof (Qfloor_le (- q + (1 # 2))) as H1.
    pose proof (Qlt_floor (- q + (1 # 2))) as H2.
    rewrite inject_Z_plus in H2. change (inject_Z 1) with 1 in H2. split; lra.
Qed.

Lemma llround_bound (q : Q) (M : Z) : Qabs q <= inject_Z M -> (Z.abs (llround q) <= M)%Z.
Proof.
  intros H. pose proof (llround_near q) as H0.
  apply Qabs_Qle_condition in H, H0. destruct H as [Ha Hb]. destruct H0 as [Hc Hd].
  assert (H1 : inject_Z (llround q) < inject_Z (M + 1)).
  { rewrite inject_Z_plus. change (inject_Z 1) with 1. lra. }
  assert (H2 : inject_Z (- (M + 1)) < inject_Z (llround q)).
  { rewrite inject_Z_opp, inject_Z_plus. change (inject_Z 1) with 1. lra. }
  rewrite <- Zlt_Qlt in H1, H2. lia.
Qed.

Lemma llround_bound_half (q : Q) (M : Z) :
  Qabs q < inject_Z M + (1 # 2) -> (Z.abs (llround q) <= M)%Z.
Proof.
  intros H. pose proof (llround_near q) as H0.
  apply Qabs_Qlt_condition in H. apply Qabs_Qle_condition in H0.
  destruct H as [Ha Hb]. destruct H0 as [Hc Hd].
  assert (H1 : inject_Z (llround q) < inject_Z (M + 1)).
  { rewrite inject_Z_plus. change (inject_Z 1) with 1. lra. }
  assert (H2 : inject_Z (- (M + 1)) < inject_Z (llround q)).
  { rewrite inject_Z_opp, inject_Z_plus. change (inject_Z 1) with 1. lra. }
  rewrite <- Zlt_Qlt in H1, H2. lia.
Qed.

Lemma EncodeCoordinate_in_range (v m : Q) :
  Qabs v <= m -> EncodeCoordinate v m = Some (llround (Binary64.to_double (v * COORD_SCALE))).
Proof.
  intros H. apply Qabs_Qle_condition in H. destruct H as [H1 H2].
  unfold EncodeCoordinate.
  apply Qle_bool_iff in H1. apply Qle_bool_iff in H2. rewrite H1, H2. reflexivity.
Qed.

Lemma scaled_abs (v : Q) (M : Z) :
  Qabs v <= inject_Z M -> Qabs (v * COORD_SCALE) <= inject_Z (M * 1000000).
Proof.
  intros H. rewrite Qabs_Qmult, inject_Z_mult. unfold COORD_SCALE.
  change (Qabs 1000000) with (inject_Z 1000000).
  apply Qmult_le_compat_r; [exact H|discriminate].
Qed.

Lemma scaled_pow2 (v : Q) (M : Z) :
  (M <= 180)%Z -> Qabs v <= inject_Z M -> Qabs (v * COORD_SCALE) <= Binary64.pow2 28.
Proof.
  intros HM H. eapply Qle_trans; [exact (scaled_abs v M H)|].
  rewrite Binary64Facts.pow2_Z by lia. rewrite <- Zle_Qle. lia.
Qed.

(** The double product [value * COORD_SCALE] is within 2^-25 of the exact
    one for any accepted coordinate. *)
Lemma encode_product_err (v : Q) (M : Z) :
  (M <= 180)%Z -> Qabs v <= inject_Z M ->
  Qabs (Binary64.to_double (v * COORD_SCALE) - v * COORD_SCALE) <= 1 # 33554432.
Proof.
  intros HM H. eapply Qle_trans.
  - apply Binary64Facts.to_double_err_bound. exact (scaled_pow2 v M HM H).
  - vm_compute. discriminate.
Qed.

Lemma encode_err (v : Q) (M : Z) :
  (M <= 180)%Z -> Qabs v <= inject_Z M ->
  Qabs (inject_Z (llround (Binary64.to_double (v * COORD_SCALE))) - v * COORD_SCALE)
    <= (1 # 2) + (1 # 33554432).
Proof.
  intros HM H. set (d := Binary64.to_double (v * COORD_SCALE)).
  pose proof (encode_product_err v M HM H) as E1. fold d in E1.
  pose proof (llround_near d) as E2.
  assert (Eq : inject_Z (llround d) - v * COORD_SCALE
               == (inject_Z (llround d) - d) + (d - v * COORD_SCALE)) by ring.
  rewrite Eq. eapply Qle_trans; [apply Qabs_triangle|].
  apply Qplus_le_compat; assumption.
Qed.

Lemma encode_abs (v : Q) (M : Z) :
  (M <= 180)%Z -> Qabs v <= inject_Z M ->
  (Z.abs (llround (Binary64.to_double (v * COORD_SCALE))) <= M * 1000000)%Z.
Proof.
  intros HM H. set (x := v * COORD_SCALE). set (d := Binary64.to_double x).
  pose proof (encode_product_err v M HM H) as E1. fold x d in E1.
  pose proof (scaled_abs v M H) as E2. fold x in E2.
  apply llround_bound_half.
  assert (Eq : d == (d - x) + x) by ring.
  rewrite Eq. eapply Qle_lt_trans; [apply Qabs_triangle|].
  assert (Hs : 1 # 33554432 < 1 # 2) by (vm_compute; reflexivity).
  lra.
Qed.

(** C8 (as stated): an accepted coordinate is encoded as floor(c * 10^6).
    It is not: [EncodeCoordinate] rounds with [llround]. At latitude
    2^-20 (exactly representable, and 2^-20 * 10^6 = 15625/16384 is exact
    in double arithmetic as well) the code gives 1, floor gives 0. *)
Lemma C8_floor_counterexample :
  ~ (forall lat lon : Q, Qabs lat <= 90 -> Qabs lon <= 180 ->
       EncodeCoordinates lat lon = Some (Qfloor (lat * COORD_SCALE), Qfloor (lon * COORD_SCALE))).
Proof.
  intros H. specialize (H (1 # 1048576) 0).
  assert (E : EncodeCoordinates (1 # 1048576) 0 = Some (1%Z, 0%Z)) by (vm_compute; reflexivity).
  rewrite E in H. discriminate H; vm_compute; discriminate.
Qed.

(** C8 (amended): an accepted coordinate c is encoded as [llround] of the
    double product c * 10^6, which lies within 1/2 + 2^-25 of c * 10^6,
    with |encoded_lat| <= 90*10^6 and |encoded_lon| <= 180*10^6; the
    doubles nearest to 55.751244 and 37.618423 encode to
    (55751244, 37618423); and the latitude 4722366482869645 * 2^-73, whose
    exact product with 10^6 is just below 1/2, has the double product 1/2
    and is encoded as 1. *)
Theorem C8_encode_rounds (lat lon : Q) :
  Qabs lat <= 90 -> Qabs lon <= 180 ->
  (exists elat elon,
      EncodeCoordinates lat lon = Some (elat, elon) /\
      elat = llround (Binary64.to_double (lat * COORD_SCALE)) /\
      elon = llround (Binary64.to_double (lon * COORD_SCALE)) /\
      Qabs (inject_Z elat - lat * COORD_SCALE) <= (1 # 2) + (1 # 33554432) /\
      Qabs (inject_Z elon - lon * COORD_SCALE) <= (1 # 2) + (1 # 33554432) /\
      (Z.abs elat <= 90000000)%Z /\ (Z.abs elon <= 180000000)%Z) /\
  EncodeCoordinates (Binary64.to_double (55751244 # 1000000))
                    (Binary64.to_double (37618423 # 1000000)) = Some (55751244%Z, 37618423%Z) /\
  EncodeCoordinates (4722366482869645 # 9444732965739290427392) 0 = Some (1%Z, 0%Z).
Proof.
  intros Hlat Hlon. split; [|split; vm_compute; reflexivity].
  exists (llround (Binary64.to_double (lat * COORD_SCALE))),
         (llround (Binary64.to_double (lon * COORD_SCALE))).
  unfold EncodeCoordinates.
  rewrite (EncodeCoordinate_in_range lat MAX_LATITUDE Hlat).
  rewrite (EncodeCoordinate_in_range lon MAX_LONGITUDE Hlon).
  split; [reflexivity|]. split; [reflexivity|]. split; [reflexivity|].
  split; [exact (encode_err lat 90 ltac:(lia) Hlat)|].
  split; [exact (encode_err lon 180 ltac:(lia) Hlon)|].
  split; [exact (encode_abs lat 90 ltac:(lia) Hlat)|exact (encode_abs lon 180 ltac:(lia) Hlon)].
Qed.

Lemma C8_encode_rounds_witness :
  Qabs (1 # 1048576) <= 90 /\ Qabs 0 <= 180 /\
  (exists elat elon,
      EncodeCoordinates (1 # 1048576) 0 = Some (elat, elon) /\
      elat = llround (Binary64.to_double ((1 # 1048576) * COORD_SCALE)) /\
      elon = llround (Binary64.to_double (0 * COORD_SCALE)) /\
      Qabs (inject_Z elat - (1 # 1048576) * COORD_SCALE) <= (1 # 2) + (1 # 33554432) /\
      Qabs (inject_Z elon - 0 * COORD_SCALE) <= (1 # 2) + (1 # 33554432) /\
      (Z.abs elat <= 90000000)%Z /\ (Z.abs elon <= 180000000)%Z).
Proof.
  assert (H1 : Qabs (1 # 1048576) <= 90) by (vm_compute; discriminate).
  assert (H2 : Qabs 0 <= 180) by (vm_compute; discriminate).
  split; [exact H1|]. split; [exact H2|].
  exact (proj1 (C8_encode_rounds (1 # 1048576) 0 H1 H2)).
Defined.

End MapPointFacts.

(* ------------------------------------------------------------------ *)
(** ** Byte-wise order *)

Module BytesFacts.
Import Bytes.

Lemma le_bytes_length (n : nat) (v : Z) : List.length (le_bytes n v) = n.
Proof. revert v; induction n; intros v; simpl; [reflexivity | now rewrite IHn]. Qed.

Lemma lex_ltb_irrefl (a : list Z) : lex_ltb a a = false.
Proof.
  induction a as [|x a IH]; simpl; [reflexivity|].
  rewrite Z.ltb_irrefl, Z.eqb_refl, IH. reflexivity.
Qed.

Lemma lex_ltb_trans (a b c : list Z) :
  lex_ltb a b = true -> lex_ltb b c = true -> lex_ltb a c = true.
Proof.
  revert b c; induction a as [|x a IH]; intros [|y b] [|z c]; simpl; try discriminate; auto.
  intros H1 H2.
  apply orb_true_iff in H1, H2. apply orb_true_iff.
  destruct H1 as [H1|H1]; destruct H2 as [H2|H2];
    repeat match goal with
           | H : _ && _ = true |- _ => apply andb_true_iff in H; destruct H
           | H : (_ <? _) = true |- _ => apply Z.ltb_lt in H
           | H : (_ =? _) = true |- _ => apply Z.eqb_eq in H
           end; subst.
  - left. apply Z.ltb_lt. lia.
  - left. apply Z.ltb_lt. lia.
  - left. apply Z.ltb_lt. lia.
  - right. apply andb_true_iff. split; [apply Z.eqb_refl | eauto].
Qed.

Lemma lex_ltb_asym (a b : list Z) : lex_ltb a b = true -> lex_ltb b a = false.
Proof.
  intros H. destruct (lex_ltb b a) eqn:E; [|reflexivity].
  pose proof (lex_ltb_trans _ _ _ H E) as H2. rewrite lex_ltb_irrefl in H2. discriminate.
Qed.

Lemma lex_ltb_total (a b : list Z) :
  List.length a = List.length b -> lex_ltb a b = false -> lex_ltb b a = false -> a = b.
Proof.
  revert b; induction a as [|x a IH]; intros [|y b]; simpl; try discriminate; auto.
  intros Hl H1 H2.
  apply orb_false_iff in H1, H2. destruct H1 as [H1 H1']. destruct H2 as [H2 H2'].
  apply Z.ltb_ge in H1, H2. assert (x = y) by lia. subst.
  rewrite Z.eqb_refl in H1', H2'. simpl in H1', H2'.
  f_equal. apply IH; auto.
Qed.

(** Not-less is transitive on keys of one length: [lex_ltb] is a strict
    total order there. *)
Lemma lex_ltb_not_lt_trans (a b c : list Z) :
  List.length a = List.length b -> List.length b = List.length c ->
  lex_ltb b a = false -> lex_ltb c b = false -> lex_ltb c a = false.
Proof.
  intros Hab Hbc H1 H2.
  destruct (lex_ltb c a) eqn:E; [|reflexivity].
  destruct (lex_ltb a b) eqn:Eab.
  - destruct (lex_ltb b c) eqn:Ebc.
    + pose proof (lex_ltb_trans _ _ _ Eab Ebc) as H. rewrite (lex_ltb_asym _ _ H) in E. discriminate.
    + pose proof (lex_ltb_total _ _ Hbc Ebc H2). subst.
      rewrite (lex_ltb_asym _ _ Eab) in E. discriminate.
  - pose proof (lex_ltb_total _ _ Hab Eab H1). subst. congruence.
Qed.

Lemma blob_ltb_asym (a b : Z) : blob_ltb a b = true -> blob_ltb b a = false.
Proof. apply lex_ltb_asym. Qed.

Lemma blob_ltb_not_lt_trans (a b c : Z) :
  blob_ltb b a = false -> blob_ltb c b = false -> blob_ltb c a = false.
Proof.
  unfold blob_ltb, blob_bytes. apply lex_ltb_not_lt_trans; now rewrite !le_bytes_length.
Qed.

End BytesFacts.

(* ------------------------------------------------------------------ *)
(** ** Order of [ReadTransfers] *)

Module TransferOrder.
Import Bytes BytesFacts MapPointIndex.

Lemma transfer_cmp_asym (a b : MapPointTransferInfo) :
  transfer_cmp a b = true -> transfer_cmp b a = false.
Proof.
  unfold transfer_cmp. rewrite (Z.eqb_sym (info_height b)).
  destruct (Z.eqb_spec (info_height a) (info_height b)).
  - apply blob_ltb_asym.
  - intros H. apply Z.ltb_lt in H. apply Z.ltb_ge. lia.
Qed.

Lemma not_after_trans (a b c : MapPointTransferInfo) :
  not_after a b -> not_after b c -> not_after a c.
Proof.
  unfold not_after, transfer_cmp. intros H1 H2.
  destruct (Z.eqb_spec (info_height b) (info_height a)) as [E1|E1];
  destruct (Z.eqb_spec (info_height c) (info_height b)) as [E2|E2];
  destruct (Z.eqb_spec (info_height c) (info_height a)) as [E3|E3];
  try (apply Z.ltb_ge in H1); try (apply Z.ltb_ge in H2); try (apply Z.ltb_ge; lia);
  try lia.
  apply (blob_ltb_not_lt_trans _ _ _ H1 H2).
Qed.

Lemma sort_insert_sorted (x : MapPointTransferInfo) (l : list MapPointTransferInfo) :
  Sorted not_after l -> Sorted not_after (sort_insert x l).
Proof.
  induction l as [|y l IH]; simpl; intros H.
  - constructor; constructor.
  - destruct (transfer_cmp y x) eqn:E.
    + inversion H as [|? ? Hl Hd]; subst. constructor; [now apply IH|].
      destruct l as [|z l']; simpl.
      * constructor. now apply transfer_cmp_asym.
      * destruct (transfer_cmp z x); constructor.
        -- now inversion Hd.
        -- now apply transfer_cmp_asym.
    + constructor; [exact H|]. constructor. exact E.
Qed.

Lemma std_sort_sorted (l : list MapPointTransferInfo) : Sorted not_after (std_sort l).
Proof.
  induction l as [|x l IH]; simpl; [constructor|]. now apply sort_insert_sorted.
Qed.

Lemma strongly_sorted_nth {A} (R : A -> A -> Prop) (l : list A) :
  StronglySorted R l ->
  forall i j a b, (i < j)%nat -> nth_error l i = Some a -> nth_error l j = Some b -> R a b.
Proof.
  induction 1 as [|x l Hs IH Hall]; intros i j a b Hij Hi Hj.
  - destruct i; discriminate.
  - destruct j as [|j]; [lia|]. destruct i as [|i].
    + simpl in Hi, Hj. injection Hi as <-.
      rewrite Forall_forall in Hall. apply Hall. eapply nth_error_In; eauto.
    + simpl in Hi, Hj. apply (IH i j a b); [lia | exact Hi | exact Hj].
Qed.

(** C10: for every origin, [GetTransfers] lists the transfers in ascending
    (height, transfer_txid) order: of two entries at positions i < j, the
    first has the lower height, or the same height and a txid that is not
    greater under [uint256::operator<] (memcmp of the stored bytes; the two
    are distinct keys of one origin, so in practice strictly smaller). *)
Theorem C10_transfers_sorted (d : DB) (origin : Z) :
  forall i j a b, (i < j)%nat ->
    nth_error (GetTransfers d origin) i = Some a ->
    nth_error (GetTransfers d origin) j = Some b ->
    info_height a < info_height b \/
    (info_height a = info_height b /\ blob_ltb (transfer_txid b) (transfer_txid a) = false).
Proof.
  intros i j a b Hij Hi Hj.
  assert (H : not_after a b).
  { eapply strongly_sorted_nth; [| exact Hij | exact Hi | exact Hj].
    apply Sorted_StronglySorted; [exact not_after_trans | apply std_sort_sorted]. }
  unfold not_after, transfer_cmp in H.
  destruct (Z.eqb_spec (info_height b) (info_height a)).
  - right. split; [congruence | exact H].
  - left. apply Z.ltb_ge in H. lia.
Qed.

Lemma C10_transfers_sorted_witness :
  let a := {| transfer_txid := 20; info_height := 256; info_new_owner := "bob" |} in
  let b := {| transfer_txid := 30; info_height := 300; info_new_owner := "carol" |} in
  (0 < 1)%nat /\
  nth_error (GetTransfers Fixtures.db_h300 10) 0 = Some a /\
  nth_error (GetTransfers Fixtures.db_h300 10) 1 = Some b /\
  (info_height a < info_height b \/
   (info_height a = info_height b /\ blob_ltb (transfer_txid b) (transfer_txid a) = false)).
Proof.
  intros a b.
  assert (H0 : (0 < 1)%nat) by lia.
  assert (H1 : nth_error (GetTransfers Fixtures.db_h300 10) 0 = Some a) by (vm_compute; reflexivity).
  assert (H2 : nth_error (GetTransfers Fixtures.db_h300 10) 1 = Some b) by (vm_compute; reflexivity).
  split; [exact H0|]. split; [exact H1|]. split; [exact H2|].
  exact (C10_transfers_sorted Fixtures.db_h300 10 0 1 a b H0 H1 H2).
Defined.

End TransferOrder.

(* ------------------------------------------------------------------ *)
(** ** Rewind on heights of more than one byte *)

Module RewindCheck.
Import Bytes MapPointIndex Fixtures.

(** The height keys are serialized little-endian ([ser_writedata32]), so
    LevelDB's byte-wise order is not the numeric order of heights: the key
    of height 256 (00 01 00 00) sorts below the seek key of height 11
    (0B 00 00 00), and the key of height 5 (05 00 00 00) above the seek key
    of height 256. *)
Lemma height_keys_misordered :
  lex_ltb (ser_key (KTransferHeight 256 10 20)) (ser_key (KTransferHeight 11 0 0)) = true /\
  lex_ltb (ser_key (KHeight 256 0)) (ser_key (KHeight 5 10)) = true.
Proof. split; vm_compute; reflexivity. Qed.

(** C3: rewinding must roll back every transfer above the target height
    (restoring owners in reverse block order) and erase exactly the points
    created above it. On point 10 (created by alice at height 5,
    transferred to bob at height 256 and to carol at height 300), [Rewind]
    to height 10 reports success but keeps the transfer at height 256 and
    leaves bob as owner (not alice); [Rewind] to height 255 reports success
    and erases point 10 although it was created at height 5. *)
Theorem C3_rewind_le_height_order :
  option_map height (ReadPoint (db_store db_h300) 10) = Some 5 /\
  option_map origin_owner (ReadPoint (db_store db_h300) 10) = Some "alice"%string /\
  map info_height (GetTransfers db_h300 10) = [256; 300] /\
  fst (Rewind db_h300 300 10) = true /\
  map info_height (GetTransfers (snd (Rewind db_h300 300 10)) 10) = [256] /\
  option_map current_owner (ReadPoint (db_store (snd (Rewind db_h300 300 10))) 10) = Some "bob"%string /\
  fst (Rewind db_h300 300 255) = true /\
  ReadPoint (db_store (snd (Rewind db_h300 300 255))) 10 = None.
Proof. repeat split; vm_compute; reflexivity. Qed.

End RewindCheck.

(* ------------------------------------------------------------------ *)
(** ** Superblock selection *)

Module SuperblockFacts.
Import Bytes Governance.

Section Fold.
Variable yes_count : CGovernanceObject -> Z.
Variable mapObjects : list (Z * CGovernanceObject).
Variable h : Z.


(** The loop keeps its accumulator, or ends on the first candidate of
    maximal count, when that count beats the initial one. *)
Lemma best_fold_spec (l : list (option CSuperblock)) (c0 : Z) (r0 : option CSuperblock) :
  let '(c, r) := fold_left (best_step yes_count mapObjects h) l (c0, r0) in
  (c = c0 /\ r = r0 /\ Forall (fun sb => candidate_yes_count yes_count mapObjects sb <= c0) (candidates_of mapObjects h l)) \/
  (exists pre sb post, candidates_of mapObjects h l = pre ++ sb :: post /\ r = Some sb /\ c = candidate_yes_count yes_count mapObjects sb /\
     c0 < c /\ Forall (fun x => candidate_yes_count yes_count mapObjects x < c) pre /\ Forall (fun x => candidate_yes_count yes_count mapObjects x <= c) post).
Proof.
  revert c0 r0. induction l as [|p l IH]; intros c0 r0; simpl.
  - left. auto.
  - destruct p as [sb|]; simpl; [|apply IH].
    destruct (Z.eqb_spec h (sb_block_height sb)) as [Eh|Eh]; simpl;
      [|apply IH].
    unfold candidate_yes_count, mem.
    destruct (lookup (sb_gov_obj_hash sb) mapObjects) as [o|] eqn:Eo; simpl; [|apply IH].
    destruct (Z.ltb_spec c0 (yes_count o)) as [Hlt|Hge].
    + specialize (IH (yes_count o) (Some sb)).
      destruct (fold_left _ l _) as [c r].
      destruct IH as [(-> & -> & Hall) | (pre & sb' & post & Ec & -> & -> & Hlt' & Hpre & Hpost)].
      * right. exists [], sb, (candidates_of mapObjects h l).
        split; [reflexivity|]. split; [reflexivity|].
        split; [now rewrite Eo|]. split; [exact Hlt|]. split; [constructor | exact Hall].
      * right. exists (sb :: pre), sb', post. rewrite Ec.
        split; [reflexivity|]. split; [reflexivity|]. split; [reflexivity|].
        split; [lia|]. split; [|exact Hpost].
        constructor; [rewrite Eo; exact Hlt' | exact Hpre].
    + specialize (IH c0 r0).
      destruct (fold_left _ l _) as [c r].
      destruct IH as [(-> & -> & Hall) | (pre & sb' & post & Ec & -> & -> & Hlt' & Hpre & Hpost)].
      * left. split; [reflexivity|]. split; [reflexivity|].
        constructor; [rewrite Eo; lia | exact Hall].
      * right. exists (sb :: pre), sb', post. rewrite Ec.
        split; [reflexivity|]. split; [reflexivity|]. split; [reflexivity|].
        split; [exact Hlt'|]. split; [|exact Hpost].
        constructor; [rewrite Eo; lia | exact Hpre].
Qed.

End Fold.

(** C1 (as stated): ties on the YES count go to the higher numeric hash.
    They go to the trigger met first in the trigger map, whose order is
    [uint256::operator<] (memcmp of the little-endian bytes), and the
    comparison [nTempYesCount > nYesCount] is strict: of triggers 0x00..01
    and 0x00..02 with 10 YES votes each, 0x00..01 wins. *)
Lemma C1_tie_counterexample :
  GetBestSuperblock (fun _ => 10) (fun _ => true) GovFixtures.tie_objects GovFixtures.tie_triggers 100
    = (true, Some (GovFixtures.tie_superblock 1)) /\
  trigger_candidates GovFixtures.tie_objects GovFixtures.tie_triggers 100
    = [GovFixtures.tie_superblock 1; GovFixtures.tie_superblock 2] /\
  candidate_yes_count (fun _ => 10) GovFixtures.tie_objects (GovFixtures.tie_superblock 1) = 10 /\
  candidate_yes_count (fun _ => 10) GovFixtures.tie_objects (GovFixtures.tie_superblock 2) = 10 /\
  sb_gov_obj_hash (GovFixtures.tie_superblock 1) < sb_gov_obj_hash (GovFixtures.tie_superblock 2).
Proof. repeat split; vm_compute; reflexivity. Qed.

(** C1 (amended): at a valid superblock height h, the candidates are the
    active triggers at height h whose object is present (no funding flag is
    consulted), in trigger-map order ([uint256::operator<]); the result is
    the FIRST candidate of maximal YES count (all earlier ones have fewer
    votes, later ones at most as many), reported as success only when that
    count is positive; with no positive count, failure and no superblock.
    At an invalid height, failure. The result is a function of the store and
    the YES counts (deterministic). *)
Theorem C1_best_superblock_first_max (yes_count : CGovernanceObject -> Z)
    (IsValidBlockHeight : Z -> bool) (mapObjects : list (Z * CGovernanceObject))
    (mapTrigger : list (Z * option CSuperblock)) (h : Z) :
  let best := GetBestSuperblock yes_count IsValidBlockHeight mapObjects mapTrigger h in
  let cnt := candidate_yes_count yes_count mapObjects in
  (IsValidBlockHeight h = false -> best = (false, None)) /\
  (IsValidBlockHeight h = true ->
    (best = (false, None) /\
     Forall (fun sb => cnt sb <= 0) (trigger_candidates mapObjects mapTrigger h)) \/
    (exists pre sb post,
       trigger_candidates mapObjects mapTrigger h = pre ++ sb :: post /\
       best = (true, Some sb) /\ 0 < cnt sb /\
       Forall (fun x => cnt x < cnt sb) pre /\ Forall (fun x => cnt x <= cnt sb) post)).
Proof.
  intros best cnt. subst best cnt. unfold GetBestSuperblock, trigger_candidates.
  split; intros Hv; rewrite Hv; [reflexivity|]. simpl.
  pose proof (best_fold_spec yes_count mapObjects h (GetActiveTriggers mapObjects mapTrigger) 0 None) as H.
  destruct (fold_left _ _ _) as [c r].
  destruct H as [(-> & -> & Hall) | (pre & sb & post & Ec & -> & -> & Hlt & Hpre & Hpost)].
  - left. split; [reflexivity | exact Hall].
  - right. exists pre, sb, post. split; [exact Ec|].
    split; [apply Z.ltb_lt in Hlt; now rewrite Hlt|].
    split; [exact Hlt|]. split; [exact Hpre | exact Hpost].
Qed.

Lemma C1_best_superblock_first_max_witness :
  (fun _ : Z => true) 100 = true /\
  ((GetBestSuperblock (fun _ => 10) (fun _ => true) GovFixtures.tie_objects GovFixtures.tie_triggers 100
      = (false, None) /\
    Forall (fun sb => candidate_yes_count (fun _ => 10) GovFixtures.tie_objects sb <= 0)
      (trigger_candidates GovFixtures.tie_objects GovFixtures.tie_triggers 100)) \/
   (exists pre sb post,
      trigger_candidates GovFixtures.tie_objects GovFixtures.tie_triggers 100 = pre ++ sb :: post /\
      GetBestSuperblock (fun _ => 10) (fun _ => true) GovFixtures.tie_objects GovFixtures.tie_triggers 100
        = (true, Some sb) /\
      0 < candidate_yes_count (fun _ => 10) GovFixtures.tie_objects sb /\
      Forall (fun x => candidate_yes_count (fun _ => 10) GovFixtures.tie_objects x
                       < candidate_yes_count (fun _ => 10) GovFixtures.tie_objects sb) pre /\
      Forall (fun x => candidate_yes_count (fun _ => 10) GovFixtures.tie_objects x
                       <= candidate_yes_count (fun _ => 10) GovFixtures.tie_objects sb) post)).
Proof.
  assert (Hv : (fun _ : Z => true) 100 = true) by reflexivity.
  split; [exact Hv|].
  exact (proj2 (C1_best_superblock_first_max (fun _ => 10) (fun _ => true)
                  GovFixtures.tie_objects GovFixtures.tie_triggers 100) Hv).
Defined.

End SuperblockFacts.

(* ------------------------------------------------------------------ *)
(** ** Inventory requests *)

Module InventoryFacts.
Import Governance.

Lemma lookup_app {V} (k : Z) (l1 l2 : list (Z * V)) :
  lookup k (l1 ++ l2) = match lookup k l1 with Some v => Some v | None => lookup k l2 end.
Proof.
  induction l1 as [|[k' v'] l1 IH]; simpl; [reflexivity|].
  destruct (k =? k'); [reflexivity | exact IH].
Qed.

Lemma lookup_map_emplace {V} (k h : Z) (v : V) (l : list (Z * V)) :
  lookup k (map_emplace h v l) =
  if k =? h then match lookup h l with Some t => Some t | None => Some v end
  else lookup k l.
Proof.
  unfold map_emplace, mem.
  destruct (Z.eqb_spec k h) as [->|Hne].
  - destruct (lookup h l) eqn:E; [exact E|]. rewrite lookup_app, E. simpl. now rewrite Z.eqb_refl.
  - destruct (lookup h l); [reflexivity|]. rewrite lookup_app.
    destruct (lookup k l); [reflexivity|]. simpl.
    apply Z.eqb_neq in Hne. now rewrite Hne.
Qed.

(** C5 (as stated): a [true] answer means the hash was not yet on the
    request list, and [now + RELIABLE_PROPAGATION_TIME] is recorded for it.
    A hash already requested (until 5) is confirmed again, and its entry
    keeps the old time: [std::map::emplace] does not overwrite and the
    function returns [true] whether or not it inserted. *)
Lemma C5_rerequest_counterexample :
  let s := mkStore [] [] [] [] [(7, 5)] in
  let inv := {| inv_type := MSG_GOVERNANCE_OBJECT; inv_hash := 7 |} in
  mem 7 (m_requested_hash_time s) = true /\
  ConfirmInventoryRequest true 1000 inv s = (true, s) /\
  lookup 7 (m_requested_hash_time (snd (ConfirmInventoryRequest true 1000 inv s))) = Some 5.
Proof. repeat split; vm_compute; reflexivity. Qed.

(** C5 (amended): [ConfirmInventoryRequest] returns [true] exactly when the
    blockchain is synced, the inventory is a governance object not held in
    objects or postponed objects, or a governance vote not held in the vote
    index; the request list is not consulted. On [true] the hash is on the
    request list afterwards, with [now + RELIABLE_PROPAGATION_TIME] if it was
    absent and its earlier time otherwise; no other entry and no other map
    changes. On [false] nothing changes. *)
Theorem C5_confirm_inventory_request (synced : bool) (now : Z) (inv : CInv) (s : GovStore) :
  let h := inv_hash inv in
  let '(b, s') := ConfirmInventoryRequest synced now inv s in
  (b = true <->
     synced = true /\
     match inv_type inv with
     | MSG_GOVERNANCE_OBJECT => mem h (mapObjects s) = false /\ mem h (mapPostponedObjects s) = false
     | MSG_GOVERNANCE_OBJECT_VOTE => mem h (cmapVoteToObject s) = false
     | MSG_OTHER _ => False
     end) /\
  (b = true ->
     lookup h (m_requested_hash_time s') =
       Some (match lookup h (m_requested_hash_time s) with
             | Some t => t | None => now + RELIABLE_PROPAGATION_TIME end) /\
     (forall k, k <> h -> lookup k (m_requested_hash_time s') = lookup k (m_requested_hash_time s)) /\
     mapObjects s' = mapObjects s /\ mapPostponedObjects s' = mapPostponedObjects s /\
     mapErasedGovernanceObjects s' = mapErasedGovernanceObjects s /\
     cmapVoteToObject s' = cmapVoteToObject s) /\
  (b = false -> s' = s).
Proof.
  intros h. unfold ConfirmInventoryRequest.
  destruct synced; simpl.
  2:{ split; [split; [discriminate | intros [H _]; discriminate] | split; [discriminate | reflexivity]]. }
  fold h.
  assert (Hins : forall P : Prop, P ->
    let s' := mkStore (mapObjects s) (mapPostponedObjects s) (mapErasedGovernanceObjects s)
                (cmapVoteToObject s) (map_emplace h (now + RELIABLE_PROPAGATION_TIME) (m_requested_hash_time s)) in
    (true = true <-> true = true /\ P) /\
    (true = true ->
     lookup h (m_requested_hash_time s') =
       Some (match lookup h (m_requested_hash_time s) with
             | Some t => t | None => now + RELIABLE_PROPAGATION_TIME end) /\
     (forall k, k <> h -> lookup k (m_requested_hash_time s') = lookup k (m_requested_hash_time s)) /\
     mapObjects s' = mapObjects s /\ mapPostponedObjects s' = mapPostponedObjects s /\
     mapErasedGovernanceObjects s' = mapErasedGovernanceObjects s /\
     cmapVoteToObject s' = cmapVoteToObject s) /\
    (true = false -> s' = s)).
  { intros P HP s'. split; [tauto|]. split; [|discriminate].
    intros _. simpl. rewrite lookup_map_emplace, Z.eqb_refl.
    split; [destruct (lookup h (m_requested_hash_time s)); reflexivity|].
    split; [|tauto].
    intros k Hk. rewrite lookup_map_emplace. apply Z.eqb_neq in Hk. now rewrite Hk. }
  destruct (inv_type inv).
  - destruct (mem h (mapObjects s)) eqn:E1; simpl.
    + split; [split; [discriminate | intros [_ [H _]]; discriminate] | split; [discriminate | reflexivity]].
    + destruct (mem h (mapPostponedObjects s)) eqn:E2; simpl.
      * split; [split; [discriminate | intros [_ [_ H]]; discriminate] | split; [discriminate | reflexivity]].
      * apply (Hins (false = false /\ false = false)). auto.
  - destruct (mem h (cmapVoteToObject s)) eqn:E1; simpl.
    + split; [split; [discriminate | intros [_ H]; discriminate] | split; [discriminate | reflexivity]].
    + apply (Hins (false = false)). auto.
  - split; [split; [discriminate | intros [_ []]] | split; [discriminate | reflexivity]].
Qed.

End InventoryFacts.

(* ------------------------------------------------------------------ *)
(** ** Masternode rate check *)

Module RateCheckFacts.
Import Governance.

Lemma buffers_set_status `{RB : RateCheckBuffer} (k : Z) (b : bool) (l : list (Z * last_object_rec)) :
  map (fun e => (fst e, triggerBuffer (snd e))) (set_status k b l) =
  map (fun e => (fst e, triggerBuffer (snd e))) l.
Proof.
  induction l as [|[k' r] l IH]; simpl; [reflexivity|].
  destruct (k' =? k); simpl; now rewrite IH.
Qed.

(** C4 (as stated): every trigger whose creation time is older than
    now - 2 * cycle is rejected by the rate check. When the masternode list
    is not synced (or rate checks are off) the check accepts every object:
    here a trigger created at 0 with now = 100010 and a 1000 s cycle. (The
    buffer instance is immaterial on this path.) *)
Lemma C4_unsynced_counterexample :
  let env := {| env_synced := false; env_rate_checks_enabled := true; env_now := 100010;
                env_superblock_cycle_seconds := 1000 |} in
  is_trigger (SpecRateBuffer.trigger_at 0) = true /\
  go_creation_time (SpecRateBuffer.trigger_at 0) < env_now env - 2 * env_superblock_cycle_seconds env /\
  @MasternodeRateCheck SpecRateBuffer.SpecBuffer env SpecRateBuffer.burst_map
    (SpecRateBuffer.trigger_at 0) true true = (true, false, SpecRateBuffer.burst_map).
Proof. repeat split; vm_compute; reflexivity. Qed.

(** With the rate buffer as the spec describes it, the limit of the check
    does not bound the number of triggers per cycle by ceil(2 * 1.1): a
    masternode whose previous trigger is old gets 9 triggers created within
    9 seconds accepted (the rate stays (k - 1) / (t_k - 0), far below
    2.2 / 1000, until the old sample is evicted). *)
Lemma rate_limit_admits_burst :
  SpecRateBuffer.admitted SpecRateBuffer.burst_env SpecRateBuffer.burst_map SpecRateBuffer.burst = 9%nat.
Proof. vm_compute. reflexivity. Qed.

Lemma rate_below_spec (d : Q) (mo : option Q) :
  rate_below d mo = true <-> forall mr, mo = Some mr -> (d < mr)%Q.
Proof.
  destruct mo as [mr|]; simpl.
  - split.
    + intros H mr' E. injection E as <-. apply Qnot_le_lt. intros Hle.
      apply Qle_bool_iff in Hle. rewrite Hle in H. discriminate H.
    + intros H. specialize (H mr eq_refl). destruct (Qle_bool mr d) eqn:E; [|reflexivity].
      apply Qle_bool_iff in E. exfalso. exact (Qlt_not_le _ _ H E).
  - split; [intros _ mr E; discriminate E | reflexivity].
Qed.

Lemma rate_check_active `{RB : RateCheckBuffer} (env : RateEnv)
    (m : list (Z * last_object_rec)) (govobj : CGovernanceObject) (fUpdateFailStatus fForce : bool) :
  env_synced env = true -> env_rate_checks_enabled env = true -> is_trigger govobj = true ->
  let '(ok, bypassed, m') := MasternodeRateCheck env m govobj fUpdateFailStatus fForce in
  map (fun e => (fst e, triggerBuffer (snd e))) m' = map (fun e => (fst e, triggerBuffer (snd e))) m /\
  (go_creation_time govobj < env_now env - 2 * env_superblock_cycle_seconds env \/
   env_now env + MAX_TIME_FUTURE_DEVIATION < go_creation_time govobj ->
     ok = false /\ bypassed = false /\ m' = m) /\
  (env_now env - 2 * env_superblock_cycle_seconds env <= go_creation_time govobj
     <= env_now env + MAX_TIME_FUTURE_DEVIATION ->
     match lookup (go_masternode_outpoint govobj) m with
     | None => ok = true /\ bypassed = false /\ m' = m
     | Some r =>
         if fStatusOK r && negb fForce then ok = true /\ bypassed = true /\ m' = m
         else bypassed = false /\
              (ok = true <-> forall mr, dMaxRate (env_superblock_cycle_seconds env) = Some mr ->
                 (GetRate (AddTimestamp (go_creation_time govobj) (triggerBuffer r)) < mr)%Q) /\
              m' = (if ok || negb fUpdateFailStatus then m
                    else set_status (go_masternode_outpoint govobj) false m)
     end).
Proof.
  intros Hs He Ht. unfold MasternodeRateCheck.
  rewrite Hs, He, Ht. cbv beta iota delta [negb orb].
  set (ts := go_creation_time govobj). set (now := env_now env).
  set (cyc := env_superblock_cycle_seconds env). set (o := go_masternode_outpoint govobj).
  destruct (Z.ltb_spec ts (now - 2 * cyc)) as [H1|H1]; cbv beta iota delta [negb orb andb].
  { split; [reflexivity|]. split; [auto|]. intros H. lia. }
  destruct (Z.ltb_spec (now + MAX_TIME_FUTURE_DEVIATION) ts) as [H2|H2]; cbv beta iota delta [negb orb andb].
  { split; [reflexivity|]. split; [auto|]. intros H. lia. }
  destruct (lookup o m) as [r|] eqn:Hl; cbv beta iota delta [negb orb andb].
  2:{ split; [reflexivity|]. split; [intros [H|H]; lia|]. intros _. auto. }
  destruct (fStatusOK r), fForce; cbv beta iota delta [negb orb andb].
  2:{ split; [reflexivity|]. split; [intros [H|H]; lia|]. intros _. auto. }
  all: destruct (rate_below (GetRate (AddTimestamp ts (triggerBuffer r))) (dMaxRate cyc)) eqn:Hq;
         cbv beta iota delta [negb orb andb].
  all: split; [try (destruct fUpdateFailStatus; [apply buffers_set_status | reflexivity]); reflexivity|].
  all: split; [intros [H|H]; lia|]; intros _.
  all: split; [reflexivity|].
  all: split; [|destruct fUpdateFailStatus; reflexivity].
  all: rewrite <- rate_below_spec, Hq; tauto.
Qed.

(** C4 (amended): for every input, no buffer of the map is changed; when
    the masternode list is not synced, rate checks are off or the object is
    not a trigger, the object is accepted, not bypassed, and the map is left
    as it is (whatever its creation time); otherwise a creation time before
    now - 2 * cycle or after now + MAX_TIME_FUTURE_DEVIATION is rejected; a
    masternode with no record is accepted; one whose status is OK is
    accepted as bypassed unless [fForce]; else the timestamp is added to a
    copy of its buffer and the object is accepted exactly when the rate is
    below [dMaxRate], the double 2 * 1.1 / double(cycle) (no bound for a
    zero cycle), a rejection clearing the status when [fUpdateFailStatus].
    (No bound on triggers per window follows from the check alone.) *)
Theorem C4_rate_check `{RB : RateCheckBuffer} (env : RateEnv)
    (m : list (Z * last_object_rec)) (govobj : CGovernanceObject) (fUpdateFailStatus fForce : bool) :
  let ts := go_creation_time govobj in
  let now := env_now env in
  let cyc := env_superblock_cycle_seconds env in
  let o := go_masternode_outpoint govobj in
  let '(ok, bypassed, m') := MasternodeRateCheck env m govobj fUpdateFailStatus fForce in
  map (fun e => (fst e, triggerBuffer (snd e))) m' = map (fun e => (fst e, triggerBuffer (snd e))) m /\
  (env_synced env && env_rate_checks_enabled env && is_trigger govobj = false ->
     ok = true /\ bypassed = false /\ m' = m) /\
  (env_synced env && env_rate_checks_enabled env && is_trigger govobj = true ->
     (ts < now - 2 * cyc \/ now + MAX_TIME_FUTURE_DEVIATION < ts -> ok = false /\ bypassed = false /\ m' = m) /\
     (now - 2 * cyc <= ts <= now + MAX_TIME_FUTURE_DEVIATION ->
        match lookup o m with
        | None => ok = true /\ bypassed = false /\ m' = m
        | Some r =>
            if fStatusOK r && negb fForce then ok = true /\ bypassed = true /\ m' = m
            else bypassed = false /\
                 (ok = true <-> forall mr, dMaxRate cyc = Some mr ->
                    (GetRate (AddTimestamp ts (triggerBuffer r)) < mr)%Q) /\
                 m' = (if ok || negb fUpdateFailStatus then m else set_status o false m)
        end)).
Proof.
  intros ts now cyc o. subst ts now cyc o.
  destruct (env_synced env && env_rate_checks_enabled env && is_trigger govobj) eqn:Hg.
  - apply andb_true_iff in Hg as [Hg Ht]. apply andb_true_iff in Hg as [Hs He].
    pose proof (rate_check_active env m govobj fUpdateFailStatus fForce Hs He Ht) as H.
    destruct (MasternodeRateCheck env m govobj fUpdateFailStatus fForce) as [[ok bypassed] m'].
    destruct H as [Hb Hr]. split; [exact Hb|]. split; [intros Hf; discriminate Hf|]. intros _. exact Hr.
  - assert (E : MasternodeRateCheck env m govobj fUpdateFailStatus fForce = (true, false, m)).
    { unfold MasternodeRateCheck.
      destruct (env_synced env), (env_rate_checks_enabled env), (is_trigger govobj);
        cbn [andb] in Hg; try discriminate Hg; reflexivity. }
    rewrite E. split; [reflexivity|]. split; [auto|]. intros Hf. discriminate Hf.
Qed.

Lemma C4_rate_check_witness :
  let '(ok, bypassed, m') :=
    @MasternodeRateCheck SpecRateBuffer.SpecBuffer SpecRateBuffer.burst_env SpecRateBuffer.burst_map
      (SpecRateBuffer.trigger_at 100000) true true in
  map (fun e => (fst e, triggerBuffer (snd e))) m' =
    map (fun e => (fst e, triggerBuffer (snd e))) SpecRateBuffer.burst_map /\ ok = true.
Proof.
  pose proof (@C4_rate_check SpecRateBuffer.SpecBuffer SpecRateBuffer.burst_env SpecRateBuffer.burst_map
                (SpecRateBuffer.trigger_at 100000) true true) as H.
  vm_compute in H |- *. destruct H as [Hb _]. split; [exact Hb | reflexivity].
Defined.

End RateCheckFacts.

(* ------------------------------------------------------------------ *)
(** ** Creation extraction *)

Module ExtractFacts.
Import Payload MapPointIndex Fixtures.

Section Lib.
Context {SL : ScriptLib}.

Lemma first_payload_spec (vout : list script) (p : string) :
  first_payload vout = Some p <->
  exists i o, nth_error vout i = Some o /\ IsUnspendable o = true /\
    ExtractOpReturnData o = Some p /\
    (forall j o', (j < i)%nat -> nth_error vout j = Some o' ->
       IsUnspendable o' = false \/ ExtractOpReturnData o' = None).
Proof.
  induction vout as [|o vout IH]; simpl.
  - split; [discriminate|]. intros (i & o & H & _). destruct i; discriminate.
  - destruct (IsUnspendable o) eqn:Eu; [destruct (ExtractOpReturnData o) as [q|] eqn:Ee|].
    + split.
      * intros [= <-]. exists O, o. repeat split; auto. intros j o' Hj. lia.
      * intros (i & o' & Hi & Hu & He & Hbefore). destruct i as [|i].
        -- simpl in Hi. injection Hi as <-. congruence.
        -- destruct (Hbefore O o ltac:(lia) eq_refl); congruence.
    + rewrite IH. split.
      * intros (i & o' & Hi & Hu & He & Hbefore). exists (S i), o'. repeat split; auto.
        intros [|j] o'' Hj Hn; simpl in Hn; [injection Hn as <-; now right|].
        apply (Hbefore j); auto. lia.
      * intros (i & o' & Hi & Hu & He & Hbefore). destruct i as [|i].
        -- simpl in Hi. injection Hi as <-. congruence.
        -- exists i, o'. repeat split; auto. intros j o'' Hj Hn.
           apply (Hbefore (S j)); auto. lia.
    + rewrite IH. split.
      * intros (i & o' & Hi & Hu & He & Hbefore). exists (S i), o'. repeat split; auto.
        intros [|j] o'' Hj Hn; simpl in Hn; [injection Hn as <-; now left|].
        apply (Hbefore j); auto. lia.
      * intros (i & o' & Hi & Hu & He & Hbefore). destruct i as [|i].
        -- simpl in Hi. injection Hi as <-. congruence.
        -- exists i, o'. repeat split; auto. intros j o'' Hj Hn.
           apply (Hbefore (S j)); auto. lia.
Qed.

Lemma owner_of_outputs_spec (vout : list script) (a : string) :
  owner_of_outputs vout = Some a <->
  exists k o, nth_error vout k = Some o /\ IsUnspendable o = false /\
    ExtractDestination o = Some a /\
    (forall j o', (j < k)%nat -> nth_error vout j = Some o' ->
       IsUnspendable o' = true \/ ExtractDestination o' = None).
Proof.
  induction vout as [|o vout IH]; simpl.
  - split; [discriminate|]. intros (i & o & H & _). destruct i; discriminate.
  - destruct (IsUnspendable o) eqn:Eu; [|destruct (ExtractDestination o) as [q|] eqn:Ee].
    + rewrite IH. split.
      * intros (i & o' & Hi & Hu & He & Hbefore). exists (S i), o'. repeat split; auto.
        intros [|j] o'' Hj Hn; simpl in Hn; [injection Hn as <-; now left|].
        apply (Hbefore j); auto. lia.
      * intros (i & o' & Hi & Hu & He & Hbefore). destruct i as [|i].
        -- simpl in Hi. injection Hi as <-. congruence.
        -- exists i, o'. repeat split; auto. intros j o'' Hj Hn.
           apply (Hbefore (S j)); auto. lia.
    + split.
      * intros [= <-]. exists O, o. repeat split; auto. intros j o' Hj. lia.
      * intros (i & o' & Hi & Hu & He & Hbefore). destruct i as [|i].
        -- simpl in Hi. injection Hi as <-. congruence.
        -- destruct (Hbefore O o ltac:(lia) eq_refl); congruence.
    + rewrite IH. split.
      * intros (i & o' & Hi & Hu & He & Hbefore). exists (S i), o'. repeat split; auto.
        intros [|j] o'' Hj Hn; simpl in Hn; [injection Hn as <-; now right|].
        apply (Hbefore j); auto. lia.
      * intros (i & o' & Hi & Hu & He & Hbefore). destruct i as [|i].
        -- simpl in Hi. injection Hi as <-. congruence.
        -- exists i, o'. repeat split; auto. intros j o'' Hj Hn.
           apply (Hbefore (S j)); auto. lia.
Qed.

End Lib.

(** C7 (as stated): a non-coinbase transaction is a creation when the first
    unspendable output whose payload decodes as an ORINMAP1 payload exists,
    and an owner comes from its first spendable output. The code parses
    only the payload of the first unspendable output that carries OP_RETURN
    data at all, and takes the owner from the first spendable output that
    has a destination: a transaction whose first OP_RETURN output holds
    "hello" and second a valid creation payload is no creation, and one
    whose first spendable output has no destination still is one. *)
Lemma C7_first_payload_counterexample :
  let tx1 := {| tx_hash := 40; tx_is_coinbase := false; tx_vin_count := 1;
                tx_vout := [Fixtures.NullData "hello"; Fixtures.NullData "ORINMAP1:1:2";
                            Fixtures.PayTo "alice"] |} in
  let tx2 := {| tx_hash := 41; tx_is_coinbase := false; tx_vin_count := 1;
                tx_vout := [Fixtures.NullData "ORINMAP1:1:2"; Fixtures.NonStandard;
                            Fixtures.PayTo "alice"] |} in
  ParsePayload "hello" = None /\ ParsePayload "ORINMAP1:1:2" = Some (1, 2) /\
  ExtractRecord tx1 = None /\
  ReadPoint (db_store (snd (WriteBlock Fixtures.empty_db [Fixtures.coinbase 7; tx1]
                               {| nHeight := 7; undo_data := Some [[Fixtures.PayTo "funder"]] |}))) 40
    = None /\
  ExtractDestination (Fixtures.NonStandard : script) = None /\
  IsUnspendable (Fixtures.NonStandard : script) = false /\
  option_map current_owner (ExtractRecord tx2) = Some "alice"%string.
Proof. repeat split; vm_compute; reflexivity. Qed.

(** C7 (amended): [ExtractRecord] yields a creation exactly when the
    transaction is not a coinbase, the first unspendable output from which
    OP_RETURN data can be extracted (index i) carries a payload that parses
    as ORINMAP1 coordinates, and some spendable output has a destination,
    the first such one (index k) giving the owner; the record has those
    coordinates and origin_owner = current_owner = that owner. *)
Theorem C7_extract_record `{SL : ScriptLib} (tx : CTransaction) (rec : PointRecord) :
  ExtractRecord tx = Some rec <->
  tx_is_coinbase tx = false /\
  exists i o p lat lon k ko owner,
    nth_error (tx_vout tx) i = Some o /\ IsUnspendable o = true /\
    ExtractOpReturnData o = Some p /\
    (forall j o', (j < i)%nat -> nth_error (tx_vout tx) j = Some o' ->
       IsUnspendable o' = false \/ ExtractOpReturnData o' = None) /\
    ParsePayload p = Some (lat, lon) /\
    nth_error (tx_vout tx) k = Some ko /\ IsUnspendable ko = false /\
    ExtractDestination ko = Some owner /\
    (forall j o', (j < k)%nat -> nth_error (tx_vout tx) j = Some o' ->
       IsUnspendable o' = true \/ ExtractDestination o' = None) /\
    rec = {| height := 0; origin_owner := owner; current_owner := owner;
             encoded_lat := lat; encoded_lon := lon |}.
Proof.
  unfold ExtractRecord, ExtractOwnerAddress.
  split.
  - destruct (tx_is_coinbase tx); [discriminate|].
    destruct (first_payload (tx_vout tx)) as [p|] eqn:Ep; [|discriminate].
    destruct (ParsePayload p) as [[lat lon]|] eqn:Epp; [|discriminate].
    destruct (owner_of_outputs (tx_vout tx)) as [owner|] eqn:Eo; [|discriminate].
    intros [= <-]. split; [reflexivity|].
    apply first_payload_spec in Ep. destruct Ep as (i & o & Hi & Hu & He & Hb).
    apply owner_of_outputs_spec in Eo. destruct Eo as (k & ko & Hk & Hku & Hkd & Hkb).
    exists i, o, p, lat, lon, k, ko, owner. repeat split; auto.
  - intros (Hc & i & o & p & lat & lon & k & ko & owner &
            Hi & Hu & He & Hb & Hp & Hk & Hku & Hkd & Hkb & ->).
    rewrite Hc.
    assert (Ep : first_payload (tx_vout tx) = Some p)
      by (apply first_payload_spec; exists i, o; auto).
    assert (Eo : owner_of_outputs (tx_vout tx) = Some owner)
      by (apply owner_of_outputs_spec; exists k, ko; auto).
    rewrite Ep, Hp, Eo. reflexivity.
Qed.

End ExtractFacts.

(* ------------------------------------------------------------------ *)
(** ** The key/value store *)

Module StoreFacts.
Import MapPointIndex.

Lemma dbkey_eqb_eq (a b : dbkey) : dbkey_eqb a b = true <-> a = b.
Proof.
  split.
  - destruct a, b; simpl; try discriminate; intros H;
      repeat match goal with
             | H : _ && _ = true |- _ => apply andb_true_iff in H; destruct H
             | H : (_ =? _) = true |- _ => apply Z.eqb_eq in H
             | H : String.eqb _ _ = true |- _ => apply String.eqb_eq in H
             end; subst; reflexivity.
  - intros <-. destruct a; simpl; rewrite ?Z.eqb_refl, ?String.eqb_refl; reflexivity.
Qed.

Lemma dbkey_eqb_neq (a b : dbkey) : dbkey_eqb a b = false <-> a <> b.
Proof.
  rewrite <- dbkey_eqb_eq. destruct (dbkey_eqb a b); split; congruence.
Qed.

Lemma db_read_erase (k k' : dbkey) (s : store) :
  db_read k (db_erase k' s) = if dbkey_eqb k k' then None else db_read k s.
Proof.
  induction s as [|[k0 v0] s IH]; simpl.
  - destruct (dbkey_eqb k k'); reflexivity.
  - destruct (dbkey_eqb k0 k') eqn:E0; simpl.
    + apply dbkey_eqb_eq in E0. subst k0. rewrite IH.
      destruct (dbkey_eqb k k'); reflexivity.
    + destruct (dbkey_eqb k k0) eqn:E1; [|exact IH].
      apply dbkey_eqb_eq in E1. subst k0. rewrite E0. reflexivity.
Qed.

Lemma db_read_write (k k' : dbkey) (v : dbval) (s : store) :
  db_read k (db_write k' v s) = if dbkey_eqb k k' then Some v else db_read k s.
Proof.
  unfold db_write. simpl. rewrite db_read_erase.
  destruct (dbkey_eqb k k'); reflexivity.
Qed.

Lemma apply_batch_app (s : store) (b1 b2 : list batch_op) :
  apply_batch s (b1 ++ b2) = apply_batch (apply_batch s b1) b2.
Proof. unfold apply_batch. apply fold_left_app. Qed.

Lemma apply_batch_cons (s : store) (op : batch_op) (b : list batch_op) :
  apply_batch s (op :: b) = apply_batch (apply_op s op) b.
Proof. reflexivity. Qed.

(** A key no operation of the batch erases stays present. *)
Lemma apply_batch_keeps (k : dbkey) (s : store) (b : list batch_op) :
  (forall op, In op b -> op <> BErase k) -> has_key k s -> has_key k (apply_batch s b).
Proof.
  revert s. induction b as [|op b IH]; intros s Hb Hk; [exact Hk|].
  rewrite apply_batch_cons. apply IH; [intros op' H; apply Hb; now right|].
  unfold has_key in *. destruct op as [k' v|k']; unfold apply_op.
  - rewrite db_read_write. destruct (dbkey_eqb k k'); [discriminate | exact Hk].
  - rewrite db_read_erase. destruct (dbkey_eqb k k') eqn:E.
    + apply dbkey_eqb_eq in E. subst. exfalso. exact (Hb _ (or_introl eq_refl) eq_refl).
    + exact Hk.
Qed.

(** A key no operation of the batch mentions is read unchanged. *)
Lemma apply_batch_other (k : dbkey) (s : store) (b : list batch_op) :
  (forall op, In op b -> op_key op <> k) -> db_read k (apply_batch s b) = db_read k s.
Proof.
  revert s. induction b as [|op b IH]; intros s Hb; [reflexivity|].
  rewrite apply_batch_cons, IH by (intros op' H; apply Hb; now right).
  assert (Hne : dbkey_eqb k (op_key op) = false).
  { apply dbkey_eqb_neq. intros E. apply (Hb op); [now left | congruence]. }
  destruct op as [k' v|k']; unfold apply_op; simpl in Hne.
  - rewrite db_read_write, Hne. reflexivity.
  - rewrite db_read_erase, Hne. reflexivity.
Qed.

(** The last write of a key in a batch with no later erase of it. *)
Lemma apply_batch_written (k : dbkey) (v : dbval) (s : store) (b1 b2 : list batch_op) :
  (forall op, In op b2 -> op_key op <> k) ->
  db_read k (apply_batch s (b1 ++ BWrite k v :: b2)) = Some v.
Proof.
  intros H. rewrite apply_batch_app, apply_batch_cons, apply_batch_other by exact H.
  unfold apply_op. rewrite db_read_write. destruct (dbkey_eqb k k) eqn:E; [reflexivity|].
  apply dbkey_eqb_neq in E. congruence.
Qed.

Lemma WriteBatch_store (d : DB) (b : list batch_op) :
  db_store (snd (WriteBatch d b)) =
  if fst (WriteBatch d b) then apply_batch (db_store d) b else db_store d.
Proof. unfold WriteBatch. destruct (db_io d) as [|[|] io]; reflexivity. Qed.

Lemma WriteBatch_false (d : DB) (b : list batch_op) (d' : DB) :
  WriteBatch d b = (false, d') -> db_store d' = db_store d.
Proof.
  intros H. pose proof (WriteBatch_store d b) as E. rewrite H in E. exact E.
Qed.

Lemma WriteBatch_true (d : DB) (b : list batch_op) (d' : DB) :
  WriteBatch d b = (true, d') -> db_store d' = apply_batch (db_store d) b.
Proof.
  intros H. pose proof (WriteBatch_store d b) as E. rewrite H in E. exact E.
Qed.

End StoreFacts.

(* ------------------------------------------------------------------ *)
(** ** Failures of [WriteBlock] *)

Module WriteBlockFacts.
Import MapPointIndex StoreFacts Fixtures.

Lemma WriteBatch_keeps (k : dbkey) (d : DB) (b : list batch_op) :
  (forall op, In op b -> op <> BErase k) ->
  has_key k (db_store d) -> has_key k (db_store (snd (WriteBatch d b))).
Proof.
  intros Hb Hk. rewrite WriteBatch_store. destruct (fst (WriteBatch d b)); [|exact Hk].
  now apply apply_batch_keeps.
Qed.

Lemma point_ops_writes (recs : list (Z * PointRecord)) (op : batch_op) :
  In op (flat_map point_ops recs) -> exists k v, op = BWrite k v.
Proof.
  intros H. apply in_flat_map in H. destruct H as [[t r] [_ H]].
  unfold point_ops in H. simpl in H.
  destruct H as [<-|[<-|H]]; [eauto|eauto|].
  destruct (String.eqb (current_owner r) ""); simpl in H; [contradiction|].
  destruct H as [<-|[]]. eauto.
Qed.

Lemma point_ops_height (s : store) (recs : list (Z * PointRecord)) (t : Z) (r : PointRecord) :
  In (t, r) recs -> has_key (KHeight (height r) t) (apply_batch s (flat_map point_ops recs)).
Proof.
  revert s. induction recs as [|[t' r'] recs IH]; intros s Hin; [destruct Hin|].
  change (flat_map point_ops ((t', r') :: recs)) with (point_ops (t', r') ++ flat_map point_ops recs).
  rewrite apply_batch_app.
  destruct Hin as [[= -> ->]|Hin]; [|apply IH, Hin].
  apply apply_batch_keeps.
  { intros op Hop Heq. destruct (point_ops_writes recs op Hop) as (k & v & ->). discriminate. }
  unfold point_ops. rewrite apply_batch_app.
  apply apply_batch_keeps.
  { intros op Hop. destruct (String.eqb (current_owner r) ""); simpl in Hop;
      [contradiction | destruct Hop as [<-|[]]; discriminate]. }
  unfold has_key, apply_batch. cbn [fold_left apply_op]. rewrite db_read_write.
  rewrite (proj2 (dbkey_eqb_eq _ _) eq_refl). discriminate.
Qed.

Lemma In_pp_insert (e x : Z * PointRecord) (l : list (Z * PointRecord)) :
  In e (pp_insert x l) <-> e = x \/ In e l.
Proof.
  induction l as [|y l IH]; simpl; [intuition congruence|].
  destruct (Bytes.blob_ltb (fst x) (fst y)); simpl; [intuition congruence|].
  rewrite IH. intuition congruence.
Qed.

Lemma In_pp_in_order (e : Z * PointRecord) (pp : list (Z * PointRecord)) :
  In e (pp_in_order pp) <-> In e pp.
Proof.
  induction pp as [|x pp IH]; simpl; [tauto|].
  rewrite In_pp_insert, IH. intuition congruence.
Qed.

Lemma owner_index_ops_no_height (o n : string) (t h t' : Z) (op : batch_op) :
  In op (owner_index_ops o n t) -> op <> BErase (KHeight h t').
Proof.
  unfold owner_index_ops. intros Hin.
  destruct (String.eqb o ""), (String.eqb n ""); simpl in Hin;
    repeat (destruct Hin as [<-|Hin]; [discriminate|]); contradiction.
Qed.

Lemma owner_index_ops_erases_owner (o n : string) (t : Z) (k : dbkey) (op : batch_op) :
  (forall o' t', k <> KOwner o' t') -> In op (owner_index_ops o n t) -> op <> BErase k.
Proof.
  unfold owner_index_ops. intros Hk Hin.
  destruct (String.eqb o ""), (String.eqb n ""); simpl in Hin;
    repeat (destruct Hin as [<-|Hin]; [intros [= E]; now apply (Hk o t)|]);
    try contradiction;
    destruct Hin as [<-|[]]; discriminate.
Qed.

(** No commit of the transfer loop erases a key outside the 'o' keyspace. *)
Lemma wb_transfers_keeps (pts : list PendingTransfer) (d : DB) (k : dbkey) :
  (forall o t, k <> KOwner o t) ->
  has_key k (db_store d) -> has_key k (db_store (snd (wb_transfers d pts))).
Proof.
  intros Hko. revert d. induction pts as [|p pts IH]; intros d Hk; simpl; [exact Hk|].
  destruct (ReadPoint (db_store d) (pt_origin p)) as [record|]; [|now apply IH].
  unfold WriteRecord, UpdateOwnerIndex, WriteTransfer.
  destruct (WriteBatch d _) as [ok1 d1] eqn:E1.
  assert (H1 : has_key k (db_store d1)).
  { replace d1 with (snd (WriteBatch d [BWrite (KPoint (pt_origin p))
                       (VPoint (set_current_owner record (pt_new_owner p)))])) by now rewrite E1.
    apply WriteBatch_keeps; [|exact Hk]. intros op [<-|[]]. discriminate. }
  destruct ok1; [|exact H1]. simpl.
  destruct (WriteBatch d1 (owner_index_ops _ _ _)) as [ok2 d2] eqn:E2.
  assert (H2 : has_key k (db_store d2)).
  { replace d2 with (snd (WriteBatch d1 (owner_index_ops (current_owner record) (pt_new_owner p)
                                            (pt_origin p)))) by now rewrite E2.
    apply WriteBatch_keeps; [|exact H1]. intros op Hop.
    exact (owner_index_ops_erases_owner _ _ _ k op Hko Hop). }
  destruct ok2; [|exact H2]. simpl.
  destruct (WriteBatch d2 _) as [ok3 d3] eqn:E3.
  assert (H3 : has_key k (db_store d3)).
  { match type of E3 with WriteBatch d2 ?b = _ => replace d3 with (snd (WriteBatch d2 b)) by now rewrite E3 end.
    apply WriteBatch_keeps; [|exact H2]. intros op [<-|[<-|[]]]; discriminate. }
  destruct ok3; [|exact H3]. simpl. now apply IH.
Qed.

Lemma point_ops_point (s : store) (recs : list (Z * PointRecord)) (t : Z) (r : PointRecord) :
  In (t, r) recs -> has_key (KPoint t) (apply_batch s (flat_map point_ops recs)).
Proof.
  revert s. induction recs as [|[t' r'] recs IH]; intros s Hin; [destruct Hin|].
  change (flat_map point_ops ((t', r') :: recs)) with (point_ops (t', r') ++ flat_map point_ops recs).
  rewrite apply_batch_app.
  destruct Hin as [[= -> ->]|Hin]; [|apply IH, Hin].
  apply apply_batch_keeps.
  { intros op Hop Heq. destruct (point_ops_writes recs op Hop) as (k & v & ->). discriminate. }
  unfold point_ops. cbn [app]. rewrite apply_batch_cons. apply apply_batch_keeps.
  { intros op Hop. destruct (String.eqb (current_owner r) ""); simpl in Hop;
      repeat (destruct Hop as [<-|Hop]; [discriminate|]); contradiction. }
  unfold has_key, apply_op. rewrite db_read_write.
  rewrite (proj2 (dbkey_eqb_eq _ _) eq_refl). discriminate.
Qed.

(** The commit outcomes a call consumes: all successes and a [true]
    result, or successes up to one failure and a [false] result. *)
Lemma WriteBatch_consumed (d : DB) (b : list batch_op) :
  exists c, db_io d = c ++ db_io (snd (WriteBatch d b)) /\
    (fst (WriteBatch d b) = true /\ ~ In false c \/
     fst (WriteBatch d b) = false /\ exists c0, c = c0 ++ [false] /\ ~ In false c0).
Proof.
  unfold WriteBatch. destruct (db_io d) as [|[|] io] eqn:E; simpl.
  - exists []. split; [reflexivity|]. left. split; [reflexivity|]. simpl. tauto.
  - exists [true]. split; [reflexivity|]. left. split; [reflexivity|].
    simpl. intros [H|H]; [discriminate|exact H].
  - exists [false]. split; [reflexivity|]. right. split; [reflexivity|].
    exists []. split; [reflexivity|]. simpl. tauto.
Qed.

Lemma consumed_seq (io1 io2 io3 c1 : list bool) (ok : bool) :
  io1 = c1 ++ io2 -> ~ In false c1 ->
  (exists c2, io2 = c2 ++ io3 /\
     (ok = true /\ ~ In false c2 \/ ok = false /\ exists c0, c2 = c0 ++ [false] /\ ~ In false c0)) ->
  exists c, io1 = c ++ io3 /\
    (ok = true /\ ~ In false c \/ ok = false /\ exists c0, c = c0 ++ [false] /\ ~ In false c0).
Proof.
  intros -> H1 (c2 & -> & H2). exists (c1 ++ c2). split; [now rewrite app_assoc|].
  destruct H2 as [[-> H2]|[-> (c0 & -> & H0)]].
  - left. split; [reflexivity|]. rewrite in_app_iff. tauto.
  - right. split; [reflexivity|]. exists (c1 ++ c0). split; [now rewrite app_assoc|].
    rewrite in_app_iff. tauto.
Qed.

Lemma consumed_stop (io1 io2 c1 : list bool) :
  io1 = c1 ++ io2 -> (exists c0, c1 = c0 ++ [false] /\ ~ In false c0) ->
  exists c, io1 = c ++ io2 /\
    (false = true /\ ~ In false c \/ false = false /\ exists c0, c = c0 ++ [false] /\ ~ In false c0).
Proof. intros -> H. exists c1. split; [reflexivity|]. right. split; [reflexivity|exact H]. Qed.

Lemma consumed_none (io : list bool) :
  exists c, io = c ++ io /\
    (true = true /\ ~ In false c \/ true = false /\ exists c0, c = c0 ++ [false] /\ ~ In false c0).
Proof. exists []. split; [reflexivity|]. left. simpl. tauto. Qed.

(** The transfer loop consumes commit outcomes until the first failure. *)
Lemma wb_transfers_consumed (pts : list PendingTransfer) (d : DB) :
  exists c, db_io d = c ++ db_io (snd (wb_transfers d pts)) /\
    (fst (wb_transfers d pts) = true /\ ~ In false c \/
     fst (wb_transfers d pts) = false /\ exists c0, c = c0 ++ [false] /\ ~ In false c0).
Proof.
  revert d. induction pts as [|p pts IH]; intros d; simpl; [apply consumed_none|].
  destruct (ReadPoint (db_store d) (pt_origin p)) as [record|]; [|apply IH].
  unfold WriteRecord, UpdateOwnerIndex, WriteTransfer.
  match goal with |- context [WriteBatch d ?b] => pose proof (WriteBatch_consumed d b) as C1;
    destruct (WriteBatch d b) as [ok1 d1] end.
  simpl in C1. destruct C1 as (c1 & E1 & [[-> N1]|[-> S1]]); [|simpl; exact (consumed_stop _ _ _ E1 S1)].
  simpl. apply (consumed_seq _ _ _ c1 _ E1 N1).
  match goal with |- context [WriteBatch d1 ?b] => pose proof (WriteBatch_consumed d1 b) as C2;
    destruct (WriteBatch d1 b) as [ok2 d2] end.
  simpl in C2. destruct C2 as (c2 & E2 & [[-> N2]|[-> S2]]); [|simpl; exact (consumed_stop _ _ _ E2 S2)].
  simpl. apply (consumed_seq _ _ _ c2 _ E2 N2).
  match goal with |- context [WriteBatch d2 ?b] => pose proof (WriteBatch_consumed d2 b) as C3;
    destruct (WriteBatch d2 b) as [ok3 d3] end.
  simpl in C3. destruct C3 as (c3 & E3 & [[-> N3]|[-> S3]]); [|simpl; exact (consumed_stop _ _ _ E3 S3)].
  simpl. apply (consumed_seq _ _ _ c3 _ E3 N3). apply IH.
Qed.

(** C2 (as stated): a [false] result of [WriteBlock] leaves the store as it
    was. A block creating point 50 and transferring point 10 is written on
    a store whose first commit (the creations) succeeds and whose second
    (the transfer's record) fails: [WriteBlock] returns [false] and point 50
    is in the store. *)
Lemma C2_partial_write_counterexample :
  let d := {| db_store := db_store Fixtures.db_h5; db_io := [true; false] |} in
  let block := [Fixtures.coinbase 256; Fixtures.creation_tx 50 "dave"; Fixtures.transfer_tx 20 10 "bob"] in
  let pindex := {| nHeight := 256;
                   undo_data := Some [[Fixtures.PayTo "funder"]; [Fixtures.PayTo "alice"]] |} in
  fst (WriteBlock d block pindex) = false /\
  ReadPoint (db_store d) 50 = None /\
  option_map current_owner (ReadPoint (db_store (snd (WriteBlock d block pindex))) 50) = Some "dave"%string.
Proof. repeat split; vm_compute; reflexivity. Qed.

(** C2 (amended): [WriteBlock] leaves the store unchanged when it fails for
    missing undo data or because the batch of the block's creations fails;
    once that batch has committed, the block's new points stay in the store
    with their height-index entries, whatever the later record, owner-index
    and transfer commits do. Each commit is atomic; the call consumes commit
    outcomes in order and returns [true] exactly when none of them failed,
    stopping right after the first failed one without rolling back the
    earlier ones. *)
Theorem C2_write_block_failure `{SL : ScriptLib} (d : DB) (block : list CTransaction)
    (pindex : CBlockIndex) :
  match wb_scan (db_store d) (nHeight pindex) (undo_data pindex) block 0 ([], []) with
  | None => WriteBlock d block pindex = (false, d)
  | Some (pp, pts) =>
      (fst (WritePoints d (pp_in_order pp)) = false ->
         fst (WriteBlock d block pindex) = false /\
         db_store (snd (WriteBlock d block pindex)) = db_store d) /\
      (fst (WritePoints d (pp_in_order pp)) = true ->
         forall t r, In (t, r) pp ->
           has_key (KPoint t) (db_store (snd (WriteBlock d block pindex))) /\
           has_key (KHeight (height r) t) (db_store (snd (WriteBlock d block pindex)))) /\
      (exists c, db_io d = c ++ db_io (snd (WriteBlock d block pindex)) /\
         (fst (WriteBlock d block pindex) = true /\ ~ In false c \/
          fst (WriteBlock d block pindex) = false /\ exists c0, c = c0 ++ [false] /\ ~ In false c0))
  end.
Proof.
  unfold WriteBlock.
  destruct (wb_scan _ _ _ _ _ _) as [[pp pts]|]; [|reflexivity].
  assert (Hpp : (match pp with [] => (true, d) | _ :: _ => WritePoints d (pp_in_order pp) end)
                = WritePoints d (pp_in_order pp)) by (destruct pp; reflexivity).
  rewrite Hpp.
  assert (Cw : exists c, db_io d = c ++ db_io (snd (WritePoints d (pp_in_order pp))) /\
     (fst (WritePoints d (pp_in_order pp)) = true /\ ~ In false c \/
      fst (WritePoints d (pp_in_order pp)) = false /\ exists c0, c = c0 ++ [false] /\ ~ In false c0)).
  { unfold WritePoints. destruct (pp_in_order pp); [apply consumed_none|apply WriteBatch_consumed]. }
  destruct (WritePoints d (pp_in_order pp)) as [ok d1] eqn:Ew.
  split; [|split].
  - simpl. intros ->. split; [reflexivity|].
    unfold WritePoints in Ew. destruct (pp_in_order pp); [discriminate|].
    simpl. now apply WriteBatch_false in Ew.
  - simpl. intros -> t r Hin. simpl.
    apply In_pp_in_order in Hin.
    unfold WritePoints in Ew. destruct (pp_in_order pp) as [|e recs]; [destruct Hin|].
    apply WriteBatch_true in Ew.
    split; (apply wb_transfers_keeps; [intros o t'; discriminate|]); rewrite Ew.
    + exact (point_ops_point _ _ t r Hin).
    + now apply point_ops_height.
  - simpl in Cw. destruct Cw as (c1 & E1 & [[-> N1]|[-> S1]]).
    + simpl. apply (consumed_seq _ _ _ c1 _ E1 N1). apply wb_transfers_consumed.
    + simpl. exact (consumed_stop _ _ _ E1 S1).
Qed.

End WriteBlockFacts.

(* ------------------------------------------------------------------ *)
(** ** Consistency of the secondary indexes *)

Module IndexInvariant.
Import MapPointIndex StoreFacts WriteBlockFacts.

Lemma consistent_ext (s s' : store) :
  (forall k, ~ aux_key k -> db_read k s' = db_read k s) ->
  indexes_consistent s -> indexes_consistent s'.
Proof.
  intros E [H1 H2]. unfold indexes_consistent, ReadPoint, has_key in *.
  rewrite ?E by (simpl; tauto).
  split.
  - intros t r Hr. rewrite E in Hr by (simpl; tauto).
    rewrite !E by (simpl; tauto). now apply H1.
  - intros t. rewrite E by (simpl; tauto). apply H2.
Qed.

Lemma aux_batch (s : store) (b : list batch_op) :
  (forall op, In op b -> aux_key (op_key op)) ->
  forall k, ~ aux_key k -> db_read k (apply_batch s b) = db_read k s.
Proof.
  intros Hb k Hk. apply apply_batch_other. intros op Hop E. apply Hk. rewrite <- E. now apply Hb.
Qed.

Lemma aux_WriteBatch (d d' : DB) (b : list batch_op) (ok : bool) :
  (forall op, In op b -> aux_key (op_key op)) ->
  WriteBatch d b = (ok, d') ->
  indexes_consistent (db_store d) -> indexes_consistent (db_store d').
Proof.
  intros Hb E. destruct ok.
  - apply WriteBatch_true in E. rewrite E. apply consistent_ext. now apply aux_batch.
  - apply WriteBatch_false in E. now rewrite E.
Qed.

(** *** Erase-only batches *)

Lemma erase_only_none (k : dbkey) (s : store) (b : list batch_op) :
  erase_only b -> db_read k s = None -> db_read k (apply_batch s b) = None.
Proof.
  revert s. induction b as [|op b IH]; intros s Hb Hk; [exact Hk|].
  rewrite apply_batch_cons. apply IH; [intros op' H; apply Hb; now right|].
  destruct (Hb op (or_introl eq_refl)) as [k' ->]. unfold apply_op.
  rewrite db_read_erase. destruct (dbkey_eqb k k'); [reflexivity | exact Hk].
Qed.

Lemma erase_only_in (k : dbkey) (s : store) (b : list batch_op) :
  erase_only b -> In (BErase k) b -> db_read k (apply_batch s b) = None.
Proof.
  revert s. induction b as [|op b IH]; intros s Hb Hin; [destruct Hin|].
  rewrite apply_batch_cons. destruct Hin as [->|Hin].
  - apply erase_only_none; [intros op' H; apply Hb; now right|].
    unfold apply_op. rewrite db_read_erase, (proj2 (dbkey_eqb_eq _ _) eq_refl). reflexivity.
  - apply IH; [intros op' H; apply Hb; now right | exact Hin].
Qed.

Lemma erase_only_notin (k : dbkey) (s : store) (b : list batch_op) :
  erase_only b -> ~ In (BErase k) b -> db_read k (apply_batch s b) = db_read k s.
Proof.
  intros Hb Hin. apply apply_batch_other. intros op Hop E.
  destruct (Hb op Hop) as [k' ->]. simpl in E. subst. contradiction.
Qed.

(** *** The batch of [ErasePointsAboveHeight] *)

Lemma erase_points_walk_props (s : store) (cur : store) :
  let ops := fst (erase_points_walk s cur) in
  erase_only ops /\
  (forall h t, In (BErase (KHeight h t)) ops -> ReadPoint s t = None \/ In (BErase (KPoint t)) ops) /\
  (forall o t, In (BErase (KOwner o t)) ops -> In (BErase (KPoint t)) ops).
Proof.
  induction cur as [|[k v] cur IH]; simpl.
  - split; [intros op []|]. split; intros; contradiction.
  - destruct k as [t|h t|o t|o t|h o t|]; simpl;
      try (split; [intros op []|]; split; intros; contradiction).
    destruct (erase_points_walk s cur) as [ops removed]. simpl in IH.
    destruct IH as (IH1 & IH2 & IH3).
    destruct (ReadPoint s t) as [record|] eqn:Er; simpl.
    + assert (Hown : forall op, In op (if String.eqb (current_owner record) "" then []
                                       else [BErase (KOwner (current_owner record) t)]) ->
                                op = BErase (KOwner (current_owner record) t)).
      { intros op. destruct (String.eqb _ _); simpl; [tauto | intros [<-|[]]; reflexivity]. }
      split; [|split].
      * intros op [<-|Hop]; [eauto|]. apply in_app_iff in Hop.
        destruct Hop as [Hop|[<-|Hop]]; [rewrite (Hown _ Hop); eauto | eauto | now apply IH1].
      * intros h' t' [E|Hop]; [discriminate|]. apply in_app_iff in Hop.
        destruct Hop as [Hop|[E|Hop]].
        -- apply Hown in Hop. discriminate.
        -- injection E as <- <-. right. now left.
        -- destruct (IH2 h' t' Hop) as [H|H]; [now left | right; right; apply in_app_iff; right; now right].
      * intros o' t' [E|Hop]; [discriminate|]. apply in_app_iff in Hop.
        destruct Hop as [Hop|[E|Hop]].
        -- apply Hown in Hop. injection Hop as _ <-. now left.
        -- discriminate.
        -- right. apply in_app_iff. right. right. now apply (IH3 o').
    + split; [|split].
      * intros op [<-|Hop]; [eauto | now apply IH1].
      * intros h' t' [E|Hop].
        -- injection E as <- <-. now left.
        -- destruct (IH2 h' t' Hop) as [H|H]; [now left | right; now right].
      * intros o' t' [E|Hop]; [discriminate|]. right. now apply (IH3 o').
Qed.

Lemma erase_points_consistent (s : store) (cur : store) :
  indexes_consistent s -> indexes_consistent (apply_batch s (fst (erase_points_walk s cur))).
Proof.
  destruct (erase_points_walk_props s cur) as (P1 & P2 & P3).
  set (ops := fst (erase_points_walk s cur)) in *.
  intros [H1 H2]. split.
  - intros t r Hr.
    assert (Hp : ~ In (BErase (KPoint t)) ops).
    { intros Hin. unfold ReadPoint in Hr. rewrite (erase_only_in _ _ _ P1 Hin) in Hr. discriminate. }
    assert (Hr0 : ReadPoint s t = Some r).
    { unfold ReadPoint in *. now rewrite (erase_only_notin _ _ _ P1 Hp) in Hr. }
    destruct (H1 t r Hr0) as [Hh Ho]. unfold has_key in *.
    split.
    + rewrite erase_only_notin; [exact Hh | exact P1|].
      intros Hin. destruct (P2 _ _ Hin) as [E|E]; [congruence | contradiction].
    + intros Hne. rewrite erase_only_notin; [now apply Ho | exact P1|].
      intros Hin. apply Hp. now apply (P3 (current_owner r)).
  - intros t. unfold has_key. intros Hk. apply (H2 t). unfold has_key.
    intros Hn. apply Hk. now apply erase_only_none.
Qed.

(** *** Record and owner-index updates *)

Lemma owner_index_ops_keys (o n : string) (t : Z) (op : batch_op) :
  In op (owner_index_ops o n t) ->
  (op = BErase (KOwner o t) /\ o <> ""%string) \/ (op = BWrite (KOwner n t) VFlag /\ n <> ""%string).
Proof.
  unfold owner_index_ops. intros Hin.
  destruct (String.eqb o "") eqn:Eo, (String.eqb n "") eqn:En; simpl in Hin;
    apply String.eqb_neq in Eo || apply String.eqb_eq in Eo;
    apply String.eqb_neq in En || apply String.eqb_eq in En;
    repeat (destruct Hin as [<-|Hin]; [first [left; now split | right; now split]|]);
    contradiction.
Qed.

Lemma owner_index_ops_new (s : store) (o n : string) (t : Z) :
  n <> ""%string -> db_read (KOwner n t) (apply_batch s (owner_index_ops o n t)) = Some VFlag.
Proof.
  intros Hn. unfold owner_index_ops.
  apply String.eqb_neq in Hn. rewrite Hn.
  replace ((if String.eqb o "" then [] else [BErase (KOwner o t)]) ++ [BWrite (KOwner n t) VFlag])
    with ((if String.eqb o "" then [] else [BErase (KOwner o t)]) ++ BWrite (KOwner n t) VFlag :: [])
    by reflexivity.
  apply apply_batch_written. intros op [].
Qed.

Lemma owner_update_consistent (s : store) (t : Z) (r : PointRecord) (n : string) :
  indexes_consistent s -> ReadPoint s t = Some r ->
  indexes_consistent
    (apply_batch (apply_batch s [BWrite (KPoint t) (VPoint (set_current_owner r n))])
                 (owner_index_ops (current_owner r) n t)).
Proof.
  intros [H1 H2] Hr.
  set (s1 := apply_batch s [BWrite (KPoint t) (VPoint (set_current_owner r n))]).
  set (s2 := apply_batch s1 (owner_index_ops (current_owner r) n t)).
  assert (F1 : forall k, (forall o, k <> KOwner o t) -> db_read k s2 = db_read k s1).
  { intros k Hk. apply apply_batch_other. intros op Hop E.
    destruct (owner_index_ops_keys _ _ _ _ Hop) as [[-> _]|[-> _]]; simpl in E; subst; eapply Hk; eauto. }
  assert (F2 : forall k, k <> KPoint t -> db_read k s1 = db_read k s).
  { intros k Hk. apply apply_batch_other. intros op [<-|[]] E. simpl in E. congruence. }
  assert (F3 : db_read (KPoint t) s1 = Some (VPoint (set_current_owner r n))).
  { apply (apply_batch_written _ _ s [] []). intros op []. }
  assert (F5 : forall t', db_read (KOwner "" t') s2 = db_read (KOwner "" t') s).
  { intros t'. unfold s2. rewrite apply_batch_other.
    - apply F2. discriminate.
    - intros op Hop E. destruct (owner_index_ops_keys _ _ _ _ Hop) as [[-> Hne]|[-> Hne]];
        simpl in E; injection E as E _; apply Hne; exact E. }
  split.
  - intros t' r' Hr'. unfold ReadPoint in Hr'.
    rewrite F1 in Hr' by discriminate.
    destruct (Z.eq_dec t' t) as [->|Hne].
    + rewrite F3 in Hr'. injection Hr' as <-. simpl.
      destruct (H1 t r Hr) as [Hh _]. unfold has_key in *.
      split.
      * rewrite F1 by discriminate. rewrite F2 by discriminate. exact Hh.
      * intros Hn. unfold s2. rewrite owner_index_ops_new by exact Hn. discriminate.
    + rewrite F2 in Hr' by congruence.
      destruct (H1 t' r' Hr') as [Hh Ho]. unfold has_key in *.
      split.
      * rewrite F1 by discriminate. rewrite F2 by discriminate. exact Hh.
      * intros Hn. rewrite F1 by congruence. rewrite F2 by discriminate. now apply Ho.
  - intros t'. unfold has_key. rewrite F5. apply H2.
Qed.

(** *** The batch of [WritePoints] *)

Lemma point_ops_consistent (s : store) (t : Z) (r : PointRecord) :
  indexes_consistent s -> indexes_consistent (apply_batch s (point_ops (t, r))).
Proof.
  intros [H1 H2].
  set (own := if String.eqb (current_owner r) "" then [] else [BWrite (KOwner (current_owner r) t) VFlag]).
  assert (Eops : point_ops (t, r) =
                 [BWrite (KPoint t) (VPoint r); BWrite (KHeight (height r) t) VFlag] ++ own) by reflexivity.
  assert (Hown : forall op, In op own -> op = BWrite (KOwner (current_owner r) t) VFlag /\ current_owner r <> ""%string).
  { intros op. unfold own. destruct (String.eqb (current_owner r) "") eqn:E; simpl; [tauto|].
    apply String.eqb_neq in E. intros [<-|[]]. auto. }
  assert (Hnoerase : forall k op, In op (point_ops (t, r)) -> op <> BErase k).
  { intros k op Hop. destruct (point_ops_writes [(t, r)] op) as (k' & v & ->);
      [simpl; now rewrite app_nil_r | discriminate]. }
  assert (Ept : db_read (KPoint t) (apply_batch s (point_ops (t, r))) = Some (VPoint r)).
  { rewrite Eops. change ([BWrite (KPoint t) (VPoint r); BWrite (KHeight (height r) t) VFlag] ++ own)
      with ([] ++ BWrite (KPoint t) (VPoint r) :: (BWrite (KHeight (height r) t) VFlag :: own)).
    apply apply_batch_written. intros op [<-|Hop]; [discriminate|].
    destruct (Hown op Hop) as [-> _]. discriminate. }
  assert (Eh : db_read (KHeight (height r) t) (apply_batch s (point_ops (t, r))) = Some VFlag).
  { rewrite Eops. change ([BWrite (KPoint t) (VPoint r); BWrite (KHeight (height r) t) VFlag] ++ own)
      with ([BWrite (KPoint t) (VPoint r)] ++ BWrite (KHeight (height r) t) VFlag :: own).
    apply apply_batch_written. intros op Hop. destruct (Hown op Hop) as [-> _]. discriminate. }
  split.
  - intros t' r' Hr'. unfold ReadPoint in Hr'.
    destruct (Z.eq_dec t' t) as [->|Hne].
    + rewrite Ept in Hr'. injection Hr' as <-.
      unfold has_key. split.
      * rewrite Eh. discriminate.
      * intros Hn. rewrite Eops. unfold own. apply String.eqb_neq in Hn. rewrite Hn.
        rewrite (apply_batch_written _ _ s [BWrite (KPoint t) (VPoint r); BWrite (KHeight (height r) t) VFlag] []).
        -- discriminate.
        -- intros op [].
    + rewrite apply_batch_other in Hr'.
      2:{ rewrite Eops. intros op Hop E. apply in_app_iff in Hop.
          destruct Hop as [[<-|[<-|[]]]|Hop]; [simpl in E; congruence | discriminate |].
          destruct (Hown op Hop) as [-> _]. discriminate. }
      destruct (H1 t' r' Hr') as [Hh Ho]. split.
      * apply apply_batch_keeps; [|exact Hh]. intros op Hop. now apply Hnoerase.
      * intros Hn. apply apply_batch_keeps; [|now apply Ho]. intros op Hop. now apply Hnoerase.
  - intros t'. unfold has_key. rewrite apply_batch_other; [apply H2|].
    rewrite Eops. intros op Hop E. apply in_app_iff in Hop.
    destruct Hop as [[<-|[<-|[]]]|Hop]; [discriminate | discriminate |].
    destruct (Hown op Hop) as [-> Hne]. injection E as E _. now apply Hne.
Qed.

Lemma points_batch_consistent (s : store) (recs : list (Z * PointRecord)) :
  indexes_consistent s -> indexes_consistent (apply_batch s (flat_map point_ops recs)).
Proof.
  revert s. induction recs as [|[t r] recs IH]; intros s Hs; [exact Hs|].
  change (flat_map point_ops ((t, r) :: recs)) with (point_ops (t, r) ++ flat_map point_ops recs).
  rewrite apply_batch_app. apply IH. now apply point_ops_consistent.
Qed.

(** *** Commits *)

Lemma WriteBatch_consistent (d d' : DB) (b : list batch_op) (ok : bool) :
  WriteBatch d b = (ok, d') ->
  (indexes_consistent (db_store d) -> indexes_consistent (apply_batch (db_store d) b)) ->
  indexes_consistent (db_store d) -> indexes_consistent (db_store d').
Proof.
  intros E Hb Hs. destruct ok.
  - apply WriteBatch_true in E. rewrite E. now apply Hb.
  - apply WriteBatch_false in E. now rewrite E.
Qed.

Lemma aux_consistent (s : store) (b : list batch_op) :
  (forall op, In op b -> aux_key (op_key op)) ->
  indexes_consistent s -> indexes_consistent (apply_batch s b).
Proof. intros Hb. apply consistent_ext. now apply aux_batch. Qed.

(** The record write followed by the owner-index update, both committed. *)
Lemma owner_pair_consistent (d d1 d2 : DB) (t : Z) (r : PointRecord) (n : string) :
  indexes_consistent (db_store d) -> ReadPoint (db_store d) t = Some r ->
  WriteRecord d t (set_current_owner r n) = (true, d1) ->
  UpdateOwnerIndex d1 (current_owner r) n t = (true, d2) ->
  indexes_consistent (db_store d2).
Proof.
  unfold WriteRecord, UpdateOwnerIndex. intros Hs Hr E1 E2.
  apply WriteBatch_true in E1. apply WriteBatch_true in E2.
  rewrite E2, E1. now apply owner_update_consistent.
Qed.

Lemma wb_transfers_consistent (pts : list PendingTransfer) (d d' : DB) :
  indexes_consistent (db_store d) -> wb_transfers d pts = (true, d') ->
  indexes_consistent (db_store d').
Proof.
  revert d. induction pts as [|p pts IH]; intros d Hs E; simpl in E.
  - injection E as <-. exact Hs.
  - destruct (ReadPoint (db_store d) (pt_origin p)) as [record|] eqn:Er; [|now apply (IH d)].
    destruct (WriteRecord d _ _) as [ok1 d1] eqn:E1.
    destruct ok1; [|discriminate]. simpl in E.
    destruct (UpdateOwnerIndex d1 _ _ _) as [ok2 d2] eqn:E2.
    destruct ok2; [|discriminate]. simpl in E.
    destruct (WriteTransfer d2 _ _ _) as [ok3 d3] eqn:E3.
    destruct ok3; [|discriminate]. simpl in E.
    apply (IH d3); [|exact E].
    unfold WriteTransfer in E3. apply WriteBatch_true in E3. rewrite E3.
    apply aux_consistent; [intros op [<-|[<-|[]]]; exact I|].
    eapply owner_pair_consistent; eauto.
Qed.

Lemma apply_owner_updates_consistent (updates : list (Z * string)) (d d' : DB) :
  indexes_consistent (db_store d) -> apply_owner_updates d updates = (true, d') ->
  indexes_consistent (db_store d').
Proof.
  revert d. induction updates as [|[origin prev] updates IH]; intros d Hs E; simpl in E.
  - injection E as <-. exact Hs.
  - destruct (ReadPoint (db_store d) origin) as [record|] eqn:Er; [|now apply (IH d)].
    destruct (WriteRecord d _ _) as [ok1 d1] eqn:E1.
    destruct ok1; [|discriminate]. simpl in E.
    destruct (UpdateOwnerIndex d1 _ _ _) as [ok2 d2] eqn:E2.
    destruct ok2; [|discriminate]. simpl in E.
    apply (IH d2); [|exact E]. eapply owner_pair_consistent; eauto.
Qed.

(** *** The transfer batches of [Rewind] *)

Lemma remove_transfers_walk_aux (s : store) (h : Z) (cur : store) :
  forall op, In op (fst (remove_transfers_walk s h cur)) -> aux_key (op_key op).
Proof.
  induction cur as [|[k v] cur IH]; simpl; [tauto|].
  destruct k; simpl; try tauto.
  destruct (height0 <=? h); simpl; [tauto|].
  destruct (remove_transfers_walk s h cur) as [ops updates]. simpl in IH.
  destruct (read_transfer s origin transfer); simpl;
    intros op Hop; repeat (destruct Hop as [<-|Hop]; [exact I|]); now apply IH.
Qed.

Lemma remove_origin_walk_aux (origin : Z) (cur : store) :
  forall op, In op (remove_origin_walk origin cur) -> aux_key (op_key op).
Proof.
  induction cur as [|[k v] cur IH]; simpl; [tauto|].
  destruct k; simpl; try tauto.
  destruct (negb (origin0 =? origin)); simpl; [tauto|].
  intros op Hop. apply in_app_iff in Hop. destruct Hop as [Hop|[<-|Hop]].
  - destruct v; simpl in Hop; try tauto. destruct Hop as [<-|[]]. exact I.
  - exact I.
  - now apply IH.
Qed.

Lemma remove_all_transfers_consistent (origins : list Z) (d d' : DB) :
  indexes_consistent (db_store d) -> remove_all_transfers d origins = (true, d') ->
  indexes_consistent (db_store d').
Proof.
  revert d. induction origins as [|o origins IH]; intros d Hs E; simpl in E.
  - injection E as <-. exact Hs.
  - destruct (RemoveAllTransfersForOrigin d o) as [ok d1] eqn:E1.
    destruct ok; [|discriminate]. simpl in E. apply (IH d1); [|exact E].
    unfold RemoveAllTransfersForOrigin in E1.
    eapply WriteBatch_consistent; [exact E1| |exact Hs].
    apply aux_consistent. apply remove_origin_walk_aux.
Qed.

Section Blocks.
Context {SL : ScriptLib}.

Lemma WriteBlock_consistent (d d' : DB) (block : list CTransaction) (pindex : CBlockIndex) :
  indexes_consistent (db_store d) -> WriteBlock d block pindex = (true, d') ->
  indexes_consistent (db_store d').
Proof.
  intros Hs E. unfold WriteBlock in E.
  destruct (wb_scan _ _ _ _ _ _) as [[pp pts]|]; [|discriminate].
  destruct (match pp with [] => (true, d) | _ => WritePoints d (pp_in_order pp) end)
    as [ok d1] eqn:E1.
  destruct ok; [|discriminate]. simpl in E.
  apply (wb_transfers_consistent pts d1); [|exact E].
  destruct pp as [|e pp]; [injection E1 as <-; exact Hs|].
  unfold WritePoints in E1. destruct (pp_in_order (e :: pp)) as [|x l]; [injection E1 as <-; exact Hs|].
  eapply WriteBatch_consistent; [exact E1| |exact Hs]. apply points_batch_consistent.
Qed.

End Blocks.

Lemma Rewind_consistent (d d' : DB) (current_tip new_tip : Z) :
  indexes_consistent (db_store d) -> Rewind d current_tip new_tip = (true, d') ->
  indexes_consistent (db_store d').
Proof.
  intros Hs E. unfold Rewind in E.
  destruct (RemoveTransfersAboveHeight d new_tip) as [[ok1 d1] ups] eqn:E1.
  destruct ok1; [|discriminate]. simpl in E.
  assert (H1 : indexes_consistent (db_store d1)).
  { unfold RemoveTransfersAboveHeight in E1.
    pose proof (remove_transfers_walk_aux (db_store d) new_tip
                  (seek (db_store d) (KTransferHeight (u32 (new_tip + 1)) 0 0))) as A.
    destruct (remove_transfers_walk _ _ _) as [ops updates].
    destruct (WriteBatch d ops) as [ok d1'] eqn:Eb. injection E1 as -> <- _.
    eapply WriteBatch_consistent; [exact Eb| |exact Hs]. now apply aux_consistent. }
  destruct (apply_owner_updates d1 ups) as [ok2 d2] eqn:E2.
  destruct ok2; [|discriminate]. simpl in E.
  assert (H2 : indexes_consistent (db_store d2)) by (eapply apply_owner_updates_consistent; eauto).
  destruct (ErasePointsAboveHeight d2 new_tip) as [[ok3 d3] removed] eqn:E3.
  destruct ok3; [|discriminate]. simpl in E.
  assert (H3 : indexes_consistent (db_store d3)).
  { unfold ErasePointsAboveHeight in E3.
    pose proof (erase_points_consistent (db_store d2)
                  (seek (db_store d2) (KHeight (u32 (new_tip + 1)) 0)) H2) as A.
    destruct (erase_points_walk _ _) as [ops rem].
    destruct (WriteBatch d2 ops) as [ok d3'] eqn:Eb. injection E3 as -> <- _.
    eapply WriteBatch_consistent; [exact Eb| |exact H2]. intros _. exact A. }
  destruct (remove_all_transfers d3 removed) as [ok4 d4] eqn:E4.
  destruct ok4; [|discriminate]. simpl in E.
  assert (H4 : indexes_consistent (db_store d4)) by (eapply remove_all_transfers_consistent; eauto).
  unfold BaseIndex_Rewind in E.
  eapply WriteBatch_consistent; [exact E| |exact H4].
  apply aux_consistent. intros op [<-|[]]. exact I.
Qed.

Lemma empty_consistent : indexes_consistent [].
Proof. split; [intros t r H; discriminate H | intros t H; apply H; reflexivity]. Qed.

(** C9: a successful [WriteBlock] and a successful [Rewind] keep the
    secondary indexes consistent: when every persisted record of the store
    had its height-index entry, had an owner-index entry under its current
    owner when that owner is non-empty, and no owner-index entry had the
    empty owner, the same holds of the store they leave. *)
Theorem C9_indexes_consistent `{SL : ScriptLib} :
  (forall (d d' : DB) (block : list CTransaction) (pindex : CBlockIndex),
     indexes_consistent (db_store d) -> WriteBlock d block pindex = (true, d') ->
     indexes_consistent (db_store d')) /\
  (forall (d d' : DB) (current_tip new_tip : Z),
     indexes_consistent (db_store d) -> Rewind d current_tip new_tip = (true, d') ->
     indexes_consistent (db_store d')).
Proof.
  split.
  - intros d d' block pindex. apply WriteBlock_consistent.
  - intros d d' current_tip new_tip. apply Rewind_consistent.
Qed.

Import Fixtures.

Lemma C9_indexes_consistent_witness :
  indexes_consistent (db_store db_h5) /\ indexes_consistent (db_store db_h256) /\
  indexes_consistent (db_store db_rewound).
Proof.
  assert (H5 : indexes_consistent (db_store db_h5)).
  { apply (proj1 (C9_indexes_consistent (SL := TestScripts)) empty_db db_h5 block5 index5).
    - exact empty_consistent.
    - vm_compute. reflexivity. }
  assert (H256 : indexes_consistent (db_store db_h256)).
  { apply (proj1 (C9_indexes_consistent (SL := TestScripts)) db_h5 db_h256 block256 index256).
    - exact H5.
    - vm_compute. reflexivity. }
  split; [exact H5|]. split; [exact H256|].
  apply (proj2 (C9_indexes_consistent (SL := TestScripts)) db_h256 db_rewound 256 10).
  - exact H256.
  - vm_compute. reflexivity.
Defined.

End IndexInvariant.

(* ------------------------------------------------------------------ *)
(** ** Erased proposals *)

Module GovLifecycle.
Import Governance InventoryFacts.

(** *** Maps *)

Lemma mem_In {V} (k : Z) (l : list (Z * V)) : mem k l = true <-> In k (map fst l).
Proof.
  induction l as [|[k' v] l IH]; unfold mem in *; simpl; [split; [discriminate | tauto]|].
  destruct (Z.eqb_spec k k') as [->|Hne]; [split; auto|].
  rewrite IH. split; [auto|]. intros [->|H]; [congruence | exact H].
Qed.

Lemma mem_false {V} (k : Z) (l : list (Z * V)) : mem k l = false <-> ~ In k (map fst l).
Proof. rewrite <- mem_In. destruct (mem k l); split; congruence. Qed.

Lemma mem_map_emplace {V} (k h : Z) (v : V) (l : list (Z * V)) :
  mem k (map_emplace h v l) = (k =? h) || mem k l.
Proof.
  unfold mem at 1. rewrite lookup_map_emplace.
  destruct (Z.eqb_spec k h) as [->|_]; [|reflexivity].
  destruct (lookup h l); reflexivity.
Qed.

Lemma map_emplace_keys {V} (h : Z) (v : V) (l : list (Z * V)) :
  NoDup (map fst l) -> NoDup (map fst (map_emplace h v l)).
Proof.
  intros Hl. unfold map_emplace. destruct (mem h l) eqn:E; [exact Hl|].
  rewrite map_app. simpl. apply NoDup_app; [exact Hl | constructor; [tauto | constructor] |].
  intros x Hx [<-|[]]. apply mem_false in E. contradiction.
Qed.

Lemma lookup_In {V} (k : Z) (v : V) (l : list (Z * V)) : lookup k l = Some v -> In (k, v) l.
Proof.
  induction l as [|[k' v'] l IH]; simpl; [discriminate|].
  destruct (Z.eqb_spec k k') as [->|_]; [intros [= ->]; now left | intros H; right; now apply IH].
Qed.

Lemma In_lookup {V} (k : Z) (v : V) (l : list (Z * V)) :
  NoDup (map fst l) -> In (k, v) l -> lookup k l = Some v.
Proof.
  induction l as [|[k' v'] l IH]; simpl; [tauto|]. intros Hl Hin. inversion Hl as [|? ? Hk Hl']; subst.
  destruct (Z.eqb_spec k k') as [->|Hne].
  - destruct Hin as [[= ->]|Hin]; [reflexivity|].
    exfalso. apply Hk. change k' with (fst (k', v)). now apply in_map.
  - destruct Hin as [[= -> ->]|Hin]; [congruence | now apply IH].
Qed.

Lemma lookup_filter {V} (p : Z * V -> bool) (k : Z) (v : V) (l : list (Z * V)) :
  lookup k l = Some v -> p (k, v) = true -> lookup k (filter p l) = Some v.
Proof.
  induction l as [|[k' v'] l IH]; simpl; [discriminate|].
  destruct (Z.eqb_spec k k') as [->|Hne].
  - intros [= ->] Hp. rewrite Hp. simpl. now rewrite Z.eqb_refl.
  - intros H Hp. destruct (p (k', v')); simpl; [|now apply IH].
    apply Z.eqb_neq in Hne. rewrite Hne. now apply IH.
Qed.

Lemma mem_filter {V} (p : Z * V -> bool) (k : Z) (l : list (Z * V)) :
  mem k (filter p l) = true -> mem k l = true.
Proof.
  rewrite !mem_In. intros H. apply in_map_iff in H. destruct H as ([k' v] & <- & H).
  apply filter_In in H. apply in_map_iff. exists (k', v). tauto.
Qed.

Lemma lookup_map_emplace_old {V} (k h : Z) (v v' : V) (l : list (Z * V)) :
  lookup k l = Some v -> lookup k (map_emplace h v' l) = Some v.
Proof.
  intros H. rewrite lookup_map_emplace. destruct (Z.eqb_spec k h) as [->|_]; [now rewrite H | exact H].
Qed.

Lemma map_values_keys {V} (f : V -> V) (l : list (Z * V)) :
  map fst (map (fun e => (fst e, f (snd e))) l) = map fst l.
Proof. rewrite map_map. reflexivity. Qed.

Lemma mem_map_values {V} (f : V -> V) (k : Z) (l : list (Z * V)) :
  mem k (map (fun e => (fst e, f (snd e))) l) = mem k l.
Proof.
  destruct (mem k l) eqn:E.
  - apply mem_In. rewrite map_values_keys. now apply mem_In.
  - apply mem_false. rewrite map_values_keys. now apply mem_false.
Qed.

(** *** The object loop of [CheckAndRemove] *)

Section Car.
Variables now cycle : Z.

Lemma car_sub (objs objs' : list (Z * CGovernanceObject)) (erased erased' votes votes' : list (Z * Z)) :
  car_objects now cycle objs erased votes = (objs', erased', votes') ->
  (forall k, In k (map fst objs') -> In k (map fst objs)) /\
  (NoDup (map fst objs) -> NoDup (map fst objs')).
Proof.
  revert erased votes objs' erased' votes'.
  induction objs as [|[h o] rest IH]; intros erased votes objs' erased' votes' E; simpl in E.
  - injection E as <- <- <-. simpl. split; [tauto | intros _; constructor].
  - destruct (_ && _).
    + destruct (IH _ _ _ _ _ E) as [H1 H2]. split.
      * intros k Hk. right. now apply H1.
      * intros Hn. inversion Hn. now apply H2.
    + destruct (car_objects now cycle rest erased votes) as [[o1 e1] v1] eqn:E1.
      injection E as <- <- <-. destruct (IH _ _ _ _ _ E1) as [H1 H2]. split.
      * intros k [<-|Hk]; [now left | right; now apply H1].
      * intros Hn. inversion Hn as [|? ? Hh Hr]. simpl. constructor; [|now apply H2].
        intros Hin. apply Hh. now apply H1.
Qed.

Lemma car_erased_new (objs objs' : list (Z * CGovernanceObject)) (erased erased' votes votes' : list (Z * Z)) :
  NoDup (map fst objs) ->
  car_objects now cycle objs erased votes = (objs', erased', votes') ->
  forall k, mem k erased' = true ->
  mem k erased = true \/ (In k (map fst objs) /\ ~ In k (map fst objs')).
Proof.
  revert erased votes objs' erased' votes'.
  induction objs as [|[h o] rest IH]; intros erased votes objs' erased' votes' Hn E k Hk; simpl in E.
  - injection E as <- <- <-. now left.
  - inversion Hn as [|? ? Hh Hr]. subst. destruct (_ && _).
    + destruct (IH _ _ _ _ _ Hr E k Hk) as [H|[H1 H2]].
      * rewrite mem_map_emplace in H. destruct (Z.eqb_spec k h) as [->|_]; [|now left].
        right. split; [now left|]. intros Hin. apply Hh. now apply (proj1 (car_sub _ _ _ _ _ _ E)).
      * right. split; [now right | exact H2].
    + destruct (car_objects now cycle rest erased votes) as [[o1 e1] v1] eqn:E1.
      injection E as <- <- <-.
      destruct (IH _ _ _ _ _ Hr E1 k Hk) as [H|[H1 H2]]; [now left|].
      right. split; [now right|]. intros [<-|H]; [contradiction | contradiction].
Qed.

Lemma car_erased_keep (objs objs' : list (Z * CGovernanceObject)) (erased erased' votes votes' : list (Z * Z))
    (k v : Z) :
  car_objects now cycle objs erased votes = (objs', erased', votes') ->
  lookup k erased = Some v -> lookup k erased' = Some v.
Proof.
  revert erased votes objs' erased' votes'.
  induction objs as [|[h o] rest IH]; intros erased votes objs' erased' votes' E Hk; simpl in E.
  - injection E as <- <- <-. exact Hk.
  - destruct (_ && _).
    + apply (IH _ _ _ _ _ E). now apply lookup_map_emplace_old.
    + destruct (car_objects now cycle rest erased votes) as [[o1 e1] v1] eqn:E1.
      injection E as <- <- <-. exact (IH _ _ _ _ _ E1 Hk).
Qed.

(** A proposal the loop removes is recorded with expiry [INT64_MAX]. *)
Lemma car_erase_proposal (objs objs' : list (Z * CGovernanceObject)) (erased erased' votes votes' : list (Z * Z))
    (h : Z) (o : CGovernanceObject) :
  NoDup (map fst objs) -> lookup h objs = Some o -> is_proposal o = true -> mem h erased = false ->
  car_objects now cycle objs erased votes = (objs', erased', votes') ->
  ~ In h (map fst objs') -> lookup h erased' = Some INT64_MAX.
Proof.
  revert erased votes objs' erased' votes'.
  induction objs as [|[h' o'] rest IH]; intros erased votes objs' erased' votes' Hn Ho Hp He E Hout;
    simpl in Ho, E; [discriminate|].
  inversion Hn as [|? ? Hh Hr]. subst.
  destruct (Z.eqb_spec h h') as [<-|Hne].
  - injection Ho as <-. destruct (_ && _).
    + apply (car_erased_keep _ _ _ _ _ _ _ _ E). rewrite Hp, lookup_map_emplace, Z.eqb_refl.
      unfold mem in He. destruct (lookup h erased); [discriminate | reflexivity].
    + destruct (car_objects now cycle rest erased votes) as [[o1 e1] v1].
      injection E as <- <- <-. exfalso. apply Hout. now left.
  - destruct (_ && _).
    + eapply (IH _ _ _ _ _ Hr Ho Hp); [|exact E|exact Hout].
      rewrite mem_map_emplace. apply Z.eqb_neq in Hne. now rewrite Hne.
    + destruct (car_objects now cycle rest erased votes) as [[o1 e1] v1] eqn:E1.
      injection E as <- <- <-. apply (IH _ _ _ _ _ Hr Ho Hp He E1).
      intros Hin. apply Hout. now right.
Qed.

End Car.

(** *** Adding objects *)

Lemma mem_snoc {V} (k h : Z) (v : V) (l : list (Z * V)) :
  mem k (l ++ [(h, v)]) = true -> mem k l = true \/ k = h.
Proof.
  rewrite !mem_In, map_app, in_app_iff. simpl. intuition.
Qed.

Lemma nodup_snoc {V} (h : Z) (v : V) (l : list (Z * V)) :
  NoDup (map fst l) -> mem h l = false -> NoDup (map fst (l ++ [(h, v)])).
Proof.
  intros Hl E. unfold map_emplace. 
  rewrite map_app. simpl. apply NoDup_app; [exact Hl | constructor; [tauto | constructor] |].
  intros x Hx [<-|[]]. apply mem_false in E. contradiction.
Qed.

Lemma add_props (govobj : CGovernanceObject) (valid tok : bool) (now : Z) (s : GovStore) :
  let s' := AddGovernanceObject govobj valid tok now s in
  mapPostponedObjects s' = mapPostponedObjects s /\
  mapErasedGovernanceObjects s' = mapErasedGovernanceObjects s /\
  (forall k, mem k (mapObjects s') = true -> mem k (mapObjects s) = true \/ k = go_hash govobj) /\
  (NoDup (map fst (mapObjects s)) -> NoDup (map fst (mapObjects s'))).
Proof.
  unfold AddGovernanceObject. destruct valid; simpl; [|auto].
  destruct (mem (go_hash govobj) (mapObjects s)) eqn:E; simpl; [auto|].
  split; [reflexivity|]. split; [reflexivity|]. split.
  - intros k. apply mem_snoc.
  - intros Hn. now apply nodup_snoc.
Qed.

(** *** The loop of [CheckPostponedObjects] *)

Section Cpo.
Variable verdict : CGovernanceObject -> PostponedVerdicts.
Variable now : Z.

Lemma cpo_erased (ps : list (Z * CGovernanceObject)) (s s' : GovStore) kept :
  cpo_loop verdict now ps s = (s', kept) ->
  mapErasedGovernanceObjects s' = mapErasedGovernanceObjects s.
Proof.
  revert s s' kept. induction ps as [|[h o] rest IH]; intros s s' kept E; simpl in E.
  - now injection E as <- _.
  - destruct (pv_collateral_valid (verdict o)).
    + rewrite (IH _ _ _ E). destruct (pv_valid (verdict o)); [|reflexivity].
      apply (add_props o _ _ now s).
    + destruct (pv_missing_confirmations (verdict o)); [|exact (IH _ _ _ E)].
      destruct (cpo_loop verdict now rest s) as [s1 k1] eqn:E1. injection E as <- _.
      exact (IH _ _ _ E1).
Qed.

Lemma cpo_kept (ps : list (Z * CGovernanceObject)) (s s' : GovStore) kept :
  cpo_loop verdict now ps s = (s', kept) ->
  (forall x, In x kept -> In x ps) /\ (NoDup (map fst ps) -> NoDup (map fst kept)).
Proof.
  revert s s' kept. induction ps as [|[h o] rest IH]; intros s s' kept E; simpl in E.
  - injection E as _ <-. split; [tauto | intros _; constructor].
  - assert (Hr : forall s0 s1 k1, cpo_loop verdict now rest s0 = (s1, k1) ->
                 (forall x, In x k1 -> In x ((h, o) :: rest)) /\
                 (NoDup (map fst ((h, o) :: rest)) -> NoDup (map fst k1))).
    { intros s0 s1 k1 E1. destruct (IH _ _ _ E1) as [H1 H2]. split.
      - intros x Hx. right. now apply H1.
      - intros Hn. inversion Hn. now apply H2. }
    destruct (pv_collateral_valid (verdict o)); [exact (Hr _ _ _ E)|].
    destruct (pv_missing_confirmations (verdict o)); [|exact (Hr _ _ _ E)].
    destruct (cpo_loop verdict now rest s) as [s1 k1] eqn:E1. injection E as <- <-.
    destruct (IH _ _ _ E1) as [H1 H2]. split.
    + intros x [<-|Hx]; [now left | right; now apply H1].
    + intros Hn. inversion Hn as [|? ? Hh Hrest]. simpl. constructor; [|now apply H2].
      intros Hin. apply Hh. apply in_map_iff in Hin. destruct Hin as (y & Ey & Hy).
      apply in_map_iff. exists y. split; [exact Ey | now apply H1].
Qed.

Lemma cpo_objects_nodup (ps : list (Z * CGovernanceObject)) (s s' : GovStore) kept :
  cpo_loop verdict now ps s = (s', kept) ->
  NoDup (map fst (mapObjects s)) -> NoDup (map fst (mapObjects s')).
Proof.
  revert s s' kept. induction ps as [|[h o] rest IH]; intros s s' kept E Hn; simpl in E.
  - now injection E as <- _.
  - destruct (pv_collateral_valid (verdict o)).
    + apply (IH _ _ _ E). destruct (pv_valid (verdict o)); [|exact Hn].
      now apply (add_props o _ _ now s).
    + destruct (pv_missing_confirmations (verdict o)); [|exact (IH _ _ _ E Hn)].
      destruct (cpo_loop verdict now rest s) as [s1 k1] eqn:E1. injection E as <- _.
      exact (IH _ _ _ E1 Hn).
Qed.

(** A hash the loop adds to the objects is the hash of a postponed entry
    that leaves the postponed map. *)
Lemma cpo_objects_new (ps : list (Z * CGovernanceObject)) (s s' : GovStore) kept :
  cpo_loop verdict now ps s = (s', kept) ->
  (forall h o, In (h, o) ps -> go_hash o = h) -> NoDup (map fst ps) ->
  forall k, mem k (mapObjects s') = true ->
  mem k (mapObjects s) = true \/ (In k (map fst ps) /\ ~ In k (map fst kept)).
Proof.
  revert s s' kept. induction ps as [|[h o] rest IH]; intros s s' kept E Hk Hn k Hm; simpl in E.
  - injection E as <- _. now left.
  - inversion Hn as [|? ? Hh Hr]. subst.
    assert (Hk' : forall h' o', In (h', o') rest -> go_hash o' = h') by (intros; apply Hk; now right).
    destruct (pv_collateral_valid (verdict o)).
    + set (s1 := if pv_valid (verdict o) then AddGovernanceObject o (pv_valid_on_add (verdict o))
                   (pv_trigger_ok (verdict o)) now s else s) in E.
      destruct (IH _ _ _ E Hk' Hr k Hm) as [H|[H1 H2]].
      * assert (Hs1 : mem k (mapObjects s) = true \/ k = h).
        { unfold s1 in H. destruct (pv_valid (verdict o)); [|now left].
          destruct (proj1 (proj2 (proj2 (add_props o _ _ now s))) k H) as [H'| ->]; [now left|].
          right. apply Hk. now left. }
        destruct Hs1 as [Hs1| ->]; [now left|]. right. split; [now left|].
        intros Hin. apply Hh. apply in_map_iff in Hin. destruct Hin as (x & Ex & Hx).
        apply in_map_iff. exists x. split; [exact Ex | exact (proj1 (cpo_kept _ _ _ _ E) x Hx)].
      * right. split; [now right | exact H2].
    + destruct (pv_missing_confirmations (verdict o)).
      * destruct (cpo_loop verdict now rest s) as [s1 k1] eqn:E1. injection E as <- <-.
        destruct (IH _ _ _ E1 Hk' Hr k Hm) as [H|[H1 H2]]; [now left|].
        right. split; [now right|]. intros [<-|H]; contradiction.
      * destruct (IH _ _ _ E Hk' Hr k Hm) as [H|[H1 H2]]; [now left|].
        right. split; [now right | exact H2].
Qed.

End Cpo.

(** *** Objects only leave the live map in [CheckAndRemove] *)

Lemma add_mono (govobj : CGovernanceObject) (valid tok : bool) (now k : Z) (s : GovStore) :
  mem k (mapObjects s) = true -> mem k (mapObjects (AddGovernanceObject govobj valid tok now s)) = true.
Proof.
  intros H. unfold AddGovernanceObject. destruct valid; simpl; [|exact H].
  destruct (mem (go_hash govobj) (mapObjects s)); simpl; [exact H|].
  apply mem_In. rewrite map_app, in_app_iff. left. now apply mem_In.
Qed.

Lemma cpo_mono verdict now (ps : list (Z * CGovernanceObject)) (s s' : GovStore) kept k :
  cpo_loop verdict now ps s = (s', kept) ->
  mem k (mapObjects s) = true -> mem k (mapObjects s') = true.
Proof.
  revert s s' kept. induction ps as [|[h o] rest IH]; intros s s' kept E Hk; simpl in E.
  - now injection E as <- _.
  - destruct (pv_collateral_valid (verdict o)).
    + apply (IH _ _ _ E). destruct (pv_valid (verdict o)); [now apply add_mono | exact Hk].
    + destruct (pv_missing_confirmations (verdict o)); [|exact (IH _ _ _ E Hk)].
      destruct (cpo_loop verdict now rest s) as [s1 k1] eqn:E1. injection E as <- _.
      exact (IH _ _ _ E1 Hk).
Qed.

(** The maps of [ProcessGovObj]: the store after [AcceptMessage], left
    alone, with an object postponed, or with an object added. *)
Lemma ProcessGovObj_cases (govobj : CGovernanceObject) (v : GovObjVerdicts) (s0 : GovStore) :
  let h := go_hash govobj in
  let s1 := ProcessGovObj govobj v s0 in
  (mapObjects s1 = mapObjects s0 /\ mapPostponedObjects s1 = mapPostponedObjects s0 /\
   mapErasedGovernanceObjects s1 = mapErasedGovernanceObjects s0) \/
  (mem h (mapObjects s0) = false /\ mem h (mapPostponedObjects s0) = false /\
   mem h (mapErasedGovernanceObjects s0) = false /\
   ((mapObjects s1 = mapObjects s0 /\ mapPostponedObjects s1 = map_emplace h govobj (mapPostponedObjects s0) /\
     mapErasedGovernanceObjects s1 = mapErasedGovernanceObjects s0) \/
    (exists valid tok now,
       mapObjects s1 = mapObjects (AddGovernanceObject govobj valid tok now s0) /\
       mapPostponedObjects s1 = mapPostponedObjects s0 /\
       mapErasedGovernanceObjects s1 = mapErasedGovernanceObjects s0))).
Proof.
  intros h s1. unfold s1, ProcessGovObj. fold h.
  destruct (negb (v_blockchain_synced v)); [now left|].
  unfold AcceptMessage. destruct (negb (mem h (m_requested_hash_time s0))); [now left|].
  cbv zeta. cbn [negb mapObjects mapPostponedObjects mapErasedGovernanceObjects mkStore].
  destruct (mem h (mapObjects s0)) eqn:E1; [now left|].
  destruct (mem h (mapPostponedObjects s0)) eqn:E2; [now left|].
  destruct (mem h (mapErasedGovernanceObjects s0)) eqn:E3; [now left|]. simpl.
  destruct (negb (v_rate_ok v)); [now left|].
  destruct (v_rate_bypassed v && v_valid v && negb (v_rate_ok_forced v)); [now left|].
  destruct (negb (v_valid v)).
  - destruct (v_missing_confirmations v); [|now left].
    right. repeat split; auto.
  - right. split; [reflexivity|]. split; [reflexivity|]. split; [reflexivity|]. right.
    exists (v_valid_on_add v), (v_trigger_ok v), (v_now v).
    unfold AddGovernanceObject. fold h.
    destruct (v_valid_on_add v); simpl; [|auto].
    destruct (mem h _); simpl; auto.
Qed.

(** *** The invariant of the three maps *)

Ltac mem_contra :=
  match goal with |- ?b = false => destruct b eqn:?; [exfalso | reflexivity] end.

Lemma inv_ext (s s' : GovStore) :
  mapObjects s' = mapObjects s -> mapPostponedObjects s' = mapPostponedObjects s ->
  mapErasedGovernanceObjects s' = mapErasedGovernanceObjects s -> gov_inv s -> gov_inv s'.
Proof. intros E1 E2 E3. unfold gov_inv. now rewrite E1, E2, E3. Qed.

Lemma inv_empty : gov_inv empty_store.
Proof.
  repeat split; try discriminate; try constructor. intros h o [].
Qed.

Lemma inv_CheckAndRemove (synced : bool) (now cycle : Z) (s : GovStore) :
  gov_inv s -> gov_inv (CheckAndRemove synced now cycle s).
Proof.
  intros Hinv. unfold CheckAndRemove. destruct synced; [|exact Hinv]. cbn [negb].
  destruct Hinv as (I1 & I2 & I3 & I4 & N1 & N2).
  destruct (car_objects now cycle (mapObjects s) _ _) as [[objs erased] votes] eqn:E.
  destruct (car_sub _ _ _ _ _ _ _ _ E) as [Sub Nd].
  pose proof (car_erased_new _ _ _ _ _ _ _ _ N1 E) as New.
  unfold gov_inv. cbn [mapObjects mapPostponedObjects mapErasedGovernanceObjects mkStore].
  assert (Hobj : forall k, mem k objs = true -> mem k (mapObjects s) = true).
  { intros k Hk. apply mem_In. apply Sub. now apply mem_In. }
  split; [|split; [|split; [|split; [|split]]]].
  - intros k Hk. now apply I1, Hobj.
  - intros k Hk. mem_contra. apply mem_filter in Heqb.
    destruct (New k Heqb) as [H|[H _]].
    + rewrite (I2 k Hk) in H. discriminate.
    + apply mem_In in H. rewrite (I1 k H) in Hk. discriminate.
  - intros k Hk. mem_contra. apply mem_filter in Heqb.
    destruct (New k Heqb) as [H|[_ H]].
    + rewrite (I3 k (Hobj k Hk)) in H. discriminate.
    + apply H. now apply mem_In.
  - exact I4.
  - now apply Nd.
  - exact N2.
Qed.

Lemma inv_refresh (f : CGovernanceObject -> CGovernanceObject) (s : GovStore) :
  gov_inv s -> gov_inv (refresh f s).
Proof.
  intros (I1 & I2 & I3 & I4 & N1 & N2). unfold gov_inv, refresh.
  cbn [mapObjects mapPostponedObjects mapErasedGovernanceObjects mkStore].
  rewrite map_values_keys. split; [|split; [|split]]; try easy.
  - intros k. rewrite mem_map_values. apply I1.
  - intros k. rewrite mem_map_values. apply I3.
Qed.

Lemma inv_ProcessGovObj (govobj : CGovernanceObject) (v : GovObjVerdicts) (s : GovStore) :
  gov_inv s -> gov_inv (ProcessGovObj govobj v s).
Proof.
  intros Hs. destruct (ProcessGovObj_cases govobj v s) as [(E1 & E2 & E3)|(F1 & F2 & F3 & C)].
  - exact (inv_ext _ _ E1 E2 E3 Hs).
  - destruct Hs as (I1 & I2 & I3 & I4 & N1 & N2).
    set (h := go_hash govobj) in *.
    destruct C as [(E1 & E2 & E3)|(valid & tok & now & E1 & E2 & E3)];
      unfold gov_inv; rewrite E1, E2, E3.
    + split; [|split; [|split; [|split; [|split]]]].
      * intros k Hk. rewrite mem_map_emplace. destruct (Z.eqb_spec k h) as [Ek|_].
        -- rewrite Ek in Hk. rewrite Hk in F1. discriminate.
        -- now apply I1.
      * intros k Hk. rewrite mem_map_emplace in Hk. destruct (Z.eqb_spec k h) as [Ek|_].
        -- rewrite Ek. exact F3.
        -- now apply I2.
      * exact I3.
      * intros k o Hin. unfold map_emplace in Hin. rewrite F2 in Hin.
        apply in_app_iff in Hin. destruct Hin as [Hin|[[= <- <-]|[]]]; [now apply I4 | reflexivity].
      * exact N1.
      * now apply map_emplace_keys.
    + destruct (add_props govobj valid tok now s) as (_ & _ & Hnew & Hnd).
      split; [|split; [|split; [|split; [|split]]]].
      * intros k Hk. destruct (Hnew k Hk) as [H| ->]; [now apply I1 | exact F2].
      * exact I2.
      * intros k Hk. destruct (Hnew k Hk) as [H| ->]; [now apply I3 | exact F3].
      * exact I4.
      * now apply Hnd.
      * exact N2.
Qed.

Lemma inv_CheckPostponedObjects (synced : bool) verdict (now : Z) (s : GovStore) :
  gov_inv s -> gov_inv (CheckPostponedObjects synced verdict now s).
Proof.
  intros Hs. unfold CheckPostponedObjects. destruct (negb synced); [exact Hs|].
  destruct (cpo_loop verdict now (mapPostponedObjects s) s) as [s' kept] eqn:E.
  destruct Hs as (I1 & I2 & I3 & I4 & N1 & N2).
  destruct (cpo_kept _ _ _ _ _ _ E) as [Ksub Knd].
  pose proof (cpo_objects_new _ _ _ _ _ _ E I4 N2) as New.
  rewrite <- (cpo_erased _ _ _ _ _ _ E) in I2, I3.
  assert (Hk : forall k, mem k kept = true -> mem k (mapPostponedObjects s) = true).
  { intros k H. apply mem_In in H. apply mem_In. apply in_map_iff in H.
    destruct H as (x & Ex & Hx). apply in_map_iff. exists x. split; [exact Ex | now apply Ksub]. }
  unfold gov_inv. cbn [mapObjects mapPostponedObjects mapErasedGovernanceObjects mkStore].
  split; [|split; [|split; [|split; [|split]]]].
  - intros k H. mem_contra. destruct (New k H) as [H'|[_ H']].
    + pose proof (Hk k Heqb) as P. rewrite (I1 k H') in P. discriminate.
    + apply H'. now apply mem_In.
  - intros k H. now apply I2, Hk.
  - intros k H. destruct (New k H) as [H'|[H' _]]; [now apply I3|].
    apply I2. now apply mem_In.
  - intros k o H. now apply I4, Ksub.
  - exact (cpo_objects_nodup _ _ _ _ _ _ E N1).
  - now apply Knd.
Qed.

Lemma inv_inventory (synced : bool) (now : Z) (inv : CInv) (s : GovStore) :
  gov_inv s -> gov_inv (snd (ConfirmInventoryRequest synced now inv s)).
Proof.
  intros Hs. unfold ConfirmInventoryRequest. destruct (negb synced); [exact Hs|].
  destruct (inv_type inv);
    [destruct (mem _ _ || mem _ _) | destruct (mem _ _) |]; exact Hs.
Qed.

Lemma inv_step (s s' : GovStore) : gov_step s s' -> gov_inv s -> gov_inv s'.
Proof.
  intros St. destruct St.
  - apply inv_CheckAndRemove.
  - apply inv_refresh.
  - apply inv_ProcessGovObj.
  - apply inv_CheckPostponedObjects.
  - apply inv_inventory.
Qed.

Lemma inv_steps (s s' : GovStore) : gov_steps s s' -> gov_inv s -> gov_inv s'.
Proof. induction 1; [tauto|]. intros Hs. apply IHgov_steps. eapply inv_step; eauto. Qed.

(** *** The erased map *)

Lemma inventory_maps (synced : bool) (now : Z) (inv : CInv) (s : GovStore) :
  let s' := snd (ConfirmInventoryRequest synced now inv s) in
  mapObjects s' = mapObjects s /\ mapErasedGovernanceObjects s' = mapErasedGovernanceObjects s.
Proof.
  unfold ConfirmInventoryRequest. destruct (negb synced); [now split|].
  destruct (inv_type inv);
    [destruct (mem _ _ || mem _ _) | destruct (mem _ _) |]; now split.
Qed.

Lemma lookup_mem {V} (k : Z) (v : V) (l : list (Z * V)) : lookup k l = Some v -> mem k l = true.
Proof. unfold mem. now intros ->. Qed.

Lemma sweep_keeps_max (now h : Z) (l : list (Z * Z)) :
  now <= INT64_MAX -> lookup h l = Some INT64_MAX ->
  lookup h (filter (fun e => negb (snd e <? now)) l) = Some INT64_MAX.
Proof.
  intros Hn H. apply lookup_filter; [exact H|]. simpl.
  apply negb_true_iff. apply Z.ltb_ge. exact Hn.
Qed.

(** The step in which a proposal leaves the live map records it with
    expiry [INT64_MAX]. *)
Lemma removed_step (s s1 : GovStore) (h : Z) (o : CGovernanceObject) :
  gov_inv s -> gov_step s s1 ->
  lookup h (mapObjects s) = Some o -> is_proposal o = true -> mem h (mapObjects s1) = false ->
  lookup h (mapErasedGovernanceObjects s1) = Some INT64_MAX.
Proof.
  intros (I1 & I2 & I3 & I4 & N1 & N2) St Ho Hp Hout.
  pose proof (lookup_mem _ _ _ Ho) as Hm.
  destruct St as [cs now cycle s Hnow|f s Hf|govobj v s|synced verdict now s|synced now inv s].
  - unfold CheckAndRemove in *. destruct cs; cbn [negb] in *; [|congruence].
    destruct (car_objects now cycle (mapObjects s) _ _) as [[objs erased] votes] eqn:E.
    cbn [mapObjects mapErasedGovernanceObjects mkStore] in *.
    apply sweep_keeps_max; [lia|].
    apply (car_erase_proposal _ _ _ _ _ _ _ _ h o N1 Ho Hp (I3 h Hm) E).
    now apply mem_false.
  - unfold refresh in Hout. cbn [mapObjects mkStore] in Hout.
    rewrite mem_map_values, Hm in Hout. discriminate.
  - exfalso. destruct (ProcessGovObj_cases govobj v s) as [(E1 & _)|(_ & _ & _ & [(E1 & _)|(va & tok & t & E1 & _)])];
      rewrite E1 in Hout; [congruence | congruence |].
    rewrite (add_mono govobj va tok t h s Hm) in Hout. discriminate.
  - exfalso. unfold CheckPostponedObjects in Hout. destruct (negb synced); [congruence|].
    destruct (cpo_loop verdict now (mapPostponedObjects s) s) as [s' kept] eqn:E.
    cbn [mapObjects mkStore] in Hout. rewrite (cpo_mono _ _ _ _ _ _ h E Hm) in Hout. discriminate.
  - exfalso. rewrite (proj1 (inventory_maps synced now inv s)) in Hout. congruence.
Qed.

Lemma retained_step (s s' : GovStore) (h : Z) :
  gov_step s s' ->
  lookup h (mapErasedGovernanceObjects s) = Some INT64_MAX ->
  lookup h (mapErasedGovernanceObjects s') = Some INT64_MAX.
Proof.
  intros St H. destruct St as [cs now cycle s Hnow|f s Hf|govobj v s|synced verdict now s|synced now inv s].
  - unfold CheckAndRemove. destruct cs; cbn [negb]; [|exact H].
    destruct (car_objects now cycle (mapObjects s) _ _) as [[objs erased] votes] eqn:E.
    cbn [mapErasedGovernanceObjects mkStore].
    apply sweep_keeps_max; [lia|]. exact (car_erased_keep _ _ _ _ _ _ _ _ _ _ E H).
  - exact H.
  - destruct (ProcessGovObj_cases govobj v s) as [(_ & _ & E3)|(_ & _ & _ & [(_ & _ & E3)|(_ & _ & _ & _ & _ & E3)])];
      now rewrite E3.
  - unfold CheckPostponedObjects. destruct (negb synced); [exact H|].
    destruct (cpo_loop verdict now (mapPostponedObjects s) s) as [s1 kept] eqn:E.
    cbn [mapErasedGovernanceObjects mkStore]. now rewrite (cpo_erased _ _ _ _ _ _ E).
  - now rewrite (proj2 (inventory_maps synced now inv s)).
Qed.

Lemma retained_steps (s s' : GovStore) (h : Z) :
  gov_steps s s' ->
  lookup h (mapErasedGovernanceObjects s) = Some INT64_MAX ->
  lookup h (mapErasedGovernanceObjects s') = Some INT64_MAX.
Proof. induction 1; [tauto|]. intros Hs. apply IHgov_steps. eapply retained_step; eauto. Qed.

Lemma erased_not_live (s : GovStore) (h : Z) (v : Z) :
  gov_inv s -> lookup h (mapErasedGovernanceObjects s) = Some v -> mem h (mapObjects s) = false.
Proof.
  intros (_ & _ & I3 & _) H. mem_contra. pose proof (I3 h Heqb) as P.
  unfold mem in P. rewrite H in P. discriminate.
Qed.

Import GovFixtures.

(** C6: once a proposal leaves the live map of a store reachable from the
    empty one, its hash is in the erased map with expiry [INT64_MAX] in
    every later state, it is not a live object in any of them, and a
    received object with that hash does not make it one. *)
Theorem C6_erased_proposal_retained (s s1 s' : GovStore) (h : Z) (o : CGovernanceObject) :
  gov_steps empty_store s -> gov_step s s1 ->
  lookup h (mapObjects s) = Some o -> is_proposal o = true -> mem h (mapObjects s1) = false ->
  gov_steps s1 s' ->
  lookup h (mapErasedGovernanceObjects s') = Some INT64_MAX /\
  mem h (mapObjects s') = false /\
  (forall govobj v, go_hash govobj = h -> mem h (mapObjects (ProcessGovObj govobj v s')) = false).
Proof.
  intros R St Ho Hp Hout Rs.
  assert (Inv : gov_inv s) by exact (inv_steps _ _ R inv_empty).
  assert (Inv' : gov_inv s') by exact (inv_steps _ _ Rs (inv_step _ _ St Inv)).
  assert (Hr : lookup h (mapErasedGovernanceObjects s') = Some INT64_MAX).
  { apply (retained_steps s1); [exact Rs|]. exact (removed_step s s1 h o Inv St Ho Hp Hout). }
  split; [exact Hr|]. split; [exact (erased_not_live _ _ _ Inv' Hr)|].
  intros govobj v Hg.
  apply (erased_not_live _ _ INT64_MAX).
  - exact (inv_ProcessGovObj govobj v s' Inv').
  - exact (retained_step _ _ h (step_govobj govobj v s') Hr).
Qed.

Lemma C6_erased_proposal_retained_witness :
  lookup 5 (mapErasedGovernanceObjects gov_rerequested) = Some INT64_MAX /\
  mem 5 (mapObjects gov_rerequested) = false /\
  (forall govobj v, go_hash govobj = 5 ->
     mem 5 (mapObjects (ProcessGovObj govobj v gov_rerequested)) = false).
Proof.
  apply (C6_erased_proposal_retained gov_live gov_swept gov_rerequested 5 doomed_proposal).
  - apply (steps_cons _ gov_requested); [apply step_inventory|].
    apply (steps_cons _ gov_live); [apply step_govobj | apply steps_refl].
  - apply step_maintenance. vm_compute. split; discriminate.
  - vm_compute. reflexivity.
  - reflexivity.
  - vm_compute. reflexivity.
  - apply (steps_cons _ gov_rerequested); [apply step_inventory | apply steps_refl].
Defined.

End GovLifecycle.

(* ------------------------------------------------------------------ *)
(** ** Payload round trips *)

Module PayloadFacts.
Import Bytes BytesFacts MapPoint MapPointFacts Payload.

Lemma digit_char_spec (d : Z) : 0 <= d < 10 ->
  digit_val (digit_char d) = Some d /\ Ascii.eqb (digit_char d) ":" = false /\
  Ascii.eqb (digit_char d) "-" = false /\ Ascii.eqb (digit_char d) "+" = false.
Proof.
  intros H.
  assert (d = 0 \/ d = 1 \/ d = 2 \/ d = 3 \/ d = 4 \/ d = 5 \/ d = 6 \/ d = 7 \/ d = 8 \/ d = 9)
    as Hd by lia.
  repeat destruct Hd as [-> | Hd]; subst; vm_compute; auto.
Qed.

Lemma hex_char_spec (d : Z) : 0 <= d < 16 ->
  hex_val (hex_char d) = Some d /\ Ascii.eqb (hex_char d) ":" = false.
Proof.
  intros H.
  assert (d = 0 \/ d = 1 \/ d = 2 \/ d = 3 \/ d = 4 \/ d = 5 \/ d = 6 \/ d = 7 \/ d = 8 \/ d = 9 \/
          d = 10 \/ d = 11 \/ d = 12 \/ d = 13 \/ d = 14 \/ d = 15) as Hd by lia.
  repeat destruct Hd as [-> | Hd]; subst; vm_compute; auto.
Qed.

Lemma string_app_assoc (a b c : string) : ((a ++ b) ++ c = a ++ (b ++ c))%string.
Proof. induction a as [|x a IH]; simpl; [reflexivity | now rewrite IH]. Qed.

Lemma string_app_nil (a : string) : (a ++ "")%string = a.
Proof. induction a as [|x a IH]; simpl; [reflexivity | now rewrite IH]. Qed.

Lemma SplitString_other (c : ascii) (s : string) (sep : ascii) (p : string) (ps : list string) :
  Ascii.eqb c sep = false -> SplitString s sep = p :: ps ->
  SplitString (String c s) sep = String c p :: ps.
Proof. intros Hc Hs. simpl. now rewrite Hc, Hs. Qed.

(** *** Decimal printing *)

Lemma dec_digits_app (f : nat) (n : Z) (acc : string) :
  dec_digits f n acc = (dec_digits f n "" ++ acc)%string.
Proof.
  revert n acc; induction f as [|f IH]; intros n acc; simpl; [reflexivity|].
  destruct (n <? 10); [reflexivity|].
  rewrite IH, (IH _ (String _ "")), string_app_assoc. reflexivity.
Qed.

Lemma dec_digits_first (f : nat) (n : Z) (acc : string) : 0 <= n ->
  exists d r, 0 <= d < 10 /\ dec_digits (S f) n acc = String (digit_char d) r.
Proof.
  revert n acc; induction f as [|f IH]; intros n acc Hn.
  - simpl. exists (n mod 10). destruct (n <? 10).
    + eexists. split; [apply Z.mod_pos_bound; lia | reflexivity].
    + eexists. split; [apply Z.mod_pos_bound; lia | reflexivity].
  - change (dec_digits (S (S f)) n acc) with
      (if n <? 10 then String (digit_char (n mod 10)) acc
       else dec_digits (S f) (n / 10) (String (digit_char (n mod 10)) acc)).
    destruct (n <? 10).
    + exists (n mod 10). eexists. split; [apply Z.mod_pos_bound; lia | reflexivity].
    + apply IH. apply Z.div_pos; lia.
Qed.

Lemma dec_digits_parse (f : nat) (n : Z) (acc : string) :
  0 <= n < 2 ^ Z.of_nat f -> parse_digits (dec_digits f n acc) 0 = parse_digits acc n.
Proof.
  revert n acc; induction f as [|f IH]; intros n acc Hn.
  - simpl in Hn. replace n with 0 by lia. reflexivity.
  - assert (Hm : 0 <= n mod 10 < 10) by (apply Z.mod_pos_bound; lia).
    destruct (digit_char_spec _ Hm) as [Hv _].
    simpl. destruct (Z.ltb_spec n 10).
    + simpl. rewrite Hv. f_equal. rewrite Z.mod_small by lia. lia.
    + rewrite IH.
      * simpl. rewrite Hv. f_equal. pose proof (Z.div_mod n 10). lia.
      * split; [apply Z.div_pos; lia|].
        apply Z.div_lt_upper_bound; [lia|].
        rewrite Nat2Z.inj_succ, Z.pow_succ_r in Hn by lia.
        pose proof (Z.pow_nonneg 2 (Z.of_nat f)). lia.
Qed.

Lemma dec_digits_split (f : nat) (n : Z) (acc p : string) (ps : list string) :
  0 <= n -> SplitString acc ":" = p :: ps ->
  SplitString (dec_digits f n acc) ":" = dec_digits f n p :: ps.
Proof.
  revert n acc p; induction f as [|f IH]; intros n acc p Hn Hs; [exact Hs|].
  assert (Hm : 0 <= n mod 10 < 10) by (apply Z.mod_pos_bound; lia).
  destruct (digit_char_spec _ Hm) as [_ [Hc _]].
  simpl. destruct (n <? 10).
  - now apply SplitString_other.
  - apply IH; [apply Z.div_pos; lia|]. now apply SplitString_other.
Qed.

Lemma log2_fuel (n : Z) : 0 <= n -> n < 2 ^ Z.of_nat (S (Z.to_nat (Z.log2 n))).
Proof.
  intros Hn. rewrite Nat2Z.inj_succ, Z2Nat.id by apply Z.log2_nonneg.
  destruct (Z.eq_dec n 0) as [->|Hne]; [reflexivity|].
  apply Z.log2_spec. lia.
Qed.

Lemma format_d_split (v : Z) (acc p : string) (ps : list string) :
  SplitString acc ":" = p :: ps ->
  SplitString (format_d v ++ acc) ":" = (format_d v ++ p)%string :: ps.
Proof.
  intros Hs. unfold format_d. destruct (Z.ltb_spec v 0).
  - cbn [String.append]. rewrite <- !dec_digits_app.
    apply SplitString_other; [reflexivity|]. apply dec_digits_split; [lia | exact Hs].
  - rewrite <- !dec_digits_app. apply dec_digits_split; [lia | exact Hs].
Qed.

Lemma ParseInt64_format_d (v : Z) : - 2 ^ 63 <= v < 2 ^ 63 -> ParseInt64 (format_d v) = Some v.
Proof.
  intros Hv. unfold format_d. destruct (Z.ltb_spec v 0).
  - set (f := Z.to_nat (Z.log2 (- v))).
    assert (Hp : parse_digits (dec_digits (S f) (- v) "") 0 = parse_digits "" (- v)).
    { apply dec_digits_parse. split; [lia | apply log2_fuel; lia]. }
    destruct (dec_digits_first f (- v) "" ltac:(lia)) as (d & r & Hd & Er).
    rewrite Er in *. simpl in Hp. unfold ParseInt64, ToIntegral64. simpl. rewrite Hp.
    replace (- - v) with v by lia.
    change (Z.pow_pos 2 63) with (2 ^ 63). change (-9223372036854775808) with (- 2 ^ 63).
    destruct (Z.leb_spec (- 2 ^ 63) v); destruct (Z.ltb_spec v (2 ^ 63)); try lia. reflexivity.
  - set (f := Z.to_nat (Z.log2 v)).
    assert (Hp : parse_digits (dec_digits (S f) v "") 0 = parse_digits "" v).
    { apply dec_digits_parse. split; [lia | apply log2_fuel; lia]. }
    destruct (dec_digits_first f v "" ltac:(lia)) as (d & r & Hd & Er).
    destruct (digit_char_spec _ Hd) as (_ & _ & Hm & Hpl).
    rewrite Er in *. unfold ParseInt64, ToIntegral64. rewrite Hpl, Hm, Hp. cbn [parse_digits].
    destruct (Z.leb_spec (- 2 ^ 63) v); destruct (Z.ltb_spec v (2 ^ 63)); try lia. reflexivity.
Qed.

Lemma SplitString_BuildPayload (lat lon : Z) :
  SplitString (BuildPayload lat lon) ":" = [MAP_POINT_PREFIX; format_d lat; format_d lon].
Proof.
  unfold BuildPayload.
  change (SplitString (MAP_POINT_PREFIX ++ ":" ++ format_d lat ++ ":" ++ format_d lon) ":")
    with (MAP_POINT_PREFIX :: SplitString (format_d lat ++ String ":" (format_d lon)) ":").
  assert (Hlon : SplitString (format_d lon) ":" = [format_d lon]).
  { pose proof (format_d_split lon "" "" [] eq_refl) as H. now rewrite !string_app_nil in H. }
  assert (H2 : SplitString (String ":" (format_d lon)) ":" = ""%string :: [format_d lon]).
  { change (SplitString (String ":" (format_d lon)) ":")
      with (EmptyString :: SplitString (format_d lon) ":"). now rewrite Hlon. }
  rewrite (format_d_split lat _ _ _ H2). now rewrite string_app_nil.
Qed.


(** The payload written by [BuildPayload] reads back through
    [ParsePayload]: the same pair when both values pass the bound checks, a
    rejection otherwise. The checks use [std::llabs], under which INT64_MIN
    stays negative and passes. *)
Theorem ParsePayload_BuildPayload (lat lon : Z) :
  - 2 ^ 63 <= lat < 2 ^ 63 -> - 2 ^ 63 <= lon < 2 ^ 63 ->
  ParsePayload (BuildPayload lat lon) =
    if (llabs lat <=? MAX_ENCODED_LAT) && (llabs lon <=? MAX_ENCODED_LON)
    then Some (lat, lon) else None.
Proof.
  intros Hlat Hlon. unfold ParsePayload.
  replace (String.length (BuildPayload lat lon) <? SIZEOF_PREFIX)%nat with false
    by (unfold BuildPayload; simpl; reflexivity).
  rewrite SplitString_BuildPayload, String.eqb_refl. simpl negb. cbv iota.
  rewrite !ParseInt64_format_d by assumption.
  destruct (Z.ltb_spec MAX_ENCODED_LAT (llabs lat));
  destruct (Z.leb_spec (llabs lat) MAX_ENCODED_LAT); try lia;
  destruct (Z.ltb_spec MAX_ENCODED_LON (llabs lon));
  destruct (Z.leb_spec (llabs lon) MAX_ENCODED_LON); try lia; reflexivity.
Qed.

Lemma ParsePayload_BuildPayload_witness :
  (- 2 ^ 63 <= - 2 ^ 63 < 2 ^ 63 /\ - 2 ^ 63 <= 0 < 2 ^ 63) /\
  ParsePayload (BuildPayload (- 2 ^ 63) 0) = Some (- 2 ^ 63, 0).
Proof.
  split; [lia|].
  rewrite (ParsePayload_BuildPayload (- 2 ^ 63) 0 ltac:(lia) ltac:(lia)).
  vm_compute. reflexivity.
Defined.

Lemma EncodeCoordinate_some (v m : Q) (e : Z) :
  EncodeCoordinate v m = Some e ->
  (- m <= v <= m)%Q /\ e = llround (Binary64.to_double (v * COORD_SCALE)).
Proof.
  unfold EncodeCoordinate.
  destruct (Qle_bool (- m) v) eqn:E1; destruct (Qle_bool v m) eqn:E2; simpl; try discriminate.
  intros H. injection H as <-. apply Qle_bool_iff in E1, E2. auto.
Qed.

Lemma EncodeCoordinate_bound (v : Q) (M e : Z) :
  M <= 180 -> EncodeCoordinate v (inject_Z M) = Some e -> Z.abs e <= M * 1000000.
Proof.
  intros HM H. apply EncodeCoordinate_some in H. destruct H as [H ->].
  apply encode_abs; [exact HM|]. apply Qabs_Qle_condition. exact H.
Qed.

Lemma EncodeCoordinate_err (v : Q) (M e : Z) :
  M <= 180 -> EncodeCoordinate v (inject_Z M) = Some e ->
  (Qabs (inject_Z e - v * COORD_SCALE) <= (1 # 2) + (1 # 33554432))%Q.
Proof.
  intros HM H. apply EncodeCoordinate_some in H. destruct H as [H ->].
  apply (encode_err v M); [exact HM|]. apply Qabs_Qle_condition. exact H.
Qed.

(** What [sendmappoint] does (wallet/rpc/mappoint.cpp): coordinates
    accepted by [EncodeCoordinates], written with [BuildPayload], are read
    back by [ParsePayload] as the same encoded pair. *)
Theorem EncodeCoordinates_BuildPayload_ParsePayload (lat lon : Q) (elat elon : Z) :
  EncodeCoordinates lat lon = Some (elat, elon) ->
  ParsePayload (BuildPayload elat elon) = Some (elat, elon).
Proof.
  unfold EncodeCoordinates.
  destruct (EncodeCoordinate lat MAX_LATITUDE) as [a|] eqn:Ea; [|discriminate].
  destruct (EncodeCoordinate lon MAX_LONGITUDE) as [b|] eqn:Eb; [|discriminate].
  intros H. injection H as <- <-.
  apply (EncodeCoordinate_bound _ 90) in Ea; [|lia].
  apply (EncodeCoordinate_bound _ 180) in Eb; [|lia].
  rewrite ParsePayload_BuildPayload by lia.
  unfold llabs, MAX_ENCODED_LAT, MAX_ENCODED_LON.
  destruct (Z.eqb_spec a (- 2 ^ 63)); [lia|]. destruct (Z.eqb_spec b (- 2 ^ 63)); [lia|].
  destruct (Z.leb_spec (Z.abs a) 90000000); destruct (Z.leb_spec (Z.abs b) 180000000);
    try lia; reflexivity.
Qed.

Lemma EncodeCoordinates_BuildPayload_ParsePayload_witness :
  EncodeCoordinates (55751244 # 1000000) (37618423 # 1000000) = Some (55751244, 37618423) /\
  ParsePayload (BuildPayload 55751244 37618423) = Some (55751244, 37618423).
Proof.
  split; [vm_compute; reflexivity|].
  exact (EncodeCoordinates_BuildPayload_ParsePayload (55751244 # 1000000) (37618423 # 1000000)
           _ _ ltac:(vm_compute; reflexivity)).
Defined.

Lemma scaled_down_abs (a M : Z) :
  Z.abs a <= M * 1000000 -> (Qabs (inject_Z a / COORD_SCALE) <= inject_Z M)%Q.
Proof.
  intros H. unfold Qdiv, COORD_SCALE. rewrite Qabs_Qmult.
  change (Qabs (/ 1000000)) with (1 # 1000000)%Q.
  unfold inject_Z at 1. rewrite <- Zabs_Qabs.
  assert (H' : (inject_Z (Z.abs a) <= inject_Z M * 1000000)%Q).
  { change 1000000%Q with (inject_Z 1000000). rewrite <- inject_Z_mult, <- Zle_Qle. exact H. }
  change (Z.abs a # 1)%Q with (inject_Z (Z.abs a)). lra.
Qed.

(** An encoded value that is an exact double is converted exactly, so
    [DecodeCoordinate] is the division by [COORD_SCALE] rounded once. *)
Lemma DecodeCoordinate_once (a : Z) :
  Z.abs a < 2 ^ 53 ->
  (DecodeCoordinate a == Binary64.to_double (inject_Z a / COORD_SCALE))%Q.
Proof.
  intros H. unfold DecodeCoordinate. apply Binary64Facts.to_double_comp.
  unfold Qdiv. apply Qmult_comp; [|reflexivity]. now apply Binary64Facts.to_double_int.
Qed.

Lemma DecodeCoordinate_err (a : Z) :
  Z.abs a <= 180000000 ->
  (Qabs (DecodeCoordinate a - inject_Z a / COORD_SCALE) <= 1 # 35184372088832)%Q.
Proof.
  intros H. rewrite (DecodeCoordinate_once a) by lia.
  eapply Qle_trans.
  - apply (Binary64Facts.to_double_err_bound _ 8).
    eapply Qle_trans; [apply (scaled_down_abs a 180); lia|].
    rewrite Binary64Facts.pow2_Z by lia. rewrite <- Zle_Qle. lia.
  - vm_compute. discriminate.
Qed.

Lemma DecodeCoordinate_abs (a M : Z) :
  0 <= M <= 256 -> Z.abs a <= M * 1000000 -> (Qabs (DecodeCoordinate a) <= inject_Z M)%Q.
Proof.
  intros HM H. rewrite (DecodeCoordinate_once a) by lia.
  pose proof (scaled_down_abs a M H) as Hy.
  set (y := (inject_Z a / COORD_SCALE)%Q) in *.
  destruct (Qeq_dec y 0) as [Z0|Z0].
  { rewrite (Binary64Facts.to_double_zero y Z0). change (Qabs 0) with (inject_Z 0).
    rewrite <- Zle_Qle. lia. }
  assert (P : (inject_Z M * Binary64.pow2 0 == inject_Z M)%Q) by (unfold Binary64.pow2; ring).
  rewrite <- P. apply Binary64Facts.to_double_abs_le; [rewrite P; exact Hy|].
  unfold Binary64.fl_exp.
  assert (L : Binary64.Qlog2_floor (Qabs y) <= 8).
  { apply Binary64Facts.Qlog2_floor_le; [exact (Binary64Facts.Qabs_pos_nonzero y Z0)|].
    eapply Qle_trans; [exact Hy|].
    rewrite Binary64Facts.pow2_Z by lia. rewrite <- Zle_Qle. lia. }
  lia.
Qed.

(** [DecodeCoordinate] undoes [EncodeCoordinates] up to half a unit of the
    sixth decimal, plus less than 10^-13 for the rounding of the two double
    operations on each side. *)
Theorem DecodeCoordinate_EncodeCoordinates (lat lon : Q) (elat elon : Z) :
  EncodeCoordinates lat lon = Some (elat, elon) ->
  (Qabs (DecodeCoordinate elat - lat) <= (1 # 2000000) + (1 # 10000000000000))%Q /\
  (Qabs (DecodeCoordinate elon - lon) <= (1 # 2000000) + (1 # 10000000000000))%Q.
Proof.
  unfold EncodeCoordinates.
  destruct (EncodeCoordinate lat MAX_LATITUDE) as [a|] eqn:Ea; [|discriminate].
  destruct (EncodeCoordinate lon MAX_LONGITUDE) as [b|] eqn:Eb; [|discriminate].
  intros H. injection H as <- <-.
  assert (G : forall (v : Q) (M e : Z), M <= 180 -> EncodeCoordinate v (inject_Z M) = Some e ->
            (Qabs (DecodeCoordinate e - v) <= (1 # 2000000) + (1 # 10000000000000))%Q).
  { intros v M e HM He.
    pose proof (EncodeCoordinate_bound v M e HM He) as B.
    pose proof (EncodeCoordinate_err v M e HM He) as E1.
    pose proof (DecodeCoordinate_err e ltac:(lia)) as E2.
    apply Qabs_Qle_condition in E1, E2. apply Qabs_Qle_condition.
    unfold Qdiv, COORD_SCALE in *. change (/ 1000000)%Q with (1 # 1000000)%Q in E2.
    destruct E1 as [E1a E1b]. destruct E2 as [E2a E2b]. split; lra. }
  split; [exact (G lat 90 a ltac:(lia) Ea) | exact (G lon 180 b ltac:(lia) Eb)].
Qed.

Lemma DecodeCoordinate_EncodeCoordinates_witness :
  EncodeCoordinates (1 # 3) (-1 # 7) = Some (333333, -142857) /\
  (Qabs (DecodeCoordinate 333333 - (1 # 3)) <= (1 # 2000000) + (1 # 10000000000000))%Q /\
  (Qabs (DecodeCoordinate (-142857) - (-1 # 7)) <= (1 # 2000000) + (1 # 10000000000000))%Q.
Proof.
  assert (E : EncodeCoordinates (1 # 3) (-1 # 7) = Some (333333, -142857))
    by (vm_compute; reflexivity).
  split; [exact E|].
  exact (DecodeCoordinate_EncodeCoordinates (1 # 3) (-1 # 7) _ _ E).
Defined.

(** Whatever the payload, an accepted one carries encoded coordinates that
    are either INT64_MIN (which passes the [llabs] check) or within the
    bounds, and then [DecodeCoordinate] of them (what
    [MapPointInfo::Latitude] and [Longitude] return) lies in [-90, 90] and
    [-180, 180]; the payload with latitude INT64_MIN is accepted. *)
Theorem ParsePayload_bounds :
  (forall (payload : string) (lat lon : Z),
     ParsePayload payload = Some (lat, lon) ->
     (lat = - 2 ^ 63 \/
      Z.abs lat <= MAX_ENCODED_LAT /\ (Qabs (DecodeCoordinate lat) <= MAX_LATITUDE)%Q) /\
     (lon = - 2 ^ 63 \/
      Z.abs lon <= MAX_ENCODED_LON /\ (Qabs (DecodeCoordinate lon) <= MAX_LONGITUDE)%Q)) /\
  ParsePayload "ORINMAP1:-9223372036854775808:0" = Some (- 2 ^ 63, 0).
Proof.
  split; [|vm_compute; reflexivity].
  intros payload lat lon. unfold ParsePayload.
  destruct (String.length payload <? SIZEOF_PREFIX)%nat; [discriminate|].
  destruct (SplitString payload ":") as [|p0 [|p1 [|p2 [|p3 ps]]]]; try discriminate.
  destruct (negb (String.eqb p0 MAP_POINT_PREFIX)); [discriminate|].
  destruct (ParseInt64 p1) as [a|]; [|discriminate].
  destruct (ParseInt64 p2) as [b|]; [|discriminate].
  destruct (Z.ltb_spec MAX_ENCODED_LAT (llabs a)); [discriminate|].
  destruct (Z.ltb_spec MAX_ENCODED_LON (llabs b)); [discriminate|].
  intros E. injection E as <- <-. unfold llabs, MAX_ENCODED_LAT, MAX_ENCODED_LON in *.
  split.
  - destruct (Z.eqb_spec a (- 2 ^ 63)) as [Ha|Ha]; [left; exact Ha|right].
    split; [lia|]. exact (DecodeCoordinate_abs a 90 ltac:(lia) ltac:(lia)).
  - destruct (Z.eqb_spec b (- 2 ^ 63)) as [Hb|Hb]; [left; exact Hb|right].
    split; [lia|]. exact (DecodeCoordinate_abs b 180 ltac:(lia) ltac:(lia)).
Qed.

(** No payload is both a point payload and a transfer payload. *)
Theorem ParsePayload_ParseTransferPayload_disjoint (payload : string) :
  ParsePayload payload <> None -> ParseTransferPayload payload = None.
Proof.
  unfold ParsePayload, ParseTransferPayload. intros H.
  destruct (String.length payload <? SIZEOF_PREFIX)%nat; [congruence|].
  destruct (String.length payload <=? SIZEOF_PREFIX)%nat; [reflexivity|].
  destruct (SplitString payload ":") as [|p0 [|p1 [|p2 [|p3 ps]]]]; congruence.
Qed.

Lemma ParsePayload_ParseTransferPayload_disjoint_witness :
  ParsePayload "ORINMAP1:1:2" <> None /\ ParseTransferPayload "ORINMAP1:1:2" = None.
Proof.
  split; [vm_compute; discriminate|].
  exact (ParsePayload_ParseTransferPayload_disjoint "ORINMAP1:1:2" ltac:(vm_compute; discriminate)).
Defined.

(** *** Hex *)

Lemma le_bytes_range (n : nat) (v : Z) : Forall (fun b => 0 <= b < 256) (le_bytes n v).
Proof.
  revert v; induction n as [|n IH]; intros v; simpl; constructor; [|apply IH].
  apply Z.mod_pos_bound. lia.
Qed.

Lemma HexStr_split (l : list Z) :
  Forall (fun b => 0 <= b < 256) l -> SplitString (HexStr l) ":" = [HexStr l].
Proof.
  induction l as [|b l IH]; intros H; [reflexivity|].
  inversion H as [|? ? Hb Hl]; subst.
  assert (H1 : 0 <= b / 16 < 16) by (split; [apply Z.div_pos | apply Z.div_lt_upper_bound]; lia).
  assert (H2 : 0 <= b mod 16 < 16) by (apply Z.mod_pos_bound; lia).
  simpl HexStr. apply SplitString_other; [apply hex_char_spec; exact H1|].
  apply SplitString_other; [apply hex_char_spec; exact H2|]. now apply IH.
Qed.

Lemma HexStr_length (l : list Z) : String.length (HexStr l) = (2 * List.length l)%nat.
Proof. induction l as [|b l IH]; simpl; [reflexivity|]. rewrite IH. lia. Qed.

Lemma HexStr_value (l : list Z) (acc : Z) :
  Forall (fun b => 0 <= b < 256) l ->
  all_hex (HexStr l) = true /\ hex_value (HexStr l) acc = fold_left (fun a b => a * 256 + b) l acc.
Proof.
  revert acc; induction l as [|b l IH]; intros acc H; [split; reflexivity|].
  inversion H as [|? ? Hb Hl]; subst.
  assert (H1 : 0 <= b / 16 < 16) by (split; [apply Z.div_pos | apply Z.div_lt_upper_bound]; lia).
  assert (H2 : 0 <= b mod 16 < 16) by (apply Z.mod_pos_bound; lia).
  destruct (hex_char_spec _ H1) as [E1 _]. destruct (hex_char_spec _ H2) as [E2 _].
  simpl HexStr. simpl all_hex. simpl hex_value. rewrite E1, E2.
  destruct (IH ((acc * 16 + b / 16) * 16 + b mod 16) Hl) as [IH1 IH2].
  split; [exact IH1|]. rewrite IH2. simpl. f_equal. pose proof (Z.div_mod b 16). lia.
Qed.

Lemma be_value_le_bytes (n : nat) (v : Z) :
  fold_left (fun a b => a * 256 + b) (rev (le_bytes n v)) 0 = v mod 256 ^ Z.of_nat n.
Proof.
  revert v; induction n as [|n IH]; intros v; simpl rev.
  - simpl. now rewrite Z.mod_1_r.
  - rewrite fold_left_app, IH. cbn [fold_left].
    rewrite Nat2Z.inj_succ, Z.pow_succ_r by lia.
    rewrite Z.rem_mul_r by (try lia; apply Z.pow_pos_nonneg; lia).
    lia.
Qed.

Lemma SplitString_transfer_prefix (s : string) :
  SplitString (MAP_POINT_TRANSFER_PREFIX ++ ":" ++ s) ":" = MAP_POINT_TRANSFER_PREFIX :: SplitString s ":".
Proof. reflexivity. Qed.

Lemma length_transfer_prefix (s : string) :
  String.length (MAP_POINT_TRANSFER_PREFIX ++ ":" ++ s) = (9 + String.length s)%nat.
Proof. reflexivity. Qed.

Lemma ParseTransferPayload_hex (l : list Z) :
  Forall (fun b => 0 <= b < 256) l -> List.length l = 32%nat ->
  ParseTransferPayload (MAP_POINT_TRANSFER_PREFIX ++ ":" ++ HexStr l) =
  Some (fold_left (fun a b => a * 256 + b) l 0).
Proof.
  intros Hr Hlen.
  assert (Hl : String.length (HexStr l) = 64%nat) by (rewrite HexStr_length, Hlen; reflexivity).
  destruct (HexStr_value l 0 Hr) as [Hh Hval].
  unfold ParseTransferPayload. rewrite length_transfer_prefix, Hl, SplitString_transfer_prefix.
  rewrite HexStr_split by exact Hr. rewrite String.eqb_refl.
  unfold IsHex. rewrite Hl, Hh, Hval. reflexivity.
Qed.

(** The transfer payload written by [sendpointtransfer] reads back through
    [ParseTransferPayload] as the same point txid. *)
Theorem ParseTransferPayload_TransferPayload (point_txid : Z) :
  0 <= point_txid < 2 ^ 256 -> ParseTransferPayload (TransferPayload point_txid) = Some point_txid.
Proof.
  intros Hv. unfold TransferPayload, GetHex, blob_bytes.
  rewrite ParseTransferPayload_hex.
  - rewrite be_value_le_bytes. f_equal. apply Z.mod_small. exact Hv.
  - apply Forall_rev, le_bytes_range.
  - now rewrite length_rev, le_bytes_length.
Qed.

Lemma ParseTransferPayload_TransferPayload_witness :
  0 <= 2 ^ 255 + 7 < 2 ^ 256 /\ ParseTransferPayload (TransferPayload (2 ^ 255 + 7)) = Some (2 ^ 255 + 7).
Proof.
  split; [lia|]. exact (ParseTransferPayload_TransferPayload (2 ^ 255 + 7) ltac:(lia)).
Defined.

End PayloadFacts.

(* ------------------------------------------------------------------ *)
(** ** Cursor order and the read paths of the index *)

Module IndexQueries.
Import Bytes BytesFacts MapPointIndex StoreFacts IndexInvariant PayloadFacts.

(** *** Byte-wise order on keys of any length *)

Lemma lex_ltb_eq_total (a b : list Z) : lex_ltb a b = false -> lex_ltb b a = false -> a = b.
Proof.
  revert b; induction a as [|x a IH]; intros [|y b]; simpl; try discriminate; auto.
  intros H1 H2.
  apply orb_false_iff in H1, H2. destruct H1 as [H1 H1']. destruct H2 as [H2 H2'].
  apply Z.ltb_ge in H1, H2. assert (x = y) by lia. subst.
  rewrite Z.eqb_refl in H1', H2'. simpl in H1', H2'. f_equal. now apply IH.
Qed.

Lemma lex_ltb_not_lt_trans_all (a b c : list Z) :
  lex_ltb b a = false -> lex_ltb c b = false -> lex_ltb c a = false.
Proof.
  intros H1 H2. destruct (lex_ltb c a) eqn:E; [|reflexivity].
  destruct (lex_ltb a b) eqn:Eab.
  - destruct (lex_ltb b c) eqn:Ebc.
    + pose proof (lex_ltb_trans _ _ _ Eab Ebc) as H. rewrite (lex_ltb_asym _ _ H) in E. discriminate.
    + pose proof (lex_ltb_eq_total _ _ Ebc H2). subst.
      rewrite (lex_ltb_asym _ _ Eab) in E. discriminate.
  - pose proof (lex_ltb_eq_total _ _ Eab H1). subst. congruence.
Qed.

Lemma lex_ltb_app_same (a x y : list Z) : lex_ltb (a ++ x) (a ++ y) = lex_ltb x y.
Proof.
  induction a as [|z a IH]; simpl; [reflexivity|]. now rewrite Z.ltb_irrefl, Z.eqb_refl, IH.
Qed.

Lemma lex_ltb_app_diff (a b x y : list Z) :
  List.length a = List.length b -> a <> b -> lex_ltb (a ++ x) (b ++ y) = lex_ltb a b.
Proof.
  revert b; induction a as [|u a IH]; intros [|v b] Hl Hne; simpl in *; try discriminate.
  - congruence.
  - destruct (Z.eqb_spec u v) as [->|Huv].
    + rewrite IH; [reflexivity | lia | congruence].
    + reflexivity.
Qed.

Lemma lex_ltb_zeros (l : list Z) :
  Forall (fun b => 0 <= b) l -> lex_ltb l (repeat 0 (List.length l)) = false.
Proof.
  induction l as [|x l IH]; intros H; simpl; [reflexivity|].
  inversion H as [|? ? Hx Hl]; subst.
  destruct (Z.ltb_spec x 0); [lia|]. destruct (Z.eqb_spec x 0); simpl; [now apply IH | reflexivity].
Qed.

Lemma blob_bytes_inj (a b : Z) :
  0 <= a < 2 ^ 256 -> 0 <= b < 2 ^ 256 -> blob_bytes a = blob_bytes b -> a = b.
Proof.
  intros Ha Hb E.
  pose proof (be_value_le_bytes 32 a) as Ea. pose proof (be_value_le_bytes 32 b) as Eb.
  unfold blob_bytes in E. rewrite E, Eb in Ea.
  change (256 ^ Z.of_nat 32) with (2 ^ 256) in Ea.
  rewrite !Z.mod_small in Ea by assumption. congruence.
Qed.

Lemma blob_bytes_length (a : Z) : List.length (blob_bytes a) = 32%nat.
Proof. apply le_bytes_length. Qed.

Lemma blob_bytes_nonneg (a : Z) : Forall (fun b => 0 <= b) (blob_bytes a).
Proof. eapply Forall_impl; [|apply le_bytes_range]. simpl. lia. Qed.

Lemma blob_zero_least (a : Z) : lex_ltb (blob_bytes a) (blob_bytes 0) = false.
Proof.
  change (blob_bytes 0) with (repeat 0 (List.length (blob_bytes a))).
  rewrite blob_bytes_length. change (repeat 0 32) with (repeat 0 (List.length (blob_bytes a))).
  apply lex_ltb_zeros, blob_bytes_nonneg.
Qed.

(** *** The cursor: sorted entries *)

Lemma In_insert_entry (e x : dbkey * dbval) (l : store) :
  In x (insert_entry e l) <-> x = e \/ In x l.
Proof.
  induction l as [|e' l IH]; simpl; [split; intros; intuition congruence|].
  destruct (key_ltb (fst e) (fst e')); simpl; rewrite ?IH; split; intros; intuition congruence.
Qed.

Lemma In_sorted_entries (x : dbkey * dbval) (s : store) : In x (sorted_entries s) <-> In x s.
Proof.
  induction s as [|e s IH]; simpl; [tauto|]. rewrite In_insert_entry, IH. split; intros; intuition congruence.
Qed.

Lemma In_seek (x : dbkey * dbval) (s : store) (k : dbkey) :
  In x (seek s k) <-> In x s /\ key_ltb (fst x) k = false.
Proof.
  unfold seek. rewrite filter_In, In_sorted_entries, negb_true_iff. tauto.
Qed.

Lemma insert_entry_sorted (e : dbkey * dbval) (l : store) :
  Sorted (fun a b => key_ltb (fst b) (fst a) = false) l ->
  Sorted (fun a b => key_ltb (fst b) (fst a) = false) (insert_entry e l).
Proof.
  induction l as [|e' l IH]; simpl; intros H.
  - constructor; constructor.
  - destruct (key_ltb (fst e) (fst e')) eqn:E.
    + constructor; [exact H|]. constructor. now apply lex_ltb_asym.
    + inversion H as [|? ? Hl Hd]; subst. constructor; [now apply IH|].
      destruct l as [|e'' l']; simpl.
      * constructor. exact E.
      * destruct (key_ltb (fst e) (fst e'')); constructor; [exact E | now inversion Hd].
Qed.

Lemma StronglySorted_filter_keep {A : Type} (R : A -> A -> Prop) (f : A -> bool) (l : list A) :
  StronglySorted R l -> StronglySorted R (filter f l).
Proof.
  induction l as [|x l IH]; intros H; simpl; [constructor|].
  inversion H as [|? ? Hl Hf]; subst. destruct (f x); [|now apply IH].
  constructor; [now apply IH|]. rewrite Forall_forall in *.
  intros y Hy. apply filter_In in Hy. now apply Hf.
Qed.

Lemma seek_sorted (s : store) (k : dbkey) :
  StronglySorted (fun a b => key_ltb (fst b) (fst a) = false) (seek s k).
Proof.
  unfold seek. apply StronglySorted_filter_keep, Sorted_StronglySorted.
  - intros a b c H1 H2. exact (lex_ltb_not_lt_trans_all _ _ _ H1 H2).
  - unfold sorted_entries. induction s as [|e s IH]; simpl; [constructor|].
    now apply insert_entry_sorted.
Qed.

(** In a sorted cursor, the entries before one whose key is below every
    key outside [p] all satisfy [p]. *)
Lemma sorted_prefix (p : dbkey -> bool) (L : store) (e : dbkey * dbval) :
  StronglySorted (fun a b => key_ltb (fst b) (fst a) = false) L -> In e L ->
  (forall e', In e' L -> p (fst e') = false -> key_ltb (fst e) (fst e') = true) ->
  exists L1 L2, L = L1 ++ e :: L2 /\ (forall x, In x L1 -> p (fst x) = true).
Proof.
  induction L as [|e0 L IH]; intros HS Hin Hlt; [destruct Hin|].
  inversion HS as [|? ? HS' HF]; subst.
  destruct Hin as [<-|Hin].
  - exists [], L. split; [reflexivity | intros x []].
  - destruct (IH HS' Hin (fun e' H => Hlt e' (or_intror H))) as (L1 & L2 & -> & HL1).
    exists (e0 :: L1), L2. split; [reflexivity|].
    intros x [<-|Hx]; [|now apply HL1].
    destruct (p (fst e0)) eqn:Ep; [reflexivity|].
    pose proof (Hlt e0 (or_introl eq_refl) Ep) as H1.
    assert (Hie : In e (L1 ++ e :: L2)) by (apply in_or_app; right; now left).
    rewrite Forall_forall in HF. specialize (HF e Hie).
    congruence.
Qed.

Lemma In_db_read (k : dbkey) (v : dbval) (s : store) : In (k, v) s -> db_read k s <> None.
Proof.
  induction s as [|[k' v'] s IH]; simpl; [tauto|].
  destruct (dbkey_eqb k k') eqn:Ek; [discriminate|]. intros [E|H]; [|now apply IH].
  injection E as -> ->. apply dbkey_eqb_neq in Ek. congruence.
Qed.

Lemma db_read_In (k : dbkey) (v : dbval) (s : store) : db_read k s = Some v -> In (k, v) s.
Proof.
  induction s as [|[k' v'] s IH]; simpl; [discriminate|].
  destruct (dbkey_eqb k k') eqn:E; [|intros H; right; now apply IH].
  apply dbkey_eqb_eq in E. subst. intros H. injection H as ->. now left.
Qed.

(** *** The transfer keyspace of one origin *)

(** *** The transfer keyspace of one origin *)

Lemma transfer_key_in_seek (origin t : Z) :
  key_ltb (KTransfer origin t) (KTransfer origin 0) = false.
Proof.
  unfold key_ltb, ser_key. cbn [lex_ltb]. rewrite Z.ltb_irrefl, Z.eqb_refl. cbn [orb andb].
  rewrite lex_ltb_app_same. apply blob_zero_least.
Qed.

(** Past the seek position of an origin, every key outside its transfer
    keyspace comes after the whole keyspace. *)
Lemma transfer_key_before (origin t : Z) (k : dbkey) :
  0 <= origin < 2 ^ 256 -> (forall o t', k = KTransfer o t' -> 0 <= o < 2 ^ 256) ->
  key_ltb k (KTransfer origin 0) = false ->
  match k with KTransfer o _ => o =? origin | _ => false end = false ->
  key_ltb (KTransfer origin t) k = true.
Proof.
  intros Ho Hk Hge Hne.
  destruct k as [t'|h t'|o' t'|o t'|h o t'|]; unfold key_ltb, ser_key in *; cbn [lex_ltb] in *;
    unfold DB_POINT, DB_HEIGHT, DB_OWNER, DB_TRANSFER, DB_TRANSFER_HEIGHT, DB_BEST_BLOCK in *;
    try (cbn [Z.ltb Z.compare Pos.compare Pos.compare_cont orb] in Hge; discriminate);
    try reflexivity.
  rewrite Z.ltb_irrefl, Z.eqb_refl in *. cbn [orb andb] in *.
  specialize (Hk o t' eq_refl). apply Z.eqb_neq in Hne.
  assert (Hb : blob_bytes o <> blob_bytes origin) by (intros E; apply Hne, blob_bytes_inj; assumption).
  rewrite lex_ltb_app_diff in Hge by (rewrite ?blob_bytes_length; reflexivity || assumption).
  rewrite lex_ltb_app_diff by (rewrite ?blob_bytes_length; reflexivity || congruence).
  destruct (lex_ltb (blob_bytes origin) (blob_bytes o)) eqn:E; [reflexivity|].
  exfalso. apply Hb. apply lex_ltb_eq_total; assumption.
Qed.

Lemma transfer_prefix (s : store) (origin t : Z) (v : dbval) :
  0 <= origin < 2 ^ 256 -> (forall o t' v', In (KTransfer o t', v') s -> 0 <= o < 2 ^ 256) ->
  In (KTransfer origin t, v) s ->
  exists L1 L2, seek s (KTransfer origin 0) = L1 ++ (KTransfer origin t, v) :: L2 /\
    (forall x, In x L1 -> match fst x with KTransfer o _ => o =? origin | _ => false end = true).
Proof.
  intros Ho Hs Hin.
  apply (sorted_prefix (fun k => match k with KTransfer o _ => o =? origin | _ => false end));
    [apply seek_sorted | |].
  - apply In_seek. split; [exact Hin | apply transfer_key_in_seek].
  - intros [k v'] Hk Hp. apply In_seek in Hk. destruct Hk as [Hk Hge]. cbn [fst] in *.
    apply transfer_key_before; try assumption.
    intros o t' ->. now apply (Hs o t' v').
Qed.

Lemma read_transfers_walk_app (origin : Z) (L1 L2 : store) :
  (forall x, In x L1 -> match fst x with KTransfer o _ => o =? origin | _ => false end = true) ->
  read_transfers_walk origin (L1 ++ L2) =
  flat_map (fun e => match e with
    | (KTransfer _ t, VTransfer r) =>
        [{| transfer_txid := t; info_height := to_int (tr_height r); info_new_owner := new_owner r |}]
    | _ => [] end) L1 ++ read_transfers_walk origin L2.
Proof.
  induction L1 as [|[k v] L1 IH]; intros HL; [reflexivity|].
  pose proof (HL _ (or_introl eq_refl)) as Hk. simpl in Hk.
  destruct k; try discriminate. cbn [app read_transfers_walk flat_map]. rewrite Hk. cbn [negb].
  rewrite <- app_assoc. f_equal. apply IH. intros x Hx. apply HL. now right.
Qed.

Lemma read_transfers_walk_sound (origin : Z) (L : store) (i : MapPointTransferInfo) :
  In i (read_transfers_walk origin L) ->
  exists t r, In (KTransfer origin t, VTransfer r) L /\
    i = {| transfer_txid := t; info_height := to_int (tr_height r); info_new_owner := new_owner r |}.
Proof.
  induction L as [|[k v] L IH]; simpl; [tauto|].
  destruct k as [t0|h0 t0|w0 t0|o t|h0 o0 t0|]; simpl; try tauto.
  destruct (Z.eqb_spec o origin) as [->|]; simpl; [|tauto].
  intros H. apply in_app_or in H. destruct H as [H|H].
  - destruct v as [r0|r| |h0]; simpl in H; [destruct H| |destruct H|destruct H]. destruct H as [<-|[]]. exists t, r. split; [now left | reflexivity].
  - destruct (IH H) as (t' & r & H1 & H2). exists t', r. split; [now right | exact H2].
Qed.

Lemma In_sort_insert (x y : MapPointTransferInfo) (l : list MapPointTransferInfo) :
  In y (sort_insert x l) <-> y = x \/ In y l.
Proof.
  induction l as [|z l IH]; simpl; [split; intros; intuition congruence|].
  destruct (transfer_cmp z x); simpl; rewrite ?IH; split; intros; intuition congruence.
Qed.

Lemma In_std_sort (y : MapPointTransferInfo) (l : list MapPointTransferInfo) :
  In y (std_sort l) <-> In y l.
Proof.
  induction l as [|x l IH]; simpl; [tauto|]. rewrite In_sort_insert, IH.
  split; intros; intuition congruence.
Qed.

Lemma transfer_origins_range (s : store) :
  forallb (fun e => match fst e with KTransfer o _ => (0 <=? o) && (o <? 2 ^ 256) | _ => true end) s
    = true ->
  forall o t v, In (KTransfer o t, v) s -> 0 <= o < 2 ^ 256.
Proof.
  intros H o t v Hin. rewrite forallb_forall in H. specialize (H _ Hin). simpl in H.
  apply andb_true_iff in H. destruct H as [H1 H2]. apply Z.leb_le in H1. apply Z.ltb_lt in H2. lia.
Qed.

Lemma remove_origin_walk_app (origin : Z) (L1 L2 : store) :
  (forall x, In x L1 -> match fst x with KTransfer o _ => o =? origin | _ => false end = true) ->
  forall op, In op (remove_origin_walk origin L2) -> In op (remove_origin_walk origin (L1 ++ L2)).
Proof.
  induction L1 as [|[k v] L1 IH]; intros HL op Hop; [exact Hop|].
  pose proof (HL _ (or_introl eq_refl)) as Hk. simpl in Hk.
  destruct k; try discriminate. cbn [app remove_origin_walk]. rewrite Hk. cbn [negb].
  apply in_or_app. right. right. apply IH; [intros x Hx; apply HL; now right | exact Hop].
Qed.

Lemma remove_origin_walk_keys (origin : Z) (cur : store) (op : batch_op) :
  In op (remove_origin_walk origin cur) ->
  exists k, op = BErase k /\
    match k with KTransfer o _ | KTransferHeight _ o _ => o = origin | _ => False end.
Proof.
  induction cur as [|[k v] cur IH]; simpl; [tauto|].
  destruct k as [t0|h0 t0|w0 t0|o t|h0 o0 t0|]; simpl; try tauto.
  destruct (Z.eqb_spec o origin) as [->|]; simpl; [|tauto].
  intros Hop. apply in_app_iff in Hop. destruct Hop as [Hop|[<-|Hop]].
  - destruct v; simpl in Hop; try tauto. destruct Hop as [<-|[]].
    eexists. split; [reflexivity | reflexivity].
  - eexists. split; [reflexivity | reflexivity].
  - now apply IH.
Qed.

Lemma db_read_transfer_gone (s : store) (origin t : Z) :
  0 <= origin < 2 ^ 256 -> (forall o t' v, In (KTransfer o t', v) s -> 0 <= o < 2 ^ 256) ->
  db_read (KTransfer origin t) (apply_batch s (remove_origin_walk origin (seek s (KTransfer origin 0))))
    = None.
Proof.
  intros Ho Hs.
  assert (He : erase_only (remove_origin_walk origin (seek s (KTransfer origin 0)))).
  { intros op Hop. destruct (remove_origin_walk_keys _ _ _ Hop) as (k & -> & _). now exists k. }
  destruct (db_read (KTransfer origin t) s) as [v|] eqn:Ev.
  - apply erase_only_in; [exact He|].
    apply db_read_In in Ev.
    destruct (transfer_prefix s origin t v Ho Hs Ev) as (L1 & L2 & E & HL1).
    rewrite E. apply remove_origin_walk_app; [exact HL1|].
    cbn [remove_origin_walk]. rewrite Z.eqb_refl. cbn [negb].
    apply in_or_app. right. now left.
  - now apply erase_only_none.
Qed.

Lemma GetTransfers_complete (d : DB) (origin t : Z) (r : TransferRecord) :
  0 <= origin < 2 ^ 256 -> (forall o t' v, In (KTransfer o t', v) (db_store d) -> 0 <= o < 2 ^ 256) ->
  In (KTransfer origin t, VTransfer r) (db_store d) ->
  In {| transfer_txid := t; info_height := to_int (tr_height r); info_new_owner := new_owner r |}
     (GetTransfers d origin).
Proof.
  intros Ho Hr Hin. unfold GetTransfers, ReadTransfers. rewrite In_std_sort.
  destruct (transfer_prefix _ origin t _ Ho Hr Hin) as (L1 & L2 & E & HL1).
  rewrite E, read_transfers_walk_app by exact HL1. apply in_or_app. right.
  cbn [read_transfers_walk]. rewrite Z.eqb_refl. cbn [negb]. now left.
Qed.

(** [GetTransfers] lists exactly the transfer records stored for the origin,
    each as its transfer txid, height and new owner. *)
Theorem GetTransfers_members (d : DB) (origin : Z) (i : MapPointTransferInfo) :
  0 <= origin < 2 ^ 256 ->
  forallb (fun e => match fst e with KTransfer o _ => (0 <=? o) && (o <? 2 ^ 256) | _ => true end)
    (db_store d) = true ->
  In i (GetTransfers d origin) <->
  exists t r, In (KTransfer origin t, VTransfer r) (db_store d) /\
    i = {| transfer_txid := t; info_height := to_int (tr_height r); info_new_owner := new_owner r |}.
Proof.
  intros Ho Hs. pose proof (transfer_origins_range _ Hs) as Hr.
  unfold GetTransfers, ReadTransfers. rewrite In_std_sort. split.
  - intros H. destruct (read_transfers_walk_sound _ _ _ H) as (t & r & Hin & ->).
    exists t, r. split; [|reflexivity]. apply In_seek in Hin. tauto.
  - intros (t & r & Hin & ->). rewrite <- In_std_sort.
    exact (GetTransfers_complete d origin t r Ho Hr Hin).
Qed.

(** A successful [RemoveAllTransfersForOrigin] leaves the origin with no
    transfer record and no transfer-height entry of a record it had, and
    changes no key of another origin or of another keyspace. *)
Theorem RemoveAllTransfersForOrigin_clears (d d' : DB) (origin : Z) :
  0 <= origin < 2 ^ 256 ->
  forallb (fun e => match fst e with KTransfer o _ => (0 <=? o) && (o <? 2 ^ 256) | _ => true end)
    (db_store d) = true ->
  RemoveAllTransfersForOrigin d origin = (true, d') ->
  GetTransfers d' origin = [] /\
  (forall t, read_transfer (db_store d') origin t = None) /\
  (forall t r, In (KTransfer origin t, VTransfer r) (db_store d) ->
     db_read (KTransferHeight (tr_height r) origin t) (db_store d') = None) /\
  (forall k, match k with KTransfer o _ | KTransferHeight _ o _ => o <> origin | _ => True end ->
     db_read k (db_store d') = db_read k (db_store d)).
Proof.
  intros Ho Hs E. pose proof (transfer_origins_range _ Hs) as Hr.
  unfold RemoveAllTransfersForOrigin in E. apply WriteBatch_true in E.
  assert (Hgone : forall t, db_read (KTransfer origin t) (db_store d') = None).
  { intros t. rewrite E. now apply db_read_transfer_gone. }
  split; [|split; [|split]].
  - destruct (GetTransfers d' origin) as [|i l] eqn:EG; [reflexivity|]. exfalso.
    assert (Hi : In i (GetTransfers d' origin)) by (rewrite EG; now left).
    unfold GetTransfers, ReadTransfers in Hi. rewrite In_std_sort in Hi.
    destruct (read_transfers_walk_sound _ _ _ Hi) as (t & r & Hin & _).
    apply In_seek in Hin. destruct Hin as [Hin _].
    exact (In_db_read _ _ _ Hin (Hgone t)).
  - intros t. unfold read_transfer. now rewrite Hgone.
  - intros t r Hin. rewrite E. apply erase_only_in.
    + intros op Hop. destruct (remove_origin_walk_keys _ _ _ Hop) as (k & -> & _). now exists k.
    + destruct (transfer_prefix _ origin t _ Ho Hr Hin) as (L1 & L2 & E2 & HL1).
      rewrite E2. apply remove_origin_walk_app; [exact HL1|].
      cbn [remove_origin_walk]. rewrite Z.eqb_refl. cbn [negb]. now left.
  - intros k Hk. rewrite E. apply apply_batch_other. intros op Hop Ek.
    destruct (remove_origin_walk_keys _ _ _ Hop) as (k' & -> & Hk'). simpl in Ek. subst k'.
    destruct k; tauto.
Qed.

(** *** Owner keys: a serialized string is never a prefix of another *)

Lemma lex_ltb_diverge (p a' b' x y : list Z) (u v : Z) :
  u <> v -> lex_ltb ((p ++ u :: a') ++ x) ((p ++ v :: b') ++ y) = (u <? v).
Proof.
  intros Huv. induction p as [|z p IH]; simpl.
  - destruct (Z.eqb_spec u v); [contradiction|]. cbn [andb]. apply orb_false_r.
  - rewrite Z.ltb_irrefl, Z.eqb_refl. exact IH.
Qed.

Lemma diverge_app (a b x y : list Z) :
  (exists p u v a' b', a = p ++ u :: a' /\ b = p ++ v :: b' /\ u <> v) ->
  lex_ltb (a ++ x) (b ++ y) = lex_ltb a b.
Proof.
  intros (p & u & v & a' & b' & -> & -> & Huv).
  rewrite lex_ltb_diverge by exact Huv.
  rewrite <- (app_nil_r (p ++ u :: a')), <- (app_nil_r (p ++ v :: b')).
  now rewrite lex_ltb_diverge.
Qed.

Lemma diverge_neq (a b : list Z) :
  (exists p u v a' b', a = p ++ u :: a' /\ b = p ++ v :: b' /\ u <> v) -> a <> b.
Proof.
  intros (p & u & v & a' & b' & -> & -> & Huv) E.
  apply app_inv_head in E. congruence.
Qed.

Lemma diverge_sym (a b : list Z) :
  (exists p u v a' b', a = p ++ u :: a' /\ b = p ++ v :: b' /\ u <> v) ->
  (exists p u v a' b', b = p ++ u :: a' /\ a = p ++ v :: b' /\ u <> v).
Proof. intros (p & u & v & a' & b' & E1 & E2 & H). exists p, v, u, b', a'. auto. Qed.

Lemma diverge_cons (z : Z) (a b : list Z) :
  (exists p u v a' b', a = p ++ u :: a' /\ b = p ++ v :: b' /\ u <> v) ->
  (exists p u v a' b', z :: a = p ++ u :: a' /\ z :: b = p ++ v :: b' /\ u <> v).
Proof.
  intros (p & u & v & a' & b' & -> & -> & H). exists (z :: p), u, v, a', b'. auto.
Qed.

Lemma diverge_head (u v : Z) (a b : list Z) :
  u <> v -> (exists p u' v' a' b', u :: a = p ++ u' :: a' /\ v :: b = p ++ v' :: b' /\ u' <> v').
Proof. intros H. exists [], u, v, a, b. auto. Qed.

Lemma diverge_prefix (c a b : list Z) :
  (exists p u v a' b', a = p ++ u :: a' /\ b = p ++ v :: b' /\ u <> v) ->
  (exists p u v a' b', c ++ a = p ++ u :: a' /\ c ++ b = p ++ v :: b' /\ u <> v).
Proof.
  intros H. induction c as [|z c IH]; [exact H|]. now apply diverge_cons.
Qed.

Lemma diverge_suffix (a b x y : list Z) :
  (exists p u v a' b', a = p ++ u :: a' /\ b = p ++ v :: b' /\ u <> v) ->
  (exists p u v a' b', a ++ x = p ++ u :: a' /\ b ++ y = p ++ v :: b' /\ u <> v).
Proof.
  intros (p & u & v & a' & b' & -> & -> & H). exists p, u, v, (a' ++ x), (b' ++ y).
  rewrite <- !app_assoc. auto.
Qed.

Lemma diverge_eq_length (a b : list Z) :
  List.length a = List.length b -> a <> b ->
  (exists p u v a' b', a = p ++ u :: a' /\ b = p ++ v :: b' /\ u <> v).
Proof.
  revert b; induction a as [|x a IH]; intros [|y b] Hl Hne; simpl in Hl; try discriminate.
  - congruence.
  - destruct (Z.eq_dec x y) as [->|Hxy].
    + apply diverge_cons, IH; [lia | congruence].
    + now apply diverge_head.
Qed.

Lemma string_bytes_length (s : string) : List.length (string_bytes s) = String.length s.
Proof. induction s as [|c s IH]; simpl; congruence. Qed.

Lemma string_bytes_inj (s s' : string) : string_bytes s = string_bytes s' -> s = s'.
Proof.
  revert s'; induction s as [|c s IH]; intros [|c' s'] E; simpl in E; try discriminate; [reflexivity|].
  injection E as Ec Es. apply Nat2Z.inj in Ec.
  rewrite <- (ascii_nat_embedding c), <- (ascii_nat_embedding c'), Ec. f_equal. now apply IH.
Qed.

Lemma le_bytes_inj (k : nat) (a b : Z) :
  0 <= a < 256 ^ Z.of_nat k -> 0 <= b < 256 ^ Z.of_nat k -> le_bytes k a = le_bytes k b -> a = b.
Proof.
  intros Ha Hb E.
  pose proof (be_value_le_bytes k a) as Ea. pose proof (be_value_le_bytes k b) as Eb.
  rewrite E, Eb in Ea. rewrite !Z.mod_small in Ea by assumption. congruence.
Qed.

Lemma compact_size_diverge (n1 n2 : Z) :
  0 <= n1 < 2 ^ 64 -> 0 <= n2 < 2 ^ 64 -> n1 <> n2 ->
  (exists p u v a' b', compact_size n1 = p ++ u :: a' /\ compact_size n2 = p ++ v :: b' /\ u <> v).
Proof.
  intros H1 H2 Hne. unfold compact_size.
  destruct (Z.ltb_spec n1 253), (Z.ltb_spec n2 253);
    try destruct (Z.leb_spec n1 65535); try destruct (Z.leb_spec n2 65535);
    try destruct (Z.leb_spec n1 4294967295); try destruct (Z.leb_spec n2 4294967295);
    try (apply diverge_head; lia);
    apply diverge_cons, diverge_eq_length; try (rewrite !le_bytes_length; reflexivity);
    intros E; apply le_bytes_inj in E; cbn; lia.
Qed.

Lemma ser_string_diverge (o o' : string) :
  Z.of_nat (String.length o) < 2 ^ 64 -> Z.of_nat (String.length o') < 2 ^ 64 -> o <> o' ->
  (exists p u v a' b', ser_string o = p ++ u :: a' /\ ser_string o' = p ++ v :: b' /\ u <> v).
Proof.
  intros H1 H2 Hne. unfold ser_string.
  destruct (Nat.eq_dec (String.length o) (String.length o')) as [E|E].
  - rewrite E. apply diverge_prefix, diverge_eq_length.
    + now rewrite !string_bytes_length.
    + intros Eb. apply Hne. now apply string_bytes_inj.
  - apply diverge_suffix, compact_size_diverge; lia.
Qed.

(** Past the seek position of an owner, every key outside that owner's
    keyspace comes after the whole keyspace. *)
Lemma owner_key_before (owner : string) (t : Z) (k : dbkey) :
  Z.of_nat (String.length owner) < 2 ^ 64 ->
  (forall o t', k = KOwner o t' -> Z.of_nat (String.length o) < 2 ^ 64) ->
  key_ltb k (KOwner owner 0) = false ->
  match k with KOwner o _ => String.eqb o owner | _ => false end = false ->
  key_ltb (KOwner owner t) k = true.
Proof.
  intros Ho Hk Hge Hne.
  destruct k as [t'|h t'|o t'|o t'|h o t'|]; unfold key_ltb, ser_key in *; cbn [lex_ltb] in *;
    unfold DB_POINT, DB_HEIGHT, DB_OWNER, DB_TRANSFER, DB_TRANSFER_HEIGHT, DB_BEST_BLOCK in *;
    try (cbn [Z.ltb Z.compare Pos.compare Pos.compare_cont orb] in Hge; discriminate);
    try reflexivity.
  rewrite Z.ltb_irrefl, Z.eqb_refl in *. cbn [orb andb] in *.
  specialize (Hk o t' eq_refl). apply String.eqb_neq in Hne.
  pose proof (ser_string_diverge o owner Hk Ho Hne) as Hd.
  rewrite diverge_app in Hge by exact Hd.
  rewrite diverge_app by now apply diverge_sym.
  destruct (lex_ltb (ser_string owner) (ser_string o)) eqn:E; [reflexivity|].
  exfalso. apply (diverge_neq _ _ Hd). apply lex_ltb_eq_total; assumption.
Qed.

Lemma owner_key_in_seek (owner : string) (t : Z) :
  key_ltb (KOwner owner t) (KOwner owner 0) = false.
Proof.
  unfold key_ltb, ser_key. cbn [lex_ltb]. rewrite Z.ltb_irrefl, Z.eqb_refl. cbn [orb andb].
  rewrite lex_ltb_app_same. apply blob_zero_least.
Qed.

Lemma owner_prefix (s : store) (owner : string) (t : Z) (v : dbval) :
  (forall o t' v', In (KOwner o t', v') s -> Z.of_nat (String.length o) < 2 ^ 64) ->
  In (KOwner owner t, v) s ->
  exists L1 L2, seek s (KOwner owner 0) = L1 ++ (KOwner owner t, v) :: L2 /\
    (forall x, In x L1 -> match fst x with KOwner o _ => String.eqb o owner | _ => false end = true).
Proof.
  intros Hs Hin.
  apply (sorted_prefix (fun k => match k with KOwner o _ => String.eqb o owner | _ => false end));
    [apply seek_sorted | |].
  - apply In_seek. split; [exact Hin | apply owner_key_in_seek].
  - intros [k v'] Hk Hp. apply In_seek in Hk. destruct Hk as [Hk Hge]. cbn [fst] in *.
    apply owner_key_before; try assumption.
    + exact (Hs owner t v Hin).
    + intros o t' ->. now apply (Hs o t' v').
Qed.

Lemma read_owner_walk_app (s : store) (owner : string) (start stop : Z) (L1 L2 : store) :
  (forall x, In x L1 -> match fst x with KOwner o _ => String.eqb o owner | _ => false end = true) ->
  forall i, In i (read_owner_walk s owner start stop L2) ->
  In i (read_owner_walk s owner start stop (L1 ++ L2)).
Proof.
  induction L1 as [|[k v] L1 IH]; intros HL i Hi; [exact Hi|].
  pose proof (HL _ (or_introl eq_refl)) as Hk. simpl in Hk.
  destruct k; try discriminate. cbn [app read_owner_walk]. rewrite Hk. cbn [negb].
  assert (IH' : In i (read_owner_walk s owner start stop (L1 ++ L2)))
    by (apply IH; [intros x Hx; apply HL; now right | exact Hi]).
  destruct (ReadPoint s txid); [|exact IH'].
  destruct (_ && _); [now right | exact IH'].
Qed.

Lemma read_owner_walk_sound (s : store) (owner : string) (start stop : Z) (L : store)
  (i : MapPointInfo) :
  In i (read_owner_walk s owner start stop L) ->
  exists t v r, In (KOwner owner t, v) L /\ ReadPoint s t = Some r /\
    start <= height r <= stop /\ i = MakeInfo t r.
Proof.
  induction L as [|[k v] L IH]; simpl; [tauto|].
  destruct k as [t0|h0 t0|o t|o0 t0|h0 o0 t0|]; simpl; try tauto.
  destruct (String.eqb_spec o owner) as [->|]; simpl; [|tauto].
  intros H.
  assert (Hrest : In i (read_owner_walk s owner start stop L) ->
    exists t' v' r, ((KOwner owner t, v) = (KOwner owner t', v') \/ In (KOwner owner t', v') L) /\
      ReadPoint s t' = Some r /\ start <= height r <= stop /\ i = MakeInfo t' r).
  { intros H'. destruct (IH H') as (t' & v' & r & H1 & H2 & H3 & H4). exists t', v', r. auto. }
  destruct (ReadPoint s t) as [r|] eqn:Er; [|now apply Hrest].
  destruct (Z.leb_spec start (height r)), (Z.leb_spec (height r) stop); simpl in H;
    try (now apply Hrest).
  destruct H as [<-|H]; [|now apply Hrest].
  exists t, v, r. repeat split; auto; lia.
Qed.

Lemma owner_lengths (s : store) :
  forallb (fun e => match fst e with KOwner o _ => Z.of_nat (String.length o) <? 2 ^ 64 | _ => true end)
    s = true ->
  forall o t v, In (KOwner o t, v) s -> Z.of_nat (String.length o) < 2 ^ 64.
Proof.
  intros H o t v Hin. rewrite forallb_forall in H. specialize (H _ Hin). simpl in H.
  now apply Z.ltb_lt in H.
Qed.

(** [GetPointsForOwner] returns exactly the points that have an owner-index
    entry of one of the owners and a stored record whose height lies in the
    clamped range. *)
Theorem GetPointsForOwner_members (d : DB) (owners : list string) (from_height to_height : Z)
  (info : MapPointInfo) :
  forallb (fun e => match fst e with KOwner o _ => Z.of_nat (String.length o) <? 2 ^ 64 | _ => true end)
    (db_store d) = true ->
  In info (GetPointsForOwner d owners from_height to_height) <->
  exists o t v r, In o owners /\ In (KOwner o t, v) (db_store d) /\
    ReadPoint (db_store d) t = Some r /\
    from_bound from_height <= height r <= to_bound to_height /\ info = MakeInfo t r.
Proof.
  intros Hs. pose proof (owner_lengths _ Hs) as Hl.
  assert (E : GetPointsForOwner d owners from_height to_height =
              ReadOwners (db_store d) owners (from_bound from_height) (to_bound to_height))
    by (destruct owners; reflexivity).
  rewrite E. unfold ReadOwners. rewrite in_flat_map. split.
  - intros (o & Ho & Hi). destruct (read_owner_walk_sound _ _ _ _ _ _ Hi) as (t & v & r & H1 & H2 & H3 & H4).
    apply In_seek in H1. exists o, t, v, r. tauto.
  - intros (o & t & v & r & Ho & Hin & Hr & Hb & ->). exists o. split; [exact Ho|].
    destruct (owner_prefix _ o t v Hl Hin) as (L1 & L2 & E2 & HL1).
    rewrite E2. apply read_owner_walk_app; [exact HL1|].
    cbn [read_owner_walk]. rewrite String.eqb_refl. cbn [negb]. rewrite Hr.
    destruct (Z.leb_spec (from_bound from_height) (height r)); [|lia].
    destruct (Z.leb_spec (height r) (to_bound to_height)); [|lia]. now left.
Qed.

Lemma read_by_height_walk_sound (s : store) (stop : Z) (L : store) (i : MapPointInfo) :
  In i (read_by_height_walk s stop L) ->
  exists h t v r, In (KHeight h t, v) L /\ h <= stop /\ ReadPoint s t = Some r /\ i = MakeInfo t r.
Proof.
  induction L as [|[k v] L IH]; simpl; [tauto|].
  destruct k as [t0|h t|o0 t0|o0 t0|h0 o0 t0|]; simpl; try tauto.
  destruct (Z.ltb_spec stop h) as [Hs|Hs]; simpl; [tauto|].
  intros Hi.
  assert (Hrest : In i (read_by_height_walk s stop L) ->
    exists h' t' v' r, ((KHeight h t, v) = (KHeight h' t', v') \/ In (KHeight h' t', v') L) /\
      h' <= stop /\ ReadPoint s t' = Some r /\ i = MakeInfo t' r).
  { intros H'. destruct (IH H') as (h' & t' & v' & r & H1 & H2 & H3 & H4). exists h', t', v', r. auto. }
  destruct (ReadPoint s t) as [r|] eqn:Er; [|now apply Hrest].
  destruct Hi as [<-|Hi]; [|now apply Hrest].
  exists h, t, v, r. auto.
Qed.

(** Every point [GetPointsInHeightRange] returns has a stored record and a
    height-index entry at a height not above the clamped upper bound. *)
Theorem GetPointsInHeightRange_sound (d : DB) (from_height to_height : Z) (info : MapPointInfo) :
  In info (GetPointsInHeightRange d from_height to_height) ->
  exists h t v r, In (KHeight h t, v) (db_store d) /\ h <= to_bound to_height /\
    ReadPoint (db_store d) t = Some r /\ info = MakeInfo t r.
Proof.
  unfold GetPointsInHeightRange, ReadByHeight. intros H.
  destruct (read_by_height_walk_sound _ _ _ _ H) as (h & t & v & r & H1 & H2 & H3 & H4).
  apply In_seek in H1. exists h, t, v, r. tauto.
Qed.

(** *** The write paths *)

Lemma apply_batch_keeps_value (k : dbkey) (v : dbval) (s : store) (b : list batch_op) :
  db_read k s = Some v -> (forall op, In op b -> op_key op = k -> op = BWrite k v) ->
  db_read k (apply_batch s b) = Some v.
Proof.
  revert s. induction b as [|op b IH]; intros s Hs Hb; [exact Hs|].
  rewrite apply_batch_cons. apply IH; [|intros op' H; apply Hb; now right].
  destruct (dbkey_eqb k (op_key op)) eqn:E.
  - apply dbkey_eqb_eq in E. rewrite (Hb op (or_introl eq_refl) (eq_sym E)).
    unfold apply_op. rewrite db_read_write, (proj2 (dbkey_eqb_eq k k) eq_refl). reflexivity.
  - destruct op as [k' v'|k']; unfold apply_op; simpl in E;
      [rewrite db_read_write | rewrite db_read_erase]; now rewrite E.
Qed.

(** A key every operation of the batch on it writes with [v], and some
    does, reads [v] afterwards. *)
Lemma apply_batch_only_write (k : dbkey) (v : dbval) (s : store) (b : list batch_op) :
  In (BWrite k v) b -> (forall op, In op b -> op_key op = k -> op = BWrite k v) ->
  db_read k (apply_batch s b) = Some v.
Proof.
  revert s. induction b as [|op b IH]; intros s Hin Hb; [destruct Hin|].
  rewrite apply_batch_cons. destruct Hin as [->|Hin].
  - apply apply_batch_keeps_value; [|intros op' H; apply Hb; now right].
    unfold apply_op. rewrite db_read_write, (proj2 (dbkey_eqb_eq k k) eq_refl). reflexivity.
  - apply IH; [exact Hin | intros op' H; apply Hb; now right].
Qed.

Lemma nodup_fst_unique {V} (l : list (Z * V)) (t : Z) (r r' : V) :
  NoDup (map fst l) -> In (t, r) l -> In (t, r') l -> r = r'.
Proof.
  induction l as [|[t0 r0] l IH]; simpl; [tauto|]. intros Hnd H1 H2.
  inversion Hnd as [|? ? Hn Hnd']; subst.
  destruct H1 as [E1|H1], H2 as [E2|H2].
  - congruence.
  - injection E1 as -> ->. exfalso. apply Hn, in_map_iff. now exists (t, r').
  - injection E2 as -> ->. exfalso. apply Hn, in_map_iff. now exists (t, r).
  - now apply IH.
Qed.

Lemma point_ops_txid (t : Z) (r : PointRecord) (a : batch_op) :
  In a (point_ops (t, r)) ->
  match op_key a with KPoint t' | KHeight _ t' | KOwner _ t' => t' = t | _ => False end.
Proof.
  unfold point_ops. destruct (String.eqb (current_owner r) ""); simpl; intros Ha;
    repeat destruct Ha as [<-|Ha]; try contradiction; reflexivity.
Qed.

Lemma point_ops_key_inj (e : Z * PointRecord) (a b : batch_op) :
  In a (point_ops e) -> In b (point_ops e) -> op_key a = op_key b -> a = b.
Proof.
  destruct e as [t r]. unfold point_ops. destruct (String.eqb (current_owner r) ""); simpl;
    intros Ha Hb E; repeat destruct Ha as [<-|Ha]; try contradiction;
    repeat destruct Hb as [<-|Hb]; try contradiction; simpl in E; congruence.
Qed.

Lemma point_ops_only (recs : list (Z * PointRecord)) (t : Z) (r : PointRecord) (k : dbkey) (v : dbval) :
  NoDup (map fst recs) -> In (t, r) recs -> In (BWrite k v) (point_ops (t, r)) ->
  forall op, In op (flat_map point_ops recs) -> op_key op = k -> op = BWrite k v.
Proof.
  intros Hnd Hin Hk op Hop Ek. apply in_flat_map in Hop. destruct Hop as [[t' r'] [Hin' Hop]].
  assert (Ht : t' = t).
  { pose proof (point_ops_txid _ _ _ Hk) as H1. pose proof (point_ops_txid _ _ _ Hop) as H2.
    rewrite Ek in H2. simpl in H1. destruct k; try contradiction; congruence. }
  subst t'. rewrite (nodup_fst_unique _ _ _ _ Hnd Hin' Hin) in Hop.
  apply (point_ops_key_inj _ _ _ Hop Hk). exact Ek.
Qed.

(** After a successful [WritePoints] of records with distinct txids, each
    record reads back, with its height-index entry and, when its owner is
    non-empty, its owner-index entry. *)
Theorem WritePoints_written (d d' : DB) (records : list (Z * PointRecord)) (t : Z) (r : PointRecord) :
  WritePoints d records = (true, d') -> NoDup (map fst records) -> In (t, r) records ->
  ReadPoint (db_store d') t = Some r /\
  db_read (KHeight (height r) t) (db_store d') = Some VFlag /\
  (current_owner r <> ""%string -> db_read (KOwner (current_owner r) t) (db_store d') = Some VFlag).
Proof.
  intros E Hnd Hin.
  assert (Hw : WriteBatch d (flat_map point_ops records) = (true, d'))
    by (destruct records; [destruct Hin | exact E]).
  apply WriteBatch_true in Hw. rewrite Hw.
  assert (Hops : forall k v, In (BWrite k v) (point_ops (t, r)) ->
            db_read k (apply_batch (db_store d) (flat_map point_ops records)) = Some v).
  { intros k v Hk. apply apply_batch_only_write.
    - apply in_flat_map. now exists (t, r).
    - exact (point_ops_only _ _ _ _ _ Hnd Hin Hk). }
  split; [|split].
  - unfold ReadPoint. rewrite (Hops _ (VPoint r)); [reflexivity | now left].
  - apply Hops. right. now left.
  - intros Ho. apply Hops. unfold point_ops. apply in_or_app. right.
    apply String.eqb_neq in Ho. rewrite Ho. now left.
Qed.

Lemma owner_index_ops_keys_of (o n : string) (t : Z) (op : batch_op) :
  In op (owner_index_ops o n t) ->
  (op = BErase (KOwner o t) /\ o <> ""%string) \/ (op = BWrite (KOwner n t) VFlag /\ n <> ""%string).
Proof.
  unfold owner_index_ops. intros H. apply in_app_or in H.
  destruct (String.eqb_spec o ""), (String.eqb_spec n ""); simpl in H; intuition.
Qed.

(** A successful [UpdateOwnerIndex] gives the new owner its owner-index
    entry, removes the old owner's entry when the owners differ, and
    changes no other key. *)
Theorem UpdateOwnerIndex_effect (d d' : DB) (old_owner new_owner : string) (origin : Z) :
  UpdateOwnerIndex d old_owner new_owner origin = (true, d') ->
  (new_owner <> ""%string -> db_read (KOwner new_owner origin) (db_store d') = Some VFlag) /\
  (old_owner <> ""%string -> old_owner <> new_owner ->
     db_read (KOwner old_owner origin) (db_store d') = None) /\
  (forall k, k <> KOwner old_owner origin -> k <> KOwner new_owner origin ->
     db_read k (db_store d') = db_read k (db_store d)).
Proof.
  intros E. unfold UpdateOwnerIndex in E. apply WriteBatch_true in E. rewrite E.
  split; [|split].
  - intros Hn. unfold owner_index_ops. apply String.eqb_neq in Hn. rewrite Hn, apply_batch_app.
    apply (apply_batch_written _ _ _ []). simpl. tauto.
  - intros Ho Hne. unfold owner_index_ops. apply String.eqb_neq in Ho. rewrite Ho, apply_batch_app.
    rewrite apply_batch_other.
    + unfold apply_batch. cbn [fold_left apply_op]. rewrite db_read_erase.
      now rewrite (proj2 (dbkey_eqb_eq _ _) eq_refl).
    + intros op Hop Ek. destruct (String.eqb new_owner ""); simpl in Hop; [contradiction|].
      destruct Hop as [<-|[]]. simpl in Ek. injection Ek as Ek. congruence.
  - intros k H1 H2. apply apply_batch_other. intros op Hop Ek.
    destruct (owner_index_ops_keys_of _ _ _ _ Hop) as [[-> _]|[-> _]]; simpl in Ek; congruence.
Qed.

Lemma In_apply_batch (k : dbkey) (v : dbval) (s : store) (b : list batch_op) :
  In (k, v) (apply_batch s b) -> In (k, v) s \/ exists op, In op b /\ op_key op = k.
Proof.
  revert s. induction b as [|op b IH]; intros s H; [now left|].
  rewrite apply_batch_cons in H. destruct (IH _ H) as [H1|(op' & H1 & H2)].
  - destruct op as [k' v'|k']; unfold apply_op, db_write, db_erase in H1.
    + destruct H1 as [E|H1].
      * injection E as -> ->. right. exists (BWrite k v). split; [now left | reflexivity].
      * apply filter_In in H1. now left.
    + apply filter_In in H1. now left.
  - right. exists op'. split; [now right | exact H2].
Qed.

(** After a successful [WriteTransfer], the transfer record and its
    transfer-height entry read back, and [GetTransfers] of the origin lists
    the transfer. *)
Theorem WriteTransfer_GetTransfers (d d' : DB) (origin transfer : Z) (record : TransferRecord) :
  0 <= origin < 2 ^ 256 ->
  forallb (fun e => match fst e with KTransfer o _ => (0 <=? o) && (o <? 2 ^ 256) | _ => true end)
    (db_store d) = true ->
  WriteTransfer d origin transfer record = (true, d') ->
  read_transfer (db_store d') origin transfer = Some record /\
  db_read (KTransferHeight (tr_height record) origin transfer) (db_store d') = Some VFlag /\
  In {| transfer_txid := transfer; info_height := to_int (tr_height record);
        info_new_owner := new_owner record |} (GetTransfers d' origin).
Proof.
  intros Ho Hs E. pose proof (transfer_origins_range _ Hs) as Hr.
  unfold WriteTransfer in E. apply WriteBatch_true in E.
  assert (H1 : db_read (KTransfer origin transfer) (db_store d') = Some (VTransfer record)).
  { rewrite E. apply (apply_batch_written _ _ _ []). intros op [<-|[]]. discriminate. }
  assert (H2 : db_read (KTransferHeight (tr_height record) origin transfer) (db_store d') = Some VFlag).
  { rewrite E. apply (apply_batch_written _ _ _ [_]). intros op []. }
  split; [unfold read_transfer; now rewrite H1|]. split; [exact H2|].
  apply GetTransfers_complete; [exact Ho| |now apply db_read_In].
  intros o t' v Hin. rewrite E in Hin. apply In_apply_batch in Hin.
  destruct Hin as [Hin|(op & Hop & Ek)]; [exact (Hr _ _ _ Hin)|].
  destruct Hop as [<-|[<-|[]]]; simpl in Ek; [injection Ek as -> _; exact Ho | discriminate].
Qed.

(** *** Instances on the index fixtures *)

Lemma GetTransfers_members_witness :
  0 <= 10 < 2 ^ 256 /\
  forallb (fun e => match fst e with KTransfer o _ => (0 <=? o) && (o <? 2 ^ 256) | _ => true end)
    (db_store Fixtures.db_h300) = true /\
  (In {| transfer_txid := 30; info_height := 300; info_new_owner := "carol"%string |}
      (GetTransfers Fixtures.db_h300 10) <->
   exists t r, In (KTransfer 10 t, VTransfer r) (db_store Fixtures.db_h300) /\
     {| transfer_txid := 30; info_height := 300; info_new_owner := "carol"%string |} =
     {| transfer_txid := t; info_height := to_int (tr_height r); info_new_owner := new_owner r |}).
Proof.
  split; [lia|]. split; [vm_compute; reflexivity|].
  apply GetTransfers_members; [lia | vm_compute; reflexivity].
Defined.

Lemma RemoveAllTransfersForOrigin_clears_witness :
  0 <= 10 < 2 ^ 256 /\
  forallb (fun e => match fst e with KTransfer o _ => (0 <=? o) && (o <? 2 ^ 256) | _ => true end)
    (db_store Fixtures.db_h300) = true /\
  RemoveAllTransfersForOrigin Fixtures.db_h300 10 =
    (true, snd (RemoveAllTransfersForOrigin Fixtures.db_h300 10)) /\
  (GetTransfers (snd (RemoveAllTransfersForOrigin Fixtures.db_h300 10)) 10 = [] /\
   (forall t, read_transfer (db_store (snd (RemoveAllTransfersForOrigin Fixtures.db_h300 10))) 10 t
      = None) /\
   (forall t r, In (KTransfer 10 t, VTransfer r) (db_store Fixtures.db_h300) ->
      db_read (KTransferHeight (tr_height r) 10 t)
        (db_store (snd (RemoveAllTransfersForOrigin Fixtures.db_h300 10))) = None) /\
   (forall k, match k with KTransfer o _ | KTransferHeight _ o _ => o <> 10 | _ => True end ->
      db_read k (db_store (snd (RemoveAllTransfersForOrigin Fixtures.db_h300 10))) =
      db_read k (db_store Fixtures.db_h300))).
Proof.
  split; [lia|]. split; [vm_compute; reflexivity|]. split; [vm_compute; reflexivity|].
  apply RemoveAllTransfersForOrigin_clears; [lia | vm_compute; reflexivity | vm_compute; reflexivity].
Defined.

Lemma GetPointsForOwner_members_witness :
  forallb (fun e => match fst e with KOwner o _ => Z.of_nat (String.length o) <? 2 ^ 64 | _ => true end)
    (db_store Fixtures.db_h300) = true /\
  (In (MakeInfo 10 {| height := 5; origin_owner := "alice"; current_owner := "carol";
                      encoded_lat := 1; encoded_lon := 2 |})
      (GetPointsForOwner Fixtures.db_h300 ["carol"%string] 0 (-1)) <->
   exists o t v r, In o ["carol"%string] /\ In (KOwner o t, v) (db_store Fixtures.db_h300) /\
     ReadPoint (db_store Fixtures.db_h300) t = Some r /\
     from_bound 0 <= height r <= to_bound (-1) /\
     MakeInfo 10 {| height := 5; origin_owner := "alice"; current_owner := "carol";
                    encoded_lat := 1; encoded_lon := 2 |} = MakeInfo t r).
Proof.
  split; [vm_compute; reflexivity|]. apply GetPointsForOwner_members. vm_compute. reflexivity.
Defined.

Lemma GetPointsInHeightRange_sound_witness :
  In (MakeInfo 10 {| height := 5; origin_owner := "alice"; current_owner := "bob";
                     encoded_lat := 1; encoded_lon := 2 |})
     (GetPointsInHeightRange Fixtures.db_h256 0 (-1)) /\
  exists h t v r, In (KHeight h t, v) (db_store Fixtures.db_h256) /\ h <= to_bound (-1) /\
    ReadPoint (db_store Fixtures.db_h256) t = Some r /\
    MakeInfo 10 {| height := 5; origin_owner := "alice"; current_owner := "bob";
                   encoded_lat := 1; encoded_lon := 2 |} = MakeInfo t r.
Proof.
  assert (H : In (MakeInfo 10 {| height := 5; origin_owner := "alice"; current_owner := "bob";
                                 encoded_lat := 1; encoded_lon := 2 |})
                 (GetPointsInHeightRange Fixtures.db_h256 0 (-1)))
    by (vm_compute; left; reflexivity).
  split; [exact H|]. exact (GetPointsInHeightRange_sound _ _ _ _ H).
Defined.

Lemma WritePoints_written_witness :
  WritePoints Fixtures.empty_db
    [(10, {| height := 5; origin_owner := "alice"; current_owner := "alice";
             encoded_lat := 1; encoded_lon := 2 |});
     (11, {| height := 7; origin_owner := "bob"; current_owner := "carol";
             encoded_lat := 3; encoded_lon := 4 |})] =
    (true, snd (WritePoints Fixtures.empty_db
      [(10, {| height := 5; origin_owner := "alice"; current_owner := "alice";
               encoded_lat := 1; encoded_lon := 2 |});
       (11, {| height := 7; origin_owner := "bob"; current_owner := "carol";
               encoded_lat := 3; encoded_lon := 4 |})])) /\
  NoDup [10; 11] /\
  (let d' := snd (WritePoints Fixtures.empty_db
      [(10, {| height := 5; origin_owner := "alice"; current_owner := "alice";
               encoded_lat := 1; encoded_lon := 2 |});
       (11, {| height := 7; origin_owner := "bob"; current_owner := "carol";
               encoded_lat := 3; encoded_lon := 4 |})]) in
   let r := {| height := 7; origin_owner := "bob"; current_owner := "carol";
               encoded_lat := 3; encoded_lon := 4 |} in
   ReadPoint (db_store d') 11 = Some r /\
   db_read (KHeight (height r) 11) (db_store d') = Some VFlag /\
   (current_owner r <> ""%string -> db_read (KOwner (current_owner r) 11) (db_store d') = Some VFlag)).
Proof.
  split; [reflexivity|]. split; [repeat constructor; simpl; lia|].
  cbv zeta.
  apply (WritePoints_written Fixtures.empty_db _
    [(10, {| height := 5; origin_owner := "alice"; current_owner := "alice";
             encoded_lat := 1; encoded_lon := 2 |});
     (11, {| height := 7; origin_owner := "bob"; current_owner := "carol";
             encoded_lat := 3; encoded_lon := 4 |})]).
  - reflexivity.
  - simpl. repeat constructor; simpl; lia.
  - right. now left.
Defined.

Lemma UpdateOwnerIndex_effect_witness :
  UpdateOwnerIndex Fixtures.db_h5 "alice" "bob" 10 =
    (true, snd (UpdateOwnerIndex Fixtures.db_h5 "alice" "bob" 10)) /\
  ("bob"%string <> ""%string ->
     db_read (KOwner "bob" 10) (db_store (snd (UpdateOwnerIndex Fixtures.db_h5 "alice" "bob" 10)))
       = Some VFlag) /\
  ("alice"%string <> ""%string -> "alice"%string <> "bob"%string ->
     db_read (KOwner "alice" 10) (db_store (snd (UpdateOwnerIndex Fixtures.db_h5 "alice" "bob" 10)))
       = None) /\
  (forall k, k <> KOwner "alice" 10 -> k <> KOwner "bob" 10 ->
     db_read k (db_store (snd (UpdateOwnerIndex Fixtures.db_h5 "alice" "bob" 10))) =
     db_read k (db_store Fixtures.db_h5)).
Proof.
  split; [reflexivity|]. apply UpdateOwnerIndex_effect. reflexivity.
Defined.

Lemma WriteTransfer_GetTransfers_witness :
  0 <= 10 < 2 ^ 256 /\
  forallb (fun e => match fst e with KTransfer o _ => (0 <=? o) && (o <? 2 ^ 256) | _ => true end)
    (db_store Fixtures.db_h5) = true /\
  WriteTransfer Fixtures.db_h5 10 20 {| tr_height := 256; new_owner := "bob"; previous_owner := "alice" |} =
    (true, snd (WriteTransfer Fixtures.db_h5 10 20
                  {| tr_height := 256; new_owner := "bob"; previous_owner := "alice" |})) /\
  (read_transfer (db_store (snd (WriteTransfer Fixtures.db_h5 10 20
       {| tr_height := 256; new_owner := "bob"; previous_owner := "alice" |}))) 10 20 =
     Some {| tr_height := 256; new_owner := "bob"; previous_owner := "alice" |} /\
   db_read (KTransferHeight 256 10 20) (db_store (snd (WriteTransfer Fixtures.db_h5 10 20
       {| tr_height := 256; new_owner := "bob"; previous_owner := "alice" |}))) = Some VFlag /\
   In {| transfer_txid := 20; info_height := to_int 256; info_new_owner := "bob" |}
     (GetTransfers (snd (WriteTransfer Fixtures.db_h5 10 20
       {| tr_height := 256; new_owner := "bob"; previous_owner := "alice" |})) 10)).
Proof.
  split; [lia|]. split; [vm_compute; reflexivity|]. split; [reflexivity|].
  apply (WriteTransfer_GetTransfers Fixtures.db_h5 _ 10 20
           {| tr_height := 256; new_owner := "bob"; previous_owner := "alice" |});
    [lia | vm_compute; reflexivity | reflexivity].
Defined.

End IndexQueries.

(* ------------------------------------------------------------------ *)
(** ** Governance: request slots, rate status, maintenance *)

Module GovFacts.
Import Governance InventoryFacts GovLifecycle.

(** Every store the manager reaches from the empty store satisfies the
    invariant relating its object maps. *)
Theorem gov_inv_reachable (s : GovStore) : gov_steps empty_store s -> gov_inv s.
Proof. intros H. exact (inv_steps _ _ H inv_empty). Qed.

Lemma mem_map_erase {V} (h : Z) (l : list (Z * V)) : mem h (map_erase h l) = false.
Proof.
  apply mem_false. intros Hin. apply in_map_iff in Hin. destruct Hin as ([k v] & Ek & Hin).
  simpl in Ek. subst k. apply filter_In in Hin. destruct Hin as [_ Hf]. simpl in Hf.
  now rewrite Z.eqb_refl in Hf.
Qed.

(** A confirmed inventory request opens one slot: the first message with
    that hash is accepted and a second one is refused. *)
Theorem AcceptMessage_once (synced : bool) (now : Z) (inv : CInv) (s s1 : GovStore) :
  ConfirmInventoryRequest synced now inv s = (true, s1) ->
  fst (AcceptMessage (inv_hash inv) s1) = true /\
  fst (AcceptMessage (inv_hash inv) (snd (AcceptMessage (inv_hash inv) s1))) = false.
Proof.
  intros E. unfold ConfirmInventoryRequest in E.
  destruct synced; [|discriminate]. cbn [negb] in E.
  assert (Hs1 : s1 = mkStore (mapObjects s) (mapPostponedObjects s) (mapErasedGovernanceObjects s)
                  (cmapVoteToObject s)
                  (map_emplace (inv_hash inv) (now + RELIABLE_PROPAGATION_TIME) (m_requested_hash_time s))).
  { destruct (inv_type inv); [destruct (_ || _) | destruct (mem _ _) |]; congruence. }
  subst s1. unfold AcceptMessage, mkStore. cbn [m_requested_hash_time].
  rewrite mem_map_emplace, Z.eqb_refl. cbn [orb negb fst snd m_requested_hash_time].
  rewrite mem_map_erase. split; reflexivity.
Qed.

Lemma lookup_set_entry {V} (o : Z) (F : V -> V) (l : list (Z * V)) :
  lookup o (map (fun e => if fst e =? o then (fst e, F (snd e)) else e) l) = option_map F (lookup o l).
Proof.
  induction l as [|[k v] l IH]; simpl; [reflexivity|].
  destruct (Z.eqb_spec k o) as [->|Hne]; simpl.
  - now rewrite Z.eqb_refl.
  - apply Z.eqb_neq in Hne. rewrite (Z.eqb_sym o k), Hne. exact IH.
Qed.

Lemma lookup_map_emplace_some {V} (o : Z) (v : V) (l : list (Z * V)) :
  exists v', lookup o (map_emplace o v l) = Some v'.
Proof.
  rewrite lookup_map_emplace, Z.eqb_refl. destruct (lookup o l); eauto.
Qed.

(** After [MasternodeRateUpdate] records a trigger, a later non-forced rate
    check of a trigger from the same masternode, with a timestamp inside
    the window, passes as bypassed and leaves the map unchanged. *)
Theorem MasternodeRateCheck_after_update `{RB : RateCheckBuffer} (env : RateEnv)
    (m : list (Z * last_object_rec)) (empty_buffer : rate_buffer)
    (govobj govobj' : CGovernanceObject) (fUpdateFailStatus : bool) :
  env_synced env = true -> env_rate_checks_enabled env = true ->
  is_trigger govobj = true -> is_trigger govobj' = true ->
  go_masternode_outpoint govobj' = go_masternode_outpoint govobj ->
  env_now env - 2 * env_superblock_cycle_seconds env <= go_creation_time govobj' <=
    env_now env + MAX_TIME_FUTURE_DEVIATION ->
  MasternodeRateCheck env (MasternodeRateUpdate m empty_buffer govobj) govobj' fUpdateFailStatus false =
    (true, true, MasternodeRateUpdate m empty_buffer govobj).
Proof.
  intros Hs He Ht Ht' Ho [Hlo Hhi].
  unfold MasternodeRateCheck. rewrite Hs, He, Ht'. cbn [negb orb].
  destruct (Z.ltb_spec (go_creation_time govobj') (env_now env - 2 * env_superblock_cycle_seconds env));
    [lia|].
  destruct (Z.ltb_spec (env_now env + MAX_TIME_FUTURE_DEVIATION) (go_creation_time govobj')); [lia|].
  unfold MasternodeRateUpdate. rewrite Ht. cbn [negb]. cbv zeta. rewrite Ho.
  rewrite (lookup_set_entry (go_masternode_outpoint govobj)
    (fun r => {| triggerBuffer := AddTimestamp (go_creation_time govobj) (triggerBuffer r);
                 fStatusOK := true |})).
  destruct (lookup_map_emplace_some (go_masternode_outpoint govobj)
              {| triggerBuffer := empty_buffer; fStatusOK := true |} m) as [r ->].
  reflexivity.
Qed.

Lemma car_objects_kept (now cycle : Z) (objs : list (Z * CGovernanceObject)) (erased votes : list (Z * Z))
    (h : Z) (o' : CGovernanceObject) :
  In (h, o') (fst (fst (car_objects now cycle objs erased votes))) <->
  exists o, In (h, o) objs /\
    ((go_cached_delete o || go_expired o) && (GOVERNANCE_DELETION_DELAY <=? now - go_deletion_time o))
      = false /\
    o' = (if is_proposal o && negb (go_plaintext_valid o) then PrepareDeletion o now else o).
Proof.
  revert erased votes. induction objs as [|[k o] rest IH]; intros erased votes; simpl.
  - split; [tauto | intros (o & [] & _)].
  - destruct (_ && _) eqn:Ed.
    + rewrite IH. split.
      * intros (o0 & H1 & H2 & H3). exists o0. auto.
      * intros (o0 & [E|H1] & H2 & H3); [|exists o0; auto].
        injection E as -> ->. congruence.
    + destruct (car_objects now cycle rest erased votes) as [[o1 e1] v1] eqn:E1. simpl.
      specialize (IH erased votes). rewrite E1 in IH. simpl in IH. rewrite IH. split.
      * intros [E|(o0 & H1 & H2 & H3)].
        -- injection E as -> <-. exists o. auto.
        -- exists o0. auto.
      * intros (o0 & [E|H1] & H2 & H3).
        -- injection E as -> ->. left. now rewrite H3.
        -- right. exists o0. auto.
Qed.

(** Maintenance does nothing before the blockchain is synced; after that
    it keeps exactly the objects that are not both marked (for deletion or
    expired) and past the deletion delay, and a kept proposal whose
    plain-text data is invalid is marked for deletion at [now]. *)
Theorem CheckAndRemove_objects (synced : bool) (now cycle : Z) (s : GovStore) (h : Z)
    (o' : CGovernanceObject) :
  In (h, o') (mapObjects (CheckAndRemove synced now cycle s)) <->
  if synced then
    exists o, In (h, o) (mapObjects s) /\
      ((go_cached_delete o || go_expired o) && (GOVERNANCE_DELETION_DELAY <=? now - go_deletion_time o))
        = false /\
      o' = (if is_proposal o && negb (go_plaintext_valid o) then PrepareDeletion o now else o)
  else In (h, o') (mapObjects s).
Proof.
  destruct synced; [|reflexivity].
  rewrite <- (car_objects_kept now cycle (mapObjects s) (mapErasedGovernanceObjects s)
                (cmapVoteToObject s)).
  unfold CheckAndRemove. cbn [negb].
  destruct (car_objects now cycle (mapObjects s) (mapErasedGovernanceObjects s) (cmapVoteToObject s))
    as [[objs erased] votes]. reflexivity.
Qed.

(** *** Instances *)

Lemma gov_inv_reachable_witness :
  gov_steps empty_store GovFixtures.gov_swept /\ gov_inv GovFixtures.gov_swept.
Proof.
  assert (H : gov_steps empty_store GovFixtures.gov_swept).
  { apply (steps_cons _ GovFixtures.gov_requested); [apply step_inventory|].
    apply (steps_cons _ GovFixtures.gov_live); [apply step_govobj|].
    apply (steps_cons _ GovFixtures.gov_swept); [|apply steps_refl].
    apply step_maintenance. unfold INT64_MAX. lia. }
  split; [exact H | exact (gov_inv_reachable _ H)].
Defined.

Lemma AcceptMessage_once_witness :
  ConfirmInventoryRequest true 0 GovFixtures.inv5 empty_store = (true, GovFixtures.gov_requested) /\
  fst (AcceptMessage (inv_hash GovFixtures.inv5) GovFixtures.gov_requested) = true /\
  fst (AcceptMessage (inv_hash GovFixtures.inv5)
        (snd (AcceptMessage (inv_hash GovFixtures.inv5) GovFixtures.gov_requested))) = false.
Proof.
  assert (H : ConfirmInventoryRequest true 0 GovFixtures.inv5 empty_store = (true, GovFixtures.gov_requested))
    by reflexivity.
  split; [exact H | exact (AcceptMessage_once _ _ _ _ _ H)].
Defined.

Lemma MasternodeRateCheck_after_update_witness :
  env_synced SpecRateBuffer.burst_env = true /\ env_rate_checks_enabled SpecRateBuffer.burst_env = true /\
  is_trigger (SpecRateBuffer.trigger_at 100005) = true /\ is_trigger (SpecRateBuffer.trigger_at 100008) = true /\
  go_masternode_outpoint (SpecRateBuffer.trigger_at 100008) =
    go_masternode_outpoint (SpecRateBuffer.trigger_at 100005) /\
  env_now SpecRateBuffer.burst_env - 2 * env_superblock_cycle_seconds SpecRateBuffer.burst_env <=
    go_creation_time (SpecRateBuffer.trigger_at 100008) <=
    env_now SpecRateBuffer.burst_env + MAX_TIME_FUTURE_DEVIATION /\
  @MasternodeRateCheck SpecRateBuffer.SpecBuffer SpecRateBuffer.burst_env
    (MasternodeRateUpdate SpecRateBuffer.burst_map [] (SpecRateBuffer.trigger_at 100005))
    (SpecRateBuffer.trigger_at 100008) true false =
    (true, true, MasternodeRateUpdate SpecRateBuffer.burst_map [] (SpecRateBuffer.trigger_at 100005)).
Proof.
  assert (Hw : env_now SpecRateBuffer.burst_env - 2 * env_superblock_cycle_seconds SpecRateBuffer.burst_env <=
                go_creation_time (SpecRateBuffer.trigger_at 100008) <=
                env_now SpecRateBuffer.burst_env + MAX_TIME_FUTURE_DEVIATION)
    by (vm_compute; split; discriminate).
  split; [reflexivity|]. split; [reflexivity|]. split; [reflexivity|]. split; [reflexivity|].
  split; [reflexivity|]. split; [exact Hw|].
  exact (@MasternodeRateCheck_after_update SpecRateBuffer.SpecBuffer SpecRateBuffer.burst_env
           SpecRateBuffer.burst_map [] (SpecRateBuffer.trigger_at 100005)
           (SpecRateBuffer.trigger_at 100008) true eq_refl eq_refl eq_refl eq_refl eq_refl Hw).
Defined.

End GovFacts.
